(** * pyAlluv: vertical layout and port allocation of alluvial diagrams

    A shallow embedding of [pyalluv/clusters.py], [pyalluv/fluxes.py] and
    the layout part of [pyalluv/plotting.py].

    Conventions of the embedding.
    - Python numbers are modelled by exact rationals [Q] in the main
      part, where numeric statements are up to [Qeq]; this suits the
      statements that depend on comparisons and on the control flow.
      The statements that depend on the values of the positions are
      made on the module [Double], which repeats the code that sets
      positions and anchors in IEEE 754 binary64 arithmetic.
    - Python objects live in a heap: clusters and fluxes are referred to
      by identifiers and every mutation is a heap update, so that the
      sharing of a flux between its two end points is preserved.
    - A Python exception is a [Raise] in the [result] monad (Python 3
      semantics: arithmetic or ordering on [None] is a [TypeError]).
    - Styling dictionaries (colours, line widths, labels) and the calls
      into matplotlib are outside the development. *)

From Stdlib Require Import QArith Qabs List Bool Arith Lia Lqa.
From Stdlib Require Import Permutation Sorted.
From Stdlib Require Import Floats.SpecFloat Qpower.
Import ListNotations.
Open Scope Q_scope.

Set Implicit Arguments.

(** ** Exceptions and the error monad *)

Inductive exn : Type :=
| TypeError
| AttributeError
| KeyError
| IndexError
| NameError
| AssertionError
| FluxWithNeither  (* Exception('Flux with neither source nor target cluster') *).

Inductive result (A : Type) : Type :=
| Ok (a : A)
| Raise (e : exn).

Arguments Ok {A} a.
Arguments Raise {A} e.

Definition bind {A B} (m : result A) (k : A -> result B) : result B :=
  match m with
  | Ok a => k a
  | Raise e => Raise e
  end.

Notation "x <- c1 ;; c2" := (bind c1 (fun x => c2))
  (at level 61, c1 at next level, right associativity).
Notation "' pat <- c1 ;; c2" :=
  (bind c1 (fun x => match x with pat => c2 end))
  (at level 61, pat pattern, c1 at next level, right associativity).

(** A Python attribute that [__init__] may leave unassigned: reading
    [None] here is an [AttributeError]. *)
Definition attr (A : Type) : Type := option A.

Definition get_attr {A} (a : attr A) : result A :=
  match a with
  | Some v => Ok v
  | None => Raise AttributeError
  end.

(** A value that must be a number; Python's [None] raises [TypeError]. *)
Definition num (o : option Q) : result Q :=
  match o with
  | Some q => Ok q
  | None => Raise TypeError
  end.

(** [for x in l: s = body(s, x)] *)
Fixpoint for_each {S A} (l : list A) (body : S -> A -> result S) (s : S)
  : result S :=
  match l with
  | [] => Ok s
  | x :: l' => s' <- body s x ;; for_each l' body s'
  end.

(** ** Data model *)

Definition cid := nat.
Definition fid := nat.

(** The two edges ['top'] and ['bottom'] of a cluster side. *)
Inductive Loc : Type := top | bottom.

Definition Loc_eqb (a b : Loc) : bool :=
  match a, b with
  | top, top | bottom, bottom => true
  | _, _ => false
  end.

(** A dictionary with exactly the keys ['bottom'] and ['top']. *)
Record by_loc (A : Type) : Type := mk_by_loc { at_bottom : A; at_top : A }.

Definition get_loc {A} (d : by_loc A) (l : Loc) : A :=
  match l with
  | bottom => at_bottom d
  | top => at_top d
  end.

Definition set_loc {A} (d : by_loc A) (l : Loc) (v : A) : by_loc A :=
  match l with
  | bottom => mk_by_loc v (at_top d)
  | top => mk_by_loc (at_bottom d) v
  end.

(** [d[key]] where the key may be [None]: a missing key. *)
Definition lookup_loc {A} (d : by_loc A) (l : option Loc) : result A :=
  match l with
  | Some l => Ok (get_loc d l)
  | None => Raise KeyError
  end.

(** A point [(x, y)]; the abscissa of an in-anchor is [x_pos] as it is,
    which may be [None]. *)
Definition point : Type := (option Q * Q)%type.

Inductive XAnchor : Type := center | left | right.

Record Cluster : Type := mkCluster {
  height : Q;
  width : Q;
  x_anchor : XAnchor;
  x_pos : option Q;
  y_pos : option Q;
  mid_height : option Q;
  out_fluxes : list fid;
  in_fluxes : list fid;
  in_margin : by_loc Q;
  out_margin : by_loc Q;
  in_ : option (by_loc point);
  out_ : option (by_loc point)
}.

Record Flux : Type := mkFlux {
  flux : Q;
  relative_flux : bool;
  source_cluster : option cid;
  target_cluster : option cid;
  flux_width : attr Q;
  out_flux_vanish : Loc;
  in_loc : attr (option Loc);
  out_loc : attr (option Loc);
  anchor_out : attr point;
  top_out : attr point;
  anchor_in : attr point;
  top_in : attr point
}.

(** The heap of objects. Identifiers are references, so every identifier
    denotes an object; [next_cluster] and [next_flux] are the allocation
    counters. *)
Record Heap : Type := mkHeap {
  cl : cid -> Cluster;
  fl : fid -> Flux;
  next_cluster : cid;
  next_flux : fid
}.

Definition upd {A} (m : nat -> A) (i : nat) (v : A) : nat -> A :=
  fun j => if Nat.eqb j i then v else m j.

Definition put_cluster (h : Heap) (c : cid) (v : Cluster) : Heap :=
  mkHeap (upd (cl h) c v) (fl h) (next_cluster h) (next_flux h).

Definition put_flux (h : Heap) (f : fid) (v : Flux) : Heap :=
  mkHeap (cl h) (upd (fl h) f v) (next_cluster h) (next_flux h).

(** Field updates of a cluster. *)
Definition with_x_pos (c : Cluster) (x : option Q) : Cluster :=
  mkCluster (height c) (width c) (x_anchor c) x (y_pos c) (mid_height c)
    (out_fluxes c) (in_fluxes c) (in_margin c) (out_margin c) (in_ c) (out_ c).

Definition with_y_pos (c : Cluster) (y : option Q) : Cluster :=
  mkCluster (height c) (width c) (x_anchor c) (x_pos c) y (mid_height c)
    (out_fluxes c) (in_fluxes c) (in_margin c) (out_margin c) (in_ c) (out_ c).

Definition with_mid_height (c : Cluster) (m : option Q) : Cluster :=
  mkCluster (height c) (width c) (x_anchor c) (x_pos c) (y_pos c) m
    (out_fluxes c) (in_fluxes c) (in_margin c) (out_margin c) (in_ c) (out_ c).

Definition with_out_fluxes (c : Cluster) (l : list fid) : Cluster :=
  mkCluster (height c) (width c) (x_anchor c) (x_pos c) (y_pos c)
    (mid_height c) l (in_fluxes c) (in_margin c) (out_margin c)
    (in_ c) (out_ c).

Definition with_in_fluxes (c : Cluster) (l : list fid) : Cluster :=
  mkCluster (height c) (width c) (x_anchor c) (x_pos c) (y_pos c)
    (mid_height c) (out_fluxes c) l (in_margin c) (out_margin c)
    (in_ c) (out_ c).

Definition with_in_margin (c : Cluster) (m : by_loc Q) : Cluster :=
  mkCluster (height c) (width c) (x_anchor c) (x_pos c) (y_pos c)
    (mid_height c) (out_fluxes c) (in_fluxes c) m (out_margin c)
    (in_ c) (out_ c).

Definition with_out_margin (c : Cluster) (m : by_loc Q) : Cluster :=
  mkCluster (height c) (width c) (x_anchor c) (x_pos c) (y_pos c)
    (mid_height c) (out_fluxes c) (in_fluxes c) (in_margin c) m
    (in_ c) (out_ c).

Definition with_anchors (c : Cluster) (i o : option (by_loc point))
  : Cluster :=
  mkCluster (height c) (width c) (x_anchor c) (x_pos c) (y_pos c)
    (mid_height c) (out_fluxes c) (in_fluxes c) (in_margin c)
    (out_margin c) i o.

(** Field updates of a flux. *)
Definition with_locs (f : Flux) (i o : attr (option Loc)) : Flux :=
  mkFlux (flux f) (relative_flux f) (source_cluster f) (target_cluster f)
    (flux_width f) (out_flux_vanish f) i o
    (anchor_out f) (top_out f) (anchor_in f) (top_in f).

Definition with_out_anchor (f : Flux) (a t : point) : Flux :=
  mkFlux (flux f) (relative_flux f) (source_cluster f) (target_cluster f)
    (flux_width f) (out_flux_vanish f) (in_loc f) (out_loc f)
    (Some a) (Some t) (anchor_in f) (top_in f).

Definition with_in_anchor (f : Flux) (a t : point) : Flux :=
  mkFlux (flux f) (relative_flux f) (source_cluster f) (target_cluster f)
    (flux_width f) (out_flux_vanish f) (in_loc f) (out_loc f)
    (anchor_out f) (top_out f) (Some a) (Some t).

(** ** [Cluster]: positions and anchors *)

(** [Cluster.set_in_out_anchors] *)
Definition set_in_out_anchors (h : Heap) (c : cid) : result Heap :=
  let s := cl h c in
  y <- num (y_pos s) ;;
  x <- num (x_pos s) ;;
  let i := mk_by_loc (x_pos s, y) (x_pos s, y + height s) in
  let o := mk_by_loc (Some (x + width s), y)
                     (Some (x + width s), y + height s) in
  Ok (put_cluster h c (with_anchors s (Some i) (Some o))).

(** [Cluster.set_y_pos] *)
Definition set_y_pos (h : Heap) (c : cid) (y : option Q) : result Heap :=
  let s := with_y_pos (cl h c) y in
  match y with
  | Some v =>
      let s := with_mid_height s (Some (v + (1#2) * height s)) in
      set_in_out_anchors (put_cluster h c s) c
  | None => Ok (put_cluster h c (with_mid_height s None))
  end.

(** [Cluster.set_mid_height] *)
Definition set_mid_height (h : Heap) (c : cid) (m : option Q)
  : result Heap :=
  let s := with_mid_height (cl h c) m in
  match m with
  | Some v =>
      let s := with_y_pos s (Some (v - (1#2) * height s)) in
      set_in_out_anchors (put_cluster h c s) c
  | None => Ok (put_cluster h c (with_y_pos s None))
  end.

(** [Cluster.set_x_pos] *)
Definition set_x_pos (h : Heap) (c : cid) (x : option Q) : Heap :=
  let s := cl h c in
  match x with
  | Some v =>
      let v := v - (1#2) * width s in
      let v := match x_anchor s with
               | left => v + (1#2) * width s
               | right => v - (1#2) * width s
               | center => v
               end in
      put_cluster h c (with_x_pos s (Some v))
  | None => put_cluster h c (with_x_pos s None)
  end.

(** ** Construction of clusters and fluxes *)

(** A size given as a number, or as a list or tuple of elements of which
    the length is taken. *)
Inductive magnitude : Type :=
| Number (q : Q)
| Elements (n : nat).

Definition magnitude_value (m : magnitude) : Q :=
  match m with
  | Number q => q
  | Elements n => inject_Z (Z.of_nat n)
  end.

(** [Cluster.__init__]: the anchor is given by its two coordinates. The
    anchors computed by [set_y_pos] are cleared again by the last two
    assignments of the constructor. *)
Definition Cluster_init (h : Heap) (hgt : magnitude)
  (x_coord y_coord : option Q) (w : Q) (xa : XAnchor)
  : result (Heap * cid) :=
  let c := next_cluster h in
  let s := mkCluster (magnitude_value hgt) w xa None None None [] []
             (mk_by_loc 0 0) (mk_by_loc 0 0) None None in
  let h := mkHeap (upd (cl h) c s) (fl h) (S c) (next_flux h) in
  let h := set_x_pos h c x_coord in
  h <- set_y_pos h c y_coord ;;
  let s := cl h c in
  let s := with_in_margin (with_out_margin
             (with_in_fluxes (with_out_fluxes s []) []) (mk_by_loc 0 0))
             (mk_by_loc 0 0) in
  Ok (put_cluster h c (with_anchors s None None), c).

(** [Flux.__init__] *)
Definition Flux_init (h : Heap) (fx : magnitude)
  (source target : option cid) (relative : bool) (vanish : Loc)
  : result (Heap * fid) :=
  let f := next_flux h in
  let v := magnitude_value fx in
  let fw : attr Q :=
    match source with
    | Some s => if relative then Some (v * height (cl h s)) else Some v
    | None =>
        match target with
        | Some t => if relative then Some (v * height (cl h t)) else Some v
        | None => None
        end
    end in
  let o := mkFlux v relative source target fw vanish
             None None None None None None in
  let h := mkHeap (cl h) (upd (fl h) f o) (next_cluster h) (S f) in
  let h := match source with
           | Some s =>
               put_cluster h s
                 (with_out_fluxes (cl h s) (out_fluxes (cl h s) ++ [f]))
           | None => h
           end in
  let h := match target with
           | Some t =>
               put_cluster h t
                 (with_in_fluxes (cl h t) (in_fluxes (cl h t) ++ [f]))
           | None => h
           end in
  Ok (h, f).

(** ** [AlluvialPlot]: the layout state *)

(** The dictionary [self.clusters] is kept as the list of its columns in
    ascending order of the keys ([self.x_positions]); a column is named by
    its index in that list. *)
Record AlluvialPlot : Type := mkPlot {
  clusters : list (list cid);
  cluster_w_spacing : Q;
  _redistribute_vertically : nat;
  y_min : option Q;
  y_max : option Q;
  heap : Heap
}.

Definition with_heap (p : AlluvialPlot) (h : Heap) : AlluvialPlot :=
  mkPlot (clusters p) (cluster_w_spacing p) (_redistribute_vertically p)
    (y_min p) (y_max p) h.

Definition column (p : AlluvialPlot) (k : nat) : list cid :=
  nth k (clusters p) [].

Fixpoint replace_nth {A} (k : nat) (l : list A) (v : A) : list A :=
  match l, k with
  | [], _ => []
  | _ :: l', O => v :: l'
  | x :: l', S k' => x :: replace_nth k' l' v
  end.

Definition with_column (p : AlluvialPlot) (k : nat) (col : list cid)
  : AlluvialPlot :=
  mkPlot (replace_nth k (clusters p) col) (cluster_w_spacing p)
    (_redistribute_vertically p) (y_min p) (y_max p) (heap p).

Definition with_y_lim (p : AlluvialPlot) (lo hi : option Q)
  : AlluvialPlot :=
  mkPlot (clusters p) (cluster_w_spacing p) (_redistribute_vertically p)
    lo hi (heap p).

(** [l[0]] and [l[-1]] *)
Definition first_item {A} (l : list A) : result A :=
  match l with
  | [] => Raise IndexError
  | x :: _ => Ok x
  end.

Definition last_item {A} (l : list A) : result A :=
  match rev l with
  | [] => Raise IndexError
  | x :: _ => Ok x
  end.

(** The first loop of [_distribute_column]: stack the clusters bottom up,
    [displace] being the running offset. The sums are exact here;
    [Double.stack_from] has them rounded as the code does. *)
Fixpoint stack_from (h : Heap) (col : list cid) (spacing displace : Q)
  : result Heap :=
  match col with
  | [] => Ok h
  | c :: col' =>
      h <- set_y_pos h c (Some displace) ;;
      stack_from h col' spacing (displace + (height (cl h c) + spacing))
  end.

(** The second loop of [_distribute_column]: shift every cluster (exact
    difference; rounded in [Double.shift_by]). *)
Definition shift_by (cent_offset : Q) (h : Heap) (c : cid) : result Heap :=
  y <- num (y_pos (cl h c)) ;;
  set_y_pos h c (Some (y - cent_offset)).

(** [AlluvialPlot._distribute_column] on the heap, in exact arithmetic
    (in doubles: [Double.distribute_column_heap]). *)
Definition distribute_column_heap (h : Heap) (col : list cid) (spacing : Q)
  : result Heap :=
  h <- stack_from h col spacing 0 ;;
  c0 <- first_item col ;;
  low <- num (y_pos (cl h c0)) ;;
  cn <- last_item col ;;
  yn <- num (y_pos (cl h cn)) ;;
  let high := yn + height (cl h cn) in
  let cent_offset := low + (1#2) * (high - low) in
  for_each col (shift_by cent_offset) h.

Definition _distribute_column (p : AlluvialPlot) (k : nat) (spacing : Q)
  : result AlluvialPlot :=
  h <- distribute_column_heap (heap p) (column p k) spacing ;;
  Ok (with_heap p h).

(** ** Sorting, slicing and bisection as Python has them *)

Definition Qltb (a b : Q) : bool :=
  match a ?= b with
  | Lt => true
  | _ => false
  end.

(** [sum(l)]: the builtin adds from the left, starting at [0]. *)
Definition sumQ (l : list Q) : Q := fold_left Qplus l 0.

(** [sorted] is stable; a stable sort has one possible outcome, which
    this insertion sort computes. [le x y] says that [x] may stand before
    [y]. With [reverse=True] the order is flipped and equal keys still
    keep their original order. *)
Fixpoint insert_by {A} (le : A -> A -> bool) (x : A) (l : list A) : list A :=
  match l with
  | [] => [x]
  | y :: l' => if le x y then x :: l else y :: insert_by le x l'
  end.

Fixpoint sorted_by {A} (le : A -> A -> bool) (l : list A) : list A :=
  match l with
  | [] => []
  | x :: l' => insert_by le x (sorted_by le l')
  end.

(** [l[0::2]] *)
Fixpoint every_other {A} (l : list A) : list A :=
  match l with
  | [] => []
  | [x] => [x]
  | x :: _ :: l' => x :: every_other l'
  end.

(** [l[::-2]] and [l[k::2]] *)
Definition slice_back2 {A} (l : list A) : list A := every_other (rev l).
Definition slice_from2 {A} (k : nat) (l : list A) : list A :=
  every_other (skipn k l).

(** [l[i]] for an index [0 <= i]. *)
Definition item {A} (l : list A) (i : nat) : result A :=
  match nth_error l i with
  | Some x => Ok x
  | None => Raise IndexError
  end.

Fixpoint map_result {A B} (f : A -> result B) (l : list A)
  : result (list B) :=
  match l with
  | [] => Ok []
  | x :: l' => y <- f x ;; ys <- map_result f l' ;; Ok (y :: ys)
  end.

(** [bisect.bisect_left(a, x)]: the loop [while lo < hi]. The interval
    shrinks at every turn, so [length a] turns are enough. *)
Fixpoint bisect_loop (fuel : nat) (a : list (option Q)) (x : option Q)
  (lo hi : nat) : result nat :=
  match fuel with
  | O => Ok lo
  | S fuel' =>
      if Nat.ltb lo hi then
        let mid := Nat.div (lo + hi) 2 in
        am <- num (nth mid a None) ;;
        xv <- num x ;;
        if Qltb am xv then bisect_loop fuel' a x (S mid) hi
        else bisect_loop fuel' a x lo mid
      else Ok lo
  end.

Definition bisect_left (a : list (option Q)) (x : option Q) : result nat :=
  bisect_loop (length a) a x 0 (length a).

(** ** Cross-column relaxation *)

(** The lists [weights] and [positions] gathered from the incoming fluxes
    that have a source. *)
Fixpoint gather_sources (h : Heap) (fs : list fid)
  : result (list (Q * option Q)) :=
  match fs with
  | [] => Ok []
  | f :: fs' =>
      match source_cluster (fl h f) with
      | Some s =>
          w <- get_attr (flux_width (fl h f)) ;;
          r <- gather_sources h fs' ;;
          Ok ((w, mid_height (cl h s)) :: r)
      | None => gather_sources h fs'
      end
  end.

(** The same from the outgoing fluxes that have a target. *)
Fixpoint gather_targets (h : Heap) (fs : list fid)
  : result (list (Q * option Q)) :=
  match fs with
  | [] => Ok []
  | f :: fs' =>
      match target_cluster (fl h f) with
      | Some t =>
          w <- get_attr (flux_width (fl h f)) ;;
          r <- gather_targets h fs' ;;
          Ok ((w, mid_height (cl h t)) :: r)
      | None => gather_targets h fs'
      end
  end.

(** [sum([weights[i] * positions[i] for i ...]) / sum(weights)] *)
Definition weighted_mean (wp : list (Q * option Q)) : result Q :=
  prods <- map_result (fun x => p <- num (snd x) ;; Ok (fst x * p)) wp ;;
  Ok (sumQ prods / sumQ (map fst wp)).

(** The body of the loop over the clusters of a relaxation pass. The
    flag is [_redistribute]. *)
Definition relax_cluster (s : Heap * bool) (c : cid)
  : result (Heap * bool) :=
  let (h, redistribute) := s in
  wp <- gather_sources h (in_fluxes (cl h c)) ;;
  if Qltb 0 (sumQ (map fst wp)) then
    m <- weighted_mean wp ;;
    h <- set_mid_height h c (Some m) ;;
    Ok (h, true)
  else Ok (h, redistribute).

(** Ranking against the mid-heights of the previous pass and reordering
    of the column. *)
Definition rerank (h : Heap) (old_mid_heights : list (option Q))
  (col : list cid) : result (list cid) :=
  sort_key <- map_result
                (fun c => bisect_left old_mid_heights (mid_height (cl h c)))
                col ;;
  let cs := map fst
              (sorted_by (fun a b : nat * nat => Nat.leb (snd a) (snd b))
                         (combine (seq 0 (length col)) sort_key)) in
  map_result (item col) cs.

Definition mid_heights (h : Heap) (col : list cid) : list (option Q) :=
  map (fun c => mid_height (cl h c)) col.

(** The relaxation loop [for _ in range(self._redistribute_vertically)].
    Besides the plot it returns, for every pass that was run, whether the
    pass repositioned a cluster (a ghost trace used to count passes). *)
Fixpoint relax_loop (budget : nat) (k : nat) (redistribute : bool)
  (old_mid_heights : list (option Q)) (p : AlluvialPlot)
  : result (AlluvialPlot * list bool) :=
  match budget with
  | O => Ok (p, [])
  | S budget' =>
      '(h, moved) <- for_each (column p k) relax_cluster (heap p, false) ;;
      let redistribute := orb redistribute moved in
      if redistribute then
        col <- rerank h old_mid_heights (column p k) ;;
        let p := with_column (with_heap p h) k col in
        p <- _distribute_column p k (cluster_w_spacing p) ;;
        '(p, trace) <- relax_loop budget' k redistribute
                         (mid_heights (heap p) (column p k)) p ;;
        Ok (p, moved :: trace)
      else Ok (with_heap p h, [moved])
  end.

(** ** Adjacent swaps *)

Inductive direction : Type := backwards | forwards | both.

Definition uses_in (d : direction) : bool :=
  match d with backwards | both => true | forwards => false end.

Definition uses_out (d : direction) : bool :=
  match d with forwards | both => true | backwards => false end.

(** The lists [weights] and [sqdiff] taken from the fluxes [fs] whose
    other end, selected by [other], is present; [m] is the mid-height
    assumed for the cluster itself. *)
Fixpoint gather_diffs (h : Heap) (other : Flux -> option cid)
  (m : option Q) (fs : list fid) : result (list (Q * Q)) :=
  match fs with
  | [] => Ok []
  | f :: fs' =>
      match other (fl h f) with
      | Some o =>
          w <- get_attr (flux_width (fl h f)) ;;
          mv <- num m ;;
          ov <- num (mid_height (cl h o)) ;;
          r <- gather_diffs h other m fs' ;;
          Ok ((w, Qabs (mv - ov)) :: r)
      | None => gather_diffs h other m fs'
      end
  end.

(** The entry that one cluster adds to [squared_diff], if any: the
    weighted mean of the absolute differences, for a cluster whose
    connected weight is positive. *)
Definition deviation (h : Heap) (d : direction) (c : cid) (m : option Q)
  : result (option Q) :=
  wi <- (if uses_in d
         then gather_diffs h source_cluster m (in_fluxes (cl h c))
         else Ok []) ;;
  wo <- (if uses_out d
         then gather_diffs h target_cluster m (out_fluxes (cl h c))
         else Ok []) ;;
  let wd := wi ++ wo in
  if Qltb 0 (sumQ (map fst wd))
  then Ok (Some (sumQ (map (fun x => fst x * snd x) wd)
                 / sumQ (map fst wd)))
  else Ok None.

(** [sum(d.values())] for a dictionary with at most the two keys [n1]
    and [n2]. The two keys are different objects whenever the assertion
    of [_swap_clusters] holds. *)
Definition sum_values (a b : option Q) : Q :=
  sumQ (match a with Some v => [v] | None => [] end
        ++ match b with Some v => [v] | None => [] end).

(** [inv_mid_height]: the mid-heights assumed for the swapped pair. *)
Definition inv_mid_height (h : Heap) (spacing : Q) (n1 n2 : cid)
  : result (Q * Q) :=
  y2 <- num (y_pos (cl h n2)) ;;
  y1 <- num (y_pos (cl h n1)) ;;
  Ok (y2 + height (cl h n2) + spacing + (1#2) * height (cl h n1),
      y1 + (1#2) * height (cl h n2)).

(** [AlluvialPlot._swap_clusters] *)
Definition _swap_clusters (h : Heap) (spacing : Q) (n1 n2 : cid)
  (d : direction) : result bool :=
  d1 <- deviation h d n1 (mid_height (cl h n1)) ;;
  d2 <- deviation h d n2 (mid_height (cl h n2)) ;;
  y1 <- num (y_pos (cl h n1)) ;;
  y2 <- num (y_pos (cl h n2)) ;;
  if Qltb y1 y2 then
    '(m1, m2) <- inv_mid_height h spacing n1 n2 ;;
    i1 <- deviation h d n1 (Some m1) ;;
    i2 <- deviation h d n2 (Some m2) ;;
    Ok (Qltb (sum_values i1 i2) (sum_values d1 d2))
  else Raise AssertionError.

(** The two moves that the callers make when a swap is accepted:
    [n2.set_y_pos(n1.y_pos)] and then
    [n1.set_y_pos(n2.y_pos + n2.height + self.cluster_w_spacing)], with
    exact sums (in doubles: [dexchange_positions]). *)
Definition exchange_positions (h : Heap) (spacing : Q) (n1 n2 : cid)
  : result Heap :=
  h <- set_y_pos h n2 (y_pos (cl h n1)) ;;
  y2 <- num (y_pos (cl h n2)) ;;
  set_y_pos h n1 (Some (y2 + height (cl h n2) + spacing)).

(** What the callers do with the pair at the indices [i] and [S i] of
    column [k]: test, and on acceptance move both clusters and exchange
    them in the column. *)
Definition swap_step (k : nat) (d : direction) (p : AlluvialPlot) (i : nat)
  : result AlluvialPlot :=
  let col := column p k in
  n1 <- item col i ;;
  n2 <- item col (S i) ;;
  b <- _swap_clusters (heap p) (cluster_w_spacing p) n1 n2 d ;;
  if b then
    h <- exchange_positions (heap p) (cluster_w_spacing p) n1 n2 ;;
    Ok (with_column (with_heap p h) k
          (replace_nth (S i) (replace_nth i col n2) n1))
  else Ok p.

(** [for i in range(1, nbr)] with the pair [(i-1, i)]. *)
Definition sweep_up (k : nat) (d : direction) (p : AlluvialPlot)
  : result AlluvialPlot :=
  let nbr := length (column p k) in
  for_each (seq 1 (nbr - 1)) (fun p i => swap_step k d p (i - 1)) p.

(** [for i in range(1, nbr)] with the pair [(nbr-i-1, nbr-i)]. *)
Definition sweep_down (k : nat) (d : direction) (p : AlluvialPlot)
  : result AlluvialPlot :=
  let nbr := length (column p k) in
  for_each (seq 1 (nbr - 1)) (fun p i => swap_step k d p (nbr - i - 1)) p.

(** [for _ in range(n): body] *)
Fixpoint repeat_n {S} (n : nat) (body : S -> result S) (s : S) : result S :=
  match n with
  | O => Ok s
  | S n' => s' <- body s ;; repeat_n n' body s'
  end.

(** ** Layout of one column *)

(** [min(l, key=...)] and [max(l, key=...)] return the first extremal
    item. *)
Fixpoint first_min (key : cid -> Q) (best : cid) (l : list cid) : cid :=
  match l with
  | [] => best
  | c :: l' => first_min key (if Qltb (key c) (key best) then c else best) l'
  end.

Fixpoint first_max (key : cid -> Q) (best : cid) (l : list cid) : cid :=
  match l with
  | [] => best
  | c :: l' => first_max key (if Qltb (key best) (key c) then c else best) l'
  end.

(** [min(a, b)] and [max(a, b)] of two numbers. *)
Definition min2 (a b : Q) : Q := if Qltb b a then b else a.
Definition max2 (a b : Q) : Q := if Qltb a b then b else a.

Definition y_or_0 (h : Heap) (c : cid) : Q :=
  match y_pos (cl h c) with Some y => y | None => 0 end.

(** The update of [self.y_min] and [self.y_max] that ends
    [distribute_clusters]. *)
Definition update_y_lim (p : AlluvialPlot) (k : nat) : result AlluvialPlot :=
  let h := heap p in
  let col := column p k in
  _ <- map_result (fun c => num (y_pos (cl h c))) col ;;
  c0 <- first_item col ;;
  let lo := first_min (y_or_0 h) c0 col in
  let hi := first_max (fun c => y_or_0 h c + height (cl h c)) c0 col in
  let _min_y := y_or_0 h lo - 2 * cluster_w_spacing p in
  let _max_y := y_or_0 h hi + height (cl h hi) + 2 * cluster_w_spacing p in
  Ok (with_y_lim p
        (Some (match y_min p with
               | Some v => min2 v _min_y
               | None => _min_y
               end))
        (Some (match y_max p with
               | Some v => max2 v _max_y
               | None => _max_y
               end))).

(** The centre-biased interleaving
    [_clusters[::-2][::-1] + _clusters[nbr % 2::2][::-1]]. *)
Definition interleave (l : list cid) : list cid :=
  rev (slice_back2 l) ++ rev (slice_from2 (Nat.modulo (length l) 2) l).

(** [AlluvialPlot.distribute_clusters]; the second component is the
    trace of the relaxation loop. *)
Definition distribute_clusters (p : AlluvialPlot) (k : nat)
  : result (AlluvialPlot * list bool) :=
  let nbr_clusters := length (column p k) in
  match nbr_clusters with
  | O => Ok (p, [])
  | S _ =>
      let _clusters :=
        sorted_by (fun a b => Qle_bool (height (cl (heap p) a))
                                       (height (cl (heap p) b)))
                  (column p k) in
      let p := with_column p k (interleave _clusters) in
      p <- _distribute_column p k (cluster_w_spacing p) ;;
      '(p, trace) <- relax_loop (_redistribute_vertically p) k false
                       (mid_heights (heap p) (column p k)) p ;;
      p <- repeat_n (Nat.div nbr_clusters 2) (sweep_up k backwards) p ;;
      p <- repeat_n (Nat.div nbr_clusters 2) (sweep_down k backwards) p ;;
      p <- update_y_lim p k ;;
      Ok (p, trace)
  end.

(** ** Clusters without influx *)

Definition move_cluster (s : Heap * bool) (c : cid) : result (Heap * bool) :=
  let (h, redistribute) := s in
  ws <- map_result (fun f => get_attr (flux_width (fl h f)))
          (in_fluxes (cl h c)) ;;
  if Qeq_bool (sumQ ws) 0 then
    wp <- gather_targets h (out_fluxes (cl h c)) ;;
    if Qltb 0 (sumQ (map fst wp)) then
      m <- weighted_mean wp ;;
      h <- set_mid_height h c (Some m) ;;
      Ok (h, true)
    else Ok (h, redistribute)
  else Ok (h, redistribute).

(** [AlluvialPlot._move_new_clusters] *)
Definition _move_new_clusters (p : AlluvialPlot) (k : nat)
  : result AlluvialPlot :=
  let old_mid_heights := mid_heights (heap p) (column p k) in
  '(h, redistribute) <- for_each (column p k) move_cluster (heap p, false) ;;
  if redistribute then
    col <- rerank h old_mid_heights (column p k) ;;
    _distribute_column (with_column (with_heap p h) k col) k
      (cluster_w_spacing p)
  else Ok (with_heap p h).

(** ** The layout pass of [AlluvialPlot.__init__] with
    [y_pos='overwrite'] *)

Definition forward_swaps (p : AlluvialPlot) (k : nat) : result AlluvialPlot :=
  repeat_n (length (column p k)) (sweep_down k forwards) p.

Definition layout (p : AlluvialPlot) : result AlluvialPlot :=
  let x_positions := seq 0 (length (clusters p)) in
  p <- for_each x_positions
         (fun p k => '(p, _) <- distribute_clusters p k ;; Ok p) p ;;
  p <- for_each x_positions _move_new_clusters p ;;
  for_each x_positions forward_swaps p.

(** ** Port allocation ([clusters.py]) *)

Definition is_loc (l : Loc) (o : option Loc) : bool :=
  match o with
  | Some l' => Loc_eqb l' l
  | None => false
  end.

(** Subscripting [self.in_] or [self.out_], which is [None] until a
    position is set. *)
Definition anchors (a : option (by_loc point)) : result (by_loc point) :=
  match a with
  | Some d => Ok d
  | None => Raise TypeError
  end.

(** Attribute access on [flux.source_cluster] or [flux.target_cluster],
    which may be [None]. *)
Definition deref (c : option cid) : result cid :=
  match c with
  | Some i => Ok i
  | None => Raise AttributeError
  end.

(** The body of the loop of [Cluster.set_loc_out_fluxes], for the
    cluster [c] and one of its outgoing fluxes. *)
Definition loc_out_flux (c : cid) (h : Heap) (f : fid) : result Heap :=
  '(h, in_loc, out_loc) <-
    match target_cluster (fl h f) with
    | Some t =>
        ms <- num (mid_height (cl h c)) ;;
        mt <- num (mid_height (cl h t)) ;;
        if Qltb mt ms then
          a <- anchors (in_ (cl h t)) ;;
          if Qle_bool (snd (at_top a)) ms
          then Ok (h, Some top, Some bottom)
          else Ok (h, Some top, Some top)
        else
          a <- anchors (in_ (cl h t)) ;;
          if Qle_bool ms (snd (at_bottom a))
          then Ok (h, Some bottom, Some top)
          else Ok (h, Some bottom, Some bottom)
    | None =>
        let o := fl h f in
        Ok (put_flux h f
              (with_locs o (in_loc o) (Some (Some (out_flux_vanish o)))),
            None, None)
    end ;;
  Ok (put_flux h f (with_locs (fl h f) (Some in_loc) (Some out_loc))).

(** [Cluster.set_loc_out_fluxes] *)
Definition set_loc_out_fluxes (h : Heap) (c : cid) : result Heap :=
  for_each (out_fluxes (cl h c)) (loc_out_flux c) h.

(** [[(i, fluxes[i]) for i in range(len(fluxes)) if fluxes[i].loc == l]] *)
Definition select_loc (h : Heap) (side : Flux -> attr (option Loc))
  (l : Loc) (fs : list fid) : result (list (nat * fid)) :=
  locs <- map_result (fun f => get_attr (side (fl h f))) fs ;;
  Ok (map fst
        (filter (fun x => is_loc l (snd x))
                (combine (combine (seq 0 (length fs)) fs) locs))).

(** The sort key: the mid-height of the cluster at the other end, or
    [-10000] where there is none. *)
Definition counterpart_key (h : Heap) (other : Flux -> option cid)
  (x : nat * fid) : option Q :=
  match other (fl h (snd x)) with
  | Some o => mid_height (cl h o)
  | None => Some (-(10000))
  end.

(** [sorted(l, key=key, reverse=reverse)] with keys that may be [None]:
    as soon as two items are compared, a [None] key is a [TypeError]. *)
Definition sorted_keyed {A} (key : A -> option Q) (reverse : bool)
  (l : list A) : result (list A) :=
  match l with
  | [] | [_] => Ok l
  | _ =>
      kl <- map_result (fun x => k <- num (key x) ;; Ok (x, k)) l ;;
      Ok (map fst
            (sorted_by (fun a b : A * Q =>
                          if reverse then Qle_bool (snd b) (snd a)
                          else Qle_bool (snd a) (snd b))
                       kl))
  end.

(** The common body of [sort_out_fluxes] and [sort_in_fluxes]: the new
    order of the list [fs]. *)
Definition sort_fluxes (h : Heap) (side : Flux -> attr (option Loc))
  (other : Flux -> option cid) (fs : list fid) : result (list fid) :=
  _top_fluxes <- select_loc h side top fs ;;
  _bottom_fluxes <- select_loc h side bottom fs ;;
  sorted_top <- sorted_keyed (counterpart_key h other) true _top_fluxes ;;
  sorted_bottom <-
    sorted_keyed (counterpart_key h other) false _bottom_fluxes ;;
  let sorted_idx := map fst sorted_top ++ map fst sorted_bottom in
  map_result (item fs) sorted_idx.

(** [Cluster.sort_out_fluxes] *)
Definition sort_out_fluxes (h : Heap) (c : cid) : result Heap :=
  fs <- sort_fluxes h out_loc target_cluster (out_fluxes (cl h c)) ;;
  Ok (put_cluster h c (with_out_fluxes (cl h c) fs)).

(** [Cluster.sort_in_fluxes] *)
Definition sort_in_fluxes (h : Heap) (c : cid) : result Heap :=
  fs <- sort_fluxes h in_loc source_cluster (in_fluxes (cl h c)) ;;
  Ok (put_cluster h c (with_in_fluxes (cl h c) fs)).

(** [Cluster.get_loc_out_flux], with exact sums (in doubles:
    [Double.get_loc_out_flux]). *)
Definition get_loc_out_flux (h : Heap) (c : cid) (fw : Q)
  (o_loc i_loc : option Loc) : result (Heap * (point * point)) :=
  o <- anchors (out_ (cl h c)) ;;
  pt <- lookup_loc o o_loc ;;
  m <- lookup_loc (out_margin (cl h c)) o_loc ;;
  let anchor := (fst pt, snd pt + m + (if is_loc bottom i_loc then fw else 0)) in
  let top_ := (fst pt, snd pt + m + (if is_loc top i_loc then fw else 0)) in
  match o_loc with
  | Some l =>
      Ok (put_cluster h c
            (with_out_margin (cl h c)
               (set_loc (out_margin (cl h c)) l (m + fw))),
          (anchor, top_))
  | None => Raise KeyError
  end.

(** [Cluster.get_loc_in_flux], with exact sums (in doubles:
    [Double.get_loc_in_flux]). *)
Definition get_loc_in_flux (h : Heap) (c : cid) (fw : Q)
  (o_loc i_loc : option Loc) : result (Heap * (point * point)) :=
  i <- anchors (in_ (cl h c)) ;;
  pt <- lookup_loc i i_loc ;;
  m <- lookup_loc (in_margin (cl h c)) i_loc ;;
  let anchor := (fst pt, snd pt + m + (if is_loc bottom o_loc then fw else 0)) in
  let top_ := (fst pt, snd pt + m + (if is_loc top o_loc then fw else 0)) in
  match i_loc with
  | Some l =>
      Ok (put_cluster h c
            (with_in_margin (cl h c)
               (set_loc (in_margin (cl h c)) l (m + fw))),
          (anchor, top_))
  | None => Raise KeyError
  end.

(** The body of the loop of [Cluster.set_anchor_out_fluxes]. *)
Definition anchor_out_flux (c : cid) (h : Heap) (f : fid) : result Heap :=
  o_loc <- get_attr (out_loc (fl h f)) ;;
  w <- get_attr (flux_width (fl h f)) ;;
  let out_width := if is_loc bottom o_loc then w else - w in
  i_loc <- get_attr (in_loc (fl h f)) ;;
  '(h, (a, t)) <- get_loc_out_flux h c out_width o_loc i_loc ;;
  Ok (put_flux h f (with_out_anchor (fl h f) a t)).

(** [Cluster.set_anchor_out_fluxes] *)
Definition set_anchor_out_fluxes (h : Heap) (c : cid) : result Heap :=
  for_each (out_fluxes (cl h c)) (anchor_out_flux c) h.

(** The body of the loop of [Cluster.set_anchor_in_fluxes]. *)
Definition anchor_in_flux (c : cid) (h : Heap) (f : fid) : result Heap :=
  i_loc <- get_attr (in_loc (fl h f)) ;;
  w <- get_attr (flux_width (fl h f)) ;;
  let in_width := if is_loc bottom i_loc then w else - w in
  o_loc <- get_attr (out_loc (fl h f)) ;;
  '(h, (a, t)) <- get_loc_in_flux h c in_width o_loc i_loc ;;
  Ok (put_flux h f (with_in_anchor (fl h f) a t)).

(** [Cluster.set_anchor_in_fluxes] *)
Definition set_anchor_in_fluxes (h : Heap) (c : cid) : result Heap :=
  for_each (in_fluxes (cl h c)) (anchor_in_flux c) h.

(** The port allocation that [get_patchcollection] runs on a cluster. *)
Definition allocate_ports (h : Heap) (c : cid) : result Heap :=
  h <- set_loc_out_fluxes h c ;;
  h <- sort_in_fluxes h c ;;
  h <- sort_out_fluxes h c ;;
  h <- set_anchor_in_fluxes h c ;;
  set_anchor_out_fluxes h c.

(** ** Ribbon geometry ([Flux.get_patch], from [_dist] on) *)

(** The choice of [_dist]. *)
Definition patch_dist (h : Heap) (f : fid) : result (option Q) :=
  let o := fl h f in
  o_loc <- get_attr (out_loc o) ;;
  match o_loc with
  | Some _ =>
      i_loc <- get_attr (in_loc o) ;;
      match i_loc with
      | Some _ =>
          t <- deref (target_cluster o) ;;
          ti <- anchors (in_ (cl h t)) ;;
          s <- deref (source_cluster o) ;;
          so <- anchors (out_ (cl h s)) ;;
          tx <- num (fst (at_bottom ti)) ;;
          sx <- num (fst (at_bottom so)) ;;
          Ok (Some ((2#3) * (tx - sx)))
      | None =>
          s <- deref (source_cluster o) ;;
          Ok (Some (2 * width (cl h s)))
      end
  | None =>
      i_loc <- get_attr (in_loc o) ;;
      match i_loc with
      | Some _ => Ok None
      | None => Raise FluxWithNeither
      end
  end.

(** The thirteen vertices of the contour. *)
Definition get_patch (h : Heap) (f : fid) : result (list point) :=
  let o := fl h f in
  _dist <- patch_dist h f ;;
  ao <- get_attr (anchor_out o) ;;
  s <- deref (source_cluster o) ;;
  aox <- num (fst ao) ;;
  d <- num _dist ;;
  let anchor_out_inner := (Some (aox - (1#2) * width (cl h s)), snd ao) in
  let dir_out_anchor := (Some (aox + d), snd ao) in
  to <- get_attr (top_out o) ;;
  tox <- num (fst to) ;;
  let top_out_inner := (Some (tox - (1#2) * width (cl h s)), snd to) in
  let dir_out_top := (Some (tox + d), snd to) in
  ai <- get_attr (anchor_in o) ;;
  t <- deref (target_cluster o) ;;
  aix <- num (fst ai) ;;
  let anchor_in_inner := (Some (aix + (1#2) * width (cl h t)), snd ai) in
  let dir_in_anchor := (Some (aix - d), snd ai) in
  ti <- get_attr (top_in o) ;;
  tix <- num (fst ti) ;;
  let top_in_inner := (Some (tix + (1#2) * width (cl h t)), snd ti) in
  let dir_in_top := (Some (tix - d), snd ti) in
  Ok [ao; dir_out_anchor; dir_in_anchor; ai;
      anchor_in_inner; top_in_inner; ti;
      dir_in_top; dir_out_top; to;
      top_out_inner; anchor_out_inner; ao].

(** ** The decision table of the port allocation, as specified *)

(** The pair (exit edge, entry edge) for a source of mid-height [s_mid]
    and a target of mid-height [t_mid] whose in-anchors lie at the
    heights [t_in_top] and [t_in_bottom]. *)
Definition decision_table (s_mid t_mid t_in_top t_in_bottom : Q)
  : Loc * Loc :=
  if Qltb t_mid s_mid then
    if Qle_bool t_in_top s_mid then (bottom, top) else (top, top)
  else
    if Qle_bool s_mid t_in_bottom then (top, bottom) else (bottom, bottom).

(** ** Predicates used in the statements *)

(** [b] is [a] up to its vertical position and anchors. *)
Definition moved_only (a b : Cluster) : Prop :=
  height b = height a /\ width b = width a /\ x_anchor b = x_anchor a /\
  x_pos b = x_pos a /\ out_fluxes b = out_fluxes a /\
  in_fluxes b = in_fluxes a /\ in_margin b = in_margin a /\
  out_margin b = out_margin a.

(** The heap [h'] comes from [h] by repositioning clusters of [col]
    only. *)
Definition repositions (col : list cid) (h h' : Heap) : Prop :=
  fl h' = fl h /\
  forall c, moved_only (cl h c) (cl h' c) /\
            (~ In c col -> cl h' c = cl h c).

(** The clusters of [col] are stacked bottom up from the height [y],
    each one [s] above the top of the one before. *)
Fixpoint chain (h : Heap) (s : Q) (y : Q) (col : list cid) : Prop :=
  match col with
  | [] => True
  | c :: col' =>
      exists yc, y_pos (cl h c) = Some yc /\ yc == y /\
                 chain h s (yc + height (cl h c) + s) col'
  end.

Definition stacked (h : Heap) (s : Q) (col : list cid) : Prop :=
  exists y, chain h s y col.

(** ** A small diagram used to exercise the statements *)

Definition blank_cluster : Cluster :=
  mkCluster 0 0 center None None None [] []
    (mk_by_loc 0 0) (mk_by_loc 0 0) None None.

Definition blank_flux : Flux :=
  mkFlux 0 false None None None top None None None None None None.

Definition empty_heap : Heap :=
  mkHeap (fun _ => blank_cluster) (fun _ => blank_flux) 0%nat 0%nat.

Definition heap_of (r : result Heap) : Heap :=
  match r with
  | Ok h => h
  | Raise _ => empty_heap
  end.

(** One cluster of height 10 at [x = 0], clusters of heights 10 and 4 at
    [x = 1], fluxes of 6 and 4 from the first to the other two and a
    flux of 4 that leaves the first cluster and vanishes. *)
Definition sample_heap : Heap :=
  heap_of
    ('(h, c0) <- Cluster_init empty_heap (Number 10) (Some 0) None 4 left ;;
     '(h, c1) <- Cluster_init h (Number 10) (Some 1) None 4 left ;;
     '(h, c2) <- Cluster_init h (Number 4) (Some 1) None 4 left ;;
     '(h, _) <- Flux_init h (Number 6) (Some c0) (Some c1) false top ;;
     '(h, _) <- Flux_init h (Number 4) (Some c0) (Some c2) false top ;;
     '(h, _) <- Flux_init h (Number 4) (Some c0) None false top ;;
     Ok h).

Definition sample_plot : AlluvialPlot :=
  mkPlot [[0%nat]; [1%nat; 2%nat]] 1 4 None None sample_heap.

(** [b] is [a] up to its routing decision [in_loc] and [out_loc]. *)
Definition rerouted_only (a b : Flux) : Prop :=
  flux b = flux a /\ relative_flux b = relative_flux a /\
  source_cluster b = source_cluster a /\
  target_cluster b = target_cluster a /\
  flux_width b = flux_width a /\ out_flux_vanish b = out_flux_vanish a /\
  anchor_out b = anchor_out a /\ top_out b = top_out a /\
  anchor_in b = anchor_in a /\ top_in b = top_in a.

Definition plot_of (r : result AlluvialPlot) : AlluvialPlot :=
  match r with
  | Ok p => p
  | Raise _ => mkPlot [] 0 0 None None empty_heap
  end.

(** The sample diagram after the layout pass. *)
Definition sample_layout : AlluvialPlot := plot_of (layout sample_plot).

(** The decision table as four cases on the mid-height of the source,
    the mid-height of the target and the heights of its two in-anchors. *)
Definition follows_table (s_mid t_mid t_in_top t_in_bottom : Q)
  (exit enter : Loc) : Prop :=
  (t_mid < s_mid -> t_in_top <= s_mid -> exit = bottom /\ enter = top) /\
  (t_mid < s_mid -> s_mid < t_in_top -> exit = top /\ enter = top) /\
  (s_mid <= t_mid -> s_mid <= t_in_bottom ->
   exit = top /\ enter = bottom) /\
  (s_mid <= t_mid -> t_in_bottom < s_mid ->
   exit = bottom /\ enter = bottom).

(** ** Edges and sort keys of fluxes, for the statements *)

(** The edge recorded in the attribute [side] of a flux, if any. *)
Definition loc_of (h : Heap) (side : Flux -> attr (option Loc)) (f : fid)
  : option Loc :=
  match side (fl h f) with
  | Some o => o
  | None => None
  end.

Definition on_edge (h : Heap) (side : Flux -> attr (option Loc)) (l : Loc)
  (f : fid) : bool :=
  is_loc l (loc_of h side f).

(** The number a flux is sorted by: the mid-height of the cluster at its
    other end, and [-10000] for a flux without one. *)
Definition edge_key (h : Heap) (other : Flux -> option cid) (f : fid) : Q :=
  match other (fl h f) with
  | Some o =>
      match mid_height (cl h o) with
      | Some m => m
      | None => 0
      end
  | None => -(10000)
  end.

(** The order that the fluxes of a ['top'] edge are said to have:
    strictly descending mid-heights of the clusters at the other end,
    a flux without such a cluster counting as minus infinity. *)
Definition counterpart_mid (h : Heap) (other : Flux -> option cid) (f : fid)
  : option Q :=
  match other (fl h f) with
  | Some o => mid_height (cl h o)
  | None => None
  end.

Definition strictly_above (a b : option Q) : Prop :=
  match a, b with
  | Some x, Some y => y < x
  | Some _, None => True
  | None, None => True
  | None, Some _ => False
  end.

Definition strictly_descending (h : Heap) (other : Flux -> option cid)
  (fs : list fid) : Prop :=
  StronglySorted
    (fun f g => strictly_above (counterpart_mid h other f)
                               (counterpart_mid h other g)) fs.

(** The sample diagram with two fluxes of 3 from cluster 0 to cluster 1
    and one of 4 from cluster 0 to cluster 2, laid out, and then with the
    edges of the fluxes of cluster 0 decided. *)
Definition sample_heap_tie : Heap :=
  heap_of
    ('(h, c0) <- Cluster_init empty_heap (Number 10) (Some 0) None 4 left ;;
     '(h, c1) <- Cluster_init h (Number 10) (Some 1) None 4 left ;;
     '(h, c2) <- Cluster_init h (Number 4) (Some 1) None 4 left ;;
     '(h, _) <- Flux_init h (Number 3) (Some c0) (Some c1) false top ;;
     '(h, _) <- Flux_init h (Number 3) (Some c0) (Some c1) false top ;;
     '(h, _) <- Flux_init h (Number 4) (Some c0) (Some c2) false top ;;
     Ok h).

Definition sample_tie_layout : AlluvialPlot :=
  plot_of (layout (mkPlot [[0%nat]; [1%nat; 2%nat]] 1 4 None None
                     sample_heap_tie)).

Definition sample_tie_routed : Heap :=
  heap_of (set_loc_out_fluxes (heap sample_tie_layout) 0%nat).

(** A cluster with two fluxes on its ['top'] exit: flux 0 has no target,
    flux 1 leads to a cluster of mid-height -20000. *)
Definition sample_heap_far : Heap :=
  let c0 := with_out_fluxes blank_cluster [0%nat; 1%nat] in
  let c1 := with_mid_height blank_cluster (Some (-(20000))) in
  let f0 := with_locs blank_flux (Some None) (Some (Some top)) in
  let f1 := with_locs
              (mkFlux 1 false (Some 0%nat) (Some 1%nat) (Some 1) top
                 None None None None None None)
              (Some (Some top)) (Some (Some top)) in
  put_flux
    (put_flux (put_cluster (put_cluster empty_heap 0%nat c0) 1%nat c1)
       0%nat f0)
    1%nat f1.

(** ** Bands of fluxes along an edge, for the statements *)

(** The width of a flux as it is counted on an edge: upwards on a
    ['bottom'] edge, downwards on a ['top'] edge. *)
Definition signed (l : Loc) (w : Q) : Q :=
  match l with
  | bottom => w
  | top => - w
  end.

(** The heights of the two anchors of a flux on its source side, and on
    its target side. *)
Definition out_ends (f : Flux) : option (Q * Q) :=
  match anchor_out f, top_out f with
  | Some a, Some t => Some (snd a, snd t)
  | _, _ => None
  end.

Definition in_ends (f : Flux) : option (Q * Q) :=
  match anchor_in f, top_in f with
  | Some a, Some t => Some (snd a, snd t)
  | _, _ => None
  end.

(** The two heights [a] and [t] are the two ends [x] and [y] of a band,
    one way round or the other. *)
Definition between (a t x y : Q) : Prop :=
  (a == x /\ t == y) \/ (a == y /\ t == x).

(** The fluxes [fs] occupy adjacent bands along the edge [l]: the band
    of the first one starts at the height [start] and the band of each
    flux ends, one signed width further, where the next one starts. *)
Fixpoint tiled (h : Heap) (ends : Flux -> option (Q * Q)) (l : Loc)
  (start : Q) (fs : list fid) : Prop :=
  match fs with
  | [] => True
  | f :: fs' =>
      exists w a t,
        flux_width (fl h f) = Some w /\ ends (fl h f) = Some (a, t) /\
        between a t start (start + signed l w) /\
        tiled h ends l (start + signed l w) fs'
  end.

(** The sum of the widths of the fluxes [fs]. *)
Definition total_width (h : Heap) (fs : list fid) : Q :=
  sumQ (map (fun f => match flux_width (fl h f) with
                      | Some w => w
                      | None => 0
                      end) fs).

(** The sample diagram with the fluxes of cluster 0 sorted. *)
Definition sample_tie_sorted : Heap :=
  heap_of (sort_out_fluxes sample_tie_routed 0%nat).

(** [y] lies at or beyond [x] in the direction in which the edge [l] is
    filled: upwards for ['bottom'], downwards for ['top']. *)
Definition beyond (l : Loc) (x y : Q) : Prop :=
  match l with
  | bottom => x <= y
  | top => y <= x
  end.

(** No two bands of [fs] overlap: the band of each flux lies wholly
    beyond the bands of the fluxes before it. *)
Fixpoint separated (h : Heap) (ends : Flux -> option (Q * Q)) (l : Loc)
  (fs : list fid) : Prop :=
  match fs with
  | [] => True
  | f :: fs' =>
      (exists a t,
         ends (fl h f) = Some (a, t) /\
         forall g, In g fs' ->
           exists a' t',
             ends (fl h g) = Some (a', t') /\
             beyond l a a' /\ beyond l a t' /\
             beyond l t a' /\ beyond l t t') /\
      separated h ends l fs'
  end.

(** ** The deviation that the adjacent swaps are meant to reduce *)

(** [sum(squared_diff.values())] at the present positions of the pair:
    the sum over the two clusters of the weighted mean absolute
    deviation from the clusters they are connected to. *)
Definition total_deviation (h : Heap) (d : direction) (n1 n2 : cid)
  : result Q :=
  d1 <- deviation h d n1 (mid_height (cl h n1)) ;;
  d2 <- deviation h d n2 (mid_height (cl h n2)) ;;
  Ok (sum_values d1 d2).

(** A source of height 3 and mid-height 3/2 in one column; in the next
    column two clusters 1 and 2 of height 2, stacked with spacing 1, the
    lower one, 1, being fed by the source through a flux of width 1. *)
Definition sample_heap_swap : Heap :=
  heap_of
    ('(h, s) <- Cluster_init empty_heap (Number 3) (Some 0) (Some 0) 1 left ;;
     '(h, n1) <- Cluster_init h (Number 2) (Some 1) None 1 left ;;
     '(h, n2) <- Cluster_init h (Number 2) (Some 1) None 1 left ;;
     '(h, _) <- Flux_init h (Number 1) (Some s) (Some n1) false top ;;
     distribute_column_heap h [n1; n2] 1).

(** ** Weights of clusters and steps of the layout, for the statements *)

(** [kwargs.get('redistribute_vertically', 4)] *)
Definition redistribute_vertically_kwarg (o : option nat) : nat :=
  match o with
  | Some n => n
  | None => 4%nat
  end.

(** The list [weights] that a relaxation pass gathers for a cluster:
    the widths of its incoming fluxes that have a source. *)
Definition source_weights (h : Heap) (fs : list fid) : list Q :=
  flat_map (fun f => match source_cluster (fl h f) with
                     | Some _ => match flux_width (fl h f) with
                                 | Some w => [w]
                                 | None => []
                                 end
                     | None => []
                     end) fs.

(** The total weight of the incoming fluxes of [c] is positive. *)
Definition weighted (h : Heap) (c : cid) : bool :=
  Qltb 0 (sumQ (source_weights h (in_fluxes (cl h c)))).

Definition stacked_column (p : AlluvialPlot) (k : nat) : Prop :=
  stacked (heap p) (cluster_w_spacing p) (column p k).

(** The plot [p'] comes from [p] by reordering and repositioning the
    clusters of column [k] only. *)
Definition local_step (k : nat) (p p' : AlluvialPlot) : Prop :=
  cluster_w_spacing p' = cluster_w_spacing p /\
  _redistribute_vertically p' = _redistribute_vertically p /\
  (forall j, j <> k -> column p' j = column p j) /\
  Permutation (column p' k) (column p k) /\
  repositions (column p k) (heap p) (heap p').

(** The sample diagram with its first column laid out. *)
Definition sample_plot_first : AlluvialPlot :=
  plot_of ('(p, _) <- distribute_clusters sample_plot 0 ;; Ok p).

(** The step from [p] to [p'] stays within column [k] and keeps the
    column stacked if it was. *)
Definition keeps_stack (k : nat) (p p' : AlluvialPlot) : Prop :=
  local_step k p p' /\
  (NoDup (column p k) -> stacked_column p k -> stacked_column p' k).

(** The columns hold distinct clusters and no cluster stands in two
    columns. *)
Definition distinct_columns (p : AlluvialPlot) : Prop :=
  (forall k, NoDup (column p k)) /\
  (forall j k c, j <> k -> In c (column p j) -> ~ In c (column p k)).

(** The plot [p'] has the columns of [p], each possibly reordered, with
    clusters of the same heights and the same spacing. *)
Definition relayout (p p' : AlluvialPlot) : Prop :=
  cluster_w_spacing p' = cluster_w_spacing p /\
  (forall k, Permutation (column p' k) (column p k)) /\
  (forall c, height (cl (heap p') c) = height (cl (heap p) c)).

(** A cluster whose position is set: its mid-height is half its height
    above [y_pos] and its anchors are the four corners of its
    rectangle. *)
Definition anchored (c : Cluster) : Prop :=
  exists x y m,
    x_pos c = Some x /\ y_pos c = Some y /\ mid_height c = Some m /\
    m == y + (1#2) * height c /\
    in_ c = Some (mk_by_loc (Some x, y) (Some x, y + height c)) /\
    out_ c = Some (mk_by_loc (Some (x + width c), y)
                             (Some (x + width c), y + height c)).

(** The offset of the left edge of a cluster from its anchor. *)
Definition anchor_offset (a : XAnchor) (w : Q) : Q :=
  match a with
  | center => (1#2) * w
  | left => 0
  | right => w
  end.

(** The flux leads to a cluster. *)
Definition has_target (h : Heap) (f : fid) : bool :=
  match target_cluster (fl h f) with
  | Some _ => true
  | None => false
  end.

(** * The position arithmetic in double precision

    The definitions above compute with exact rationals. The positions
    that the code computes are Python floats, that is IEEE 754 binary64
    numbers, and every sum, difference and product is rounded. The module
    [Double] repeats the part of the code that sets positions and
    anchors with the binary64 operations of the standard library
    ([SpecFloat], precision 53, [emax] 1024), for the statements that
    depend on the rounding. Numbers are taken as floats throughout: an
    integer argument is read as the float it converts to, and the
    integer [0] of the initial margins as [0.0]. *)

Module Double.

Definition double : Type := spec_float.
Definition prec : Z := 53%Z.
Definition emax : Z := 1024%Z.

Definition add : double -> double -> double := SFadd prec emax.
Definition sub : double -> double -> double := SFsub prec emax.
Definition mul : double -> double -> double := SFmul prec emax.
Definition opp : double -> double := SFopp.
Definition ltb : double -> double -> bool := SFltb.
Definition leb : double -> double -> bool := SFleb.

(** The literals [0.0] and [0.5]. *)
Definition zero : double := S754_zero false.
Definition half : double := S754_finite false 4503599627370496 (-53).

(** The float of an integer. *)
Definition of_Z (z : Z) : double := binary_normalize prec emax z 0 false.

(** Neither an infinity nor a NaN. *)
Definition finite (x : double) : bool :=
  match x with
  | S754_zero _ | S754_finite _ _ _ => true
  | _ => false
  end.

(** A number of the binary64 format. *)
Definition valid (x : double) : Prop := valid_binary prec emax x = true.

(** The rational that a finite double stands for. *)
Definition B2Q (x : double) : Q :=
  match x with
  | S754_finite s m e => inject_Z (cond_Zopp s (Zpos m)) * 2 ^ e
  | _ => 0
  end.

(** The unit roundoff [2^-53] and the least positive double
    [2^-1074]. *)
Definition eps : Q := 2 ^ (-53).
Definition eta : Q := 2 ^ (-1074).

Definition num (o : option double) : result double :=
  match o with
  | Some q => Ok q
  | None => Raise TypeError
  end.

Definition point : Type := (option double * double)%type.

Record Cluster : Type := mkCluster {
  height : double;
  width : double;
  x_anchor : XAnchor;
  x_pos : option double;
  y_pos : option double;
  mid_height : option double;
  out_fluxes : list fid;
  in_fluxes : list fid;
  in_margin : by_loc double;
  out_margin : by_loc double;
  in_ : option (by_loc point);
  out_ : option (by_loc point)
}.

Record Flux : Type := mkFlux {
  flux : double;
  relative_flux : bool;
  source_cluster : option cid;
  target_cluster : option cid;
  flux_width : attr double;
  out_flux_vanish : Loc;
  in_loc : attr (option Loc);
  out_loc : attr (option Loc);
  anchor_out : attr point;
  top_out : attr point;
  anchor_in : attr point;
  top_in : attr point
}.

Record Heap : Type := mkHeap {
  cl : cid -> Cluster;
  fl : fid -> Flux;
  next_cluster : cid;
  next_flux : fid
}.

Definition put_cluster (h : Heap) (c : cid) (v : Cluster) : Heap :=
  mkHeap (upd (cl h) c v) (fl h) (next_cluster h) (next_flux h).

Definition put_flux (h : Heap) (f : fid) (v : Flux) : Heap :=
  mkHeap (cl h) (upd (fl h) f v) (next_cluster h) (next_flux h).

Definition with_x_pos (c : Cluster) (x : option double) : Cluster :=
  mkCluster (height c) (width c) (x_anchor c) x (y_pos c) (mid_height c)
    (out_fluxes c) (in_fluxes c) (in_margin c) (out_margin c) (in_ c) (out_ c).

Definition with_y_pos (c : Cluster) (y : option double) : Cluster :=
  mkCluster (height c) (width c) (x_anchor c) (x_pos c) y (mid_height c)
    (out_fluxes c) (in_fluxes c) (in_margin c) (out_margin c) (in_ c) (out_ c).

Definition with_mid_height (c : Cluster) (m : option double) : Cluster :=
  mkCluster (height c) (width c) (x_anchor c) (x_pos c) (y_pos c) m
    (out_fluxes c) (in_fluxes c) (in_margin c) (out_margin c) (in_ c) (out_ c).

Definition with_out_fluxes (c : Cluster) (l : list fid) : Cluster :=
  mkCluster (height c) (width c) (x_anchor c) (x_pos c) (y_pos c)
    (mid_height c) l (in_fluxes c) (in_margin c) (out_margin c)
    (in_ c) (out_ c).

Definition with_in_fluxes (c : Cluster) (l : list fid) : Cluster :=
  mkCluster (height c) (width c) (x_anchor c) (x_pos c) (y_pos c)
    (mid_height c) (out_fluxes c) l (in_margin c) (out_margin c)
    (in_ c) (out_ c).

Definition with_in_margin (c : Cluster) (m : by_loc double) : Cluster :=
  mkCluster (height c) (width c) (x_anchor c) (x_pos c) (y_pos c)
    (mid_height c) (out_fluxes c) (in_fluxes c) m (out_margin c)
    (in_ c) (out_ c).

Definition with_out_margin (c : Cluster) (m : by_loc double) : Cluster :=
  mkCluster (height c) (width c) (x_anchor c) (x_pos c) (y_pos c)
    (mid_height c) (out_fluxes c) (in_fluxes c) (in_margin c) m
    (in_ c) (out_ c).

Definition with_anchors (c : Cluster) (i o : option (by_loc point))
  : Cluster :=
  mkCluster (height c) (width c) (x_anchor c) (x_pos c) (y_pos c)
    (mid_height c) (out_fluxes c) (in_fluxes c) (in_margin c)
    (out_margin c) i o.

Definition with_locs (f : Flux) (i o : attr (option Loc)) : Flux :=
  mkFlux (flux f) (relative_flux f) (source_cluster f) (target_cluster f)
    (flux_width f) (out_flux_vanish f) i o
    (anchor_out f) (top_out f) (anchor_in f) (top_in f).

Definition with_out_anchor (f : Flux) (a t : point) : Flux :=
  mkFlux (flux f) (relative_flux f) (source_cluster f) (target_cluster f)
    (flux_width f) (out_flux_vanish f) (in_loc f) (out_loc f)
    (Some a) (Some t) (anchor_in f) (top_in f).

Definition with_in_anchor (f : Flux) (a t : point) : Flux :=
  mkFlux (flux f) (relative_flux f) (source_cluster f) (target_cluster f)
    (flux_width f) (out_flux_vanish f) (in_loc f) (out_loc f)
    (anchor_out f) (top_out f) (Some a) (Some t).

(** [Cluster.set_in_out_anchors] *)
Definition set_in_out_anchors (h : Heap) (c : cid) : result Heap :=
  let s := cl h c in
  y <- num (y_pos s) ;;
  x <- num (x_pos s) ;;
  let i := mk_by_loc (x_pos s, y) (x_pos s, add y (height s)) in
  let o := mk_by_loc (Some (add x (width s)), y)
                     (Some (add x (width s)), add y (height s)) in
  Ok (put_cluster h c (with_anchors s (Some i) (Some o))).

(** [Cluster.set_y_pos] *)
Definition set_y_pos (h : Heap) (c : cid) (y : option double)
  : result Heap :=
  let s := with_y_pos (cl h c) y in
  match y with
  | Some v =>
      let s := with_mid_height s (Some (add v (mul half (height s)))) in
      set_in_out_anchors (put_cluster h c s) c
  | None => Ok (put_cluster h c (with_mid_height s None))
  end.

(** [Cluster.set_x_pos] *)
Definition set_x_pos (h : Heap) (c : cid) (x : option double) : Heap :=
  let s := cl h c in
  match x with
  | Some v =>
      let v := sub v (mul half (width s)) in
      let v := match x_anchor s with
               | left => add v (mul half (width s))
               | right => sub v (mul half (width s))
               | center => v
               end in
      put_cluster h c (with_x_pos s (Some v))
  | None => put_cluster h c (with_x_pos s None)
  end.

(** [Cluster.__init__] with a number for the height. *)
Definition Cluster_init (h : Heap) (hgt : double)
  (x_coord y_coord : option double) (w : double) (xa : XAnchor)
  : result (Heap * cid) :=
  let c := next_cluster h in
  let s := mkCluster hgt w xa None None None [] []
             (mk_by_loc zero zero) (mk_by_loc zero zero) None None in
  let h := mkHeap (upd (cl h) c s) (fl h) (S c) (next_flux h) in
  let h := set_x_pos h c x_coord in
  h <- set_y_pos h c y_coord ;;
  let s := cl h c in
  let s := with_in_margin (with_out_margin
             (with_in_fluxes (with_out_fluxes s []) []) (mk_by_loc zero zero))
             (mk_by_loc zero zero) in
  Ok (put_cluster h c (with_anchors s None None), c).

(** [Flux.__init__] with a number for the flux. *)
Definition Flux_init (h : Heap) (v : double)
  (source target : option cid) (relative : bool) (vanish : Loc)
  : result (Heap * fid) :=
  let f := next_flux h in
  let fw : attr double :=
    match source with
    | Some s => if relative then Some (mul v (height (cl h s))) else Some v
    | None =>
        match target with
        | Some t =>
            if relative then Some (mul v (height (cl h t))) else Some v
        | None => None
        end
    end in
  let o := mkFlux v relative source target fw vanish
             None None None None None None in
  let h := mkHeap (cl h) (upd (fl h) f o) (next_cluster h) (S f) in
  let h := match source with
           | Some s =>
               put_cluster h s
                 (with_out_fluxes (cl h s) (out_fluxes (cl h s) ++ [f]))
           | None => h
           end in
  let h := match target with
           | Some t =>
               put_cluster h t
                 (with_in_fluxes (cl h t) (in_fluxes (cl h t) ++ [f]))
           | None => h
           end in
  Ok (h, f).

(** The layout state. *)
Record AlluvialPlot : Type := mkPlot {
  clusters : list (list cid);
  cluster_w_spacing : double;
  _redistribute_vertically : nat;
  y_min : option double;
  y_max : option double;
  heap : Heap
}.

Definition with_heap (p : AlluvialPlot) (h : Heap) : AlluvialPlot :=
  mkPlot (clusters p) (cluster_w_spacing p) (_redistribute_vertically p)
    (y_min p) (y_max p) h.

Definition column (p : AlluvialPlot) (k : nat) : list cid :=
  nth k (clusters p) [].

(** The first loop of [_distribute_column]; [displace] starts at [0.0]. *)
Fixpoint stack_from (h : Heap) (col : list cid) (spacing displace : double)
  : result Heap :=
  match col with
  | [] => Ok h
  | c :: col' =>
      h <- set_y_pos h c (Some displace) ;;
      stack_from h col' spacing (add displace (add (height (cl h c)) spacing))
  end.

(** The second loop of [_distribute_column]. *)
Definition shift_by (cent_offset : double) (h : Heap) (c : cid)
  : result Heap :=
  y <- num (y_pos (cl h c)) ;;
  set_y_pos h c (Some (sub y cent_offset)).

(** [AlluvialPlot._distribute_column] on the heap. *)
Definition distribute_column_heap (h : Heap) (col : list cid)
  (spacing : double) : result Heap :=
  h <- stack_from h col spacing zero ;;
  c0 <- first_item col ;;
  low <- num (y_pos (cl h c0)) ;;
  cn <- last_item col ;;
  yn <- num (y_pos (cl h cn)) ;;
  let high := add yn (height (cl h cn)) in
  let cent_offset := add low (mul half (sub high low)) in
  for_each col (shift_by cent_offset) h.

Definition _distribute_column (p : AlluvialPlot) (k : nat) (spacing : double)
  : result AlluvialPlot :=
  h <- distribute_column_heap (heap p) (column p k) spacing ;;
  Ok (with_heap p h).

(** Subscripting [self.in_] or [self.out_]. *)
Definition anchors (a : option (by_loc point)) : result (by_loc point) :=
  match a with
  | Some d => Ok d
  | None => Raise TypeError
  end.

(** The body of the loop of [Cluster.set_loc_out_fluxes]. A comparison
    with a NaN is false, as in Python. *)
Definition loc_out_flux (c : cid) (h : Heap) (f : fid) : result Heap :=
  '(h, in_loc, out_loc) <-
    match target_cluster (fl h f) with
    | Some t =>
        ms <- num (mid_height (cl h c)) ;;
        mt <- num (mid_height (cl h t)) ;;
        if ltb mt ms then
          a <- anchors (in_ (cl h t)) ;;
          if leb (snd (at_top a)) ms
          then Ok (h, Some top, Some bottom)
          else Ok (h, Some top, Some top)
        else
          a <- anchors (in_ (cl h t)) ;;
          if leb ms (snd (at_bottom a))
          then Ok (h, Some bottom, Some top)
          else Ok (h, Some bottom, Some bottom)
    | None =>
        let o := fl h f in
        Ok (put_flux h f
              (with_locs o (in_loc o) (Some (Some (out_flux_vanish o)))),
            None, None)
    end ;;
  Ok (put_flux h f (with_locs (fl h f) (Some in_loc) (Some out_loc))).

(** [Cluster.set_loc_out_fluxes] *)
Definition set_loc_out_fluxes (h : Heap) (c : cid) : result Heap :=
  for_each (out_fluxes (cl h c)) (loc_out_flux c) h.

(** [Cluster.get_loc_out_flux] *)
Definition get_loc_out_flux (h : Heap) (c : cid) (fw : double)
  (o_loc i_loc : option Loc) : result (Heap * (point * point)) :=
  o <- anchors (out_ (cl h c)) ;;
  pt <- lookup_loc o o_loc ;;
  m <- lookup_loc (out_margin (cl h c)) o_loc ;;
  let anchor :=
    (fst pt, add (add (snd pt) m) (if is_loc bottom i_loc then fw else zero)) in
  let top_ :=
    (fst pt, add (add (snd pt) m) (if is_loc top i_loc then fw else zero)) in
  match o_loc with
  | Some l =>
      Ok (put_cluster h c
            (with_out_margin (cl h c)
               (set_loc (out_margin (cl h c)) l (add m fw))),
          (anchor, top_))
  | None => Raise KeyError
  end.

(** [Cluster.get_loc_in_flux] *)
Definition get_loc_in_flux (h : Heap) (c : cid) (fw : double)
  (o_loc i_loc : option Loc) : result (Heap * (point * point)) :=
  i <- anchors (in_ (cl h c)) ;;
  pt <- lookup_loc i i_loc ;;
  m <- lookup_loc (in_margin (cl h c)) i_loc ;;
  let anchor :=
    (fst pt, add (add (snd pt) m) (if is_loc bottom o_loc then fw else zero)) in
  let top_ :=
    (fst pt, add (add (snd pt) m) (if is_loc top o_loc then fw else zero)) in
  match i_loc with
  | Some l =>
      Ok (put_cluster h c
            (with_in_margin (cl h c)
               (set_loc (in_margin (cl h c)) l (add m fw))),
          (anchor, top_))
  | None => Raise KeyError
  end.

(** The body of the loop of [Cluster.set_anchor_out_fluxes]. *)
Definition anchor_out_flux (c : cid) (h : Heap) (f : fid) : result Heap :=
  o_loc <- get_attr (out_loc (fl h f)) ;;
  w <- get_attr (flux_width (fl h f)) ;;
  let out_width := if is_loc bottom o_loc then w else opp w in
  i_loc <- get_attr (in_loc (fl h f)) ;;
  '(h, (a, t)) <- get_loc_out_flux h c out_width o_loc i_loc ;;
  Ok (put_flux h f (with_out_anchor (fl h f) a t)).

(** [Cluster.set_anchor_out_fluxes] *)
Definition set_anchor_out_fluxes (h : Heap) (c : cid) : result Heap :=
  for_each (out_fluxes (cl h c)) (anchor_out_flux c) h.

(** The body of the loop of [Cluster.set_anchor_in_fluxes]. *)
Definition anchor_in_flux (c : cid) (h : Heap) (f : fid) : result Heap :=
  i_loc <- get_attr (in_loc (fl h f)) ;;
  w <- get_attr (flux_width (fl h f)) ;;
  let in_width := if is_loc bottom i_loc then w else opp w in
  o_loc <- get_attr (out_loc (fl h f)) ;;
  '(h, (a, t)) <- get_loc_in_flux h c in_width o_loc i_loc ;;
  Ok (put_flux h f (with_in_anchor (fl h f) a t)).

(** [Cluster.set_anchor_in_fluxes] *)
Definition set_anchor_in_fluxes (h : Heap) (c : cid) : result Heap :=
  for_each (in_fluxes (cl h c)) (anchor_in_flux c) h.

(** ** Notions used in the proofs about rounding *)

(** A finite double as an integer multiple of [2^-1074]; the exponent of
    a well-formed double is at least [-1074] and its mantissa has at most
    53 bits. *)
Definition B2Z (x : double) : Z :=
  match x with
  | S754_finite s m e => cond_Zopp s (Zpos m * 2 ^ (e + 1074))%Z
  | _ => 0%Z
  end.

Definition wf (x : double) : Prop :=
  match x with
  | S754_finite _ m e => (-1074 <= e /\ Zpos m < 2 ^ 53)%Z
  | _ => True
  end.

(** [r] is within the relative distance [2^-53] of [v]. *)
Definition near (r v : Z) : Prop := (Z.abs (r - v) * 2 ^ 53 <= Z.abs v)%Z.

(** The record [mrs] of a shifted mantissa with its round and sticky
    bits stands for the number [N / 2^K]. *)
Definition Rep (mrs : shr_record) (N K : Z) : Prop :=
  (0 <= K /\ 0 <= shr_m mrs /\
   exists rem, N = shr_m mrs * 2 ^ K + rem /\ 0 <= rem < 2 ^ K /\
     (shr_r mrs = true <-> 2 ^ K <= 2 * rem) /\
     (shr_s mrs = true <-> rem <> 0 /\ 2 * rem <> 2 ^ K))%Z.

End Double.

(** ** Predicates and samples for the double-precision statements *)

(** Everything but the vertical position and the anchors agrees. *)
Definition same_shape (a b : Double.Cluster) : Prop :=
  Double.height b = Double.height a /\ Double.width b = Double.width a /\
  Double.x_anchor b = Double.x_anchor a /\ Double.x_pos b = Double.x_pos a /\
  Double.out_fluxes b = Double.out_fluxes a /\
  Double.in_fluxes b = Double.in_fluxes a /\
  Double.in_margin b = Double.in_margin a /\
  Double.out_margin b = Double.out_margin a.

(** The clusters of [col] stand, in the heap [h], at the heights that the
    first loop of [_distribute_column] gives them from [d] on. *)
Fixpoint stacked_from (h : Double.Heap) (s d : Double.double)
  (col : list cid) : Prop :=
  match col with
  | [] => True
  | c :: col' =>
      Double.y_pos (Double.cl h c) = Some d /\
      stacked_from h s
        (Double.add d (Double.add (Double.height (Double.cl h c)) s)) col'
  end.

(** The doubles nearest to 0.1, 0.2 and 0.3, and the doubles 0.5, 1.0,
    2.0 and 3.0. *)
Definition d0_1 : Double.double := S754_finite false 7205759403792794 (-56).
Definition d0_2 : Double.double := S754_finite false 7205759403792794 (-55).
Definition d0_3 : Double.double := S754_finite false 5404319552844595 (-54).
Definition d0_5 : Double.double := Double.half.
Definition d1_0 : Double.double := S754_finite false 4503599627370496 (-52).
Definition d2_0 : Double.double := S754_finite false 4503599627370496 (-51).
Definition d3_0 : Double.double := S754_finite false 6755399441055744 (-51).

Definition blank_dcluster : Double.Cluster :=
  Double.mkCluster Double.zero Double.zero center None None None [] []
    (mk_by_loc Double.zero Double.zero) (mk_by_loc Double.zero Double.zero)
    None None.

Definition blank_dflux : Double.Flux :=
  Double.mkFlux Double.zero false None None None top
    None None None None None None.

Definition empty_dheap : Double.Heap :=
  Double.mkHeap (fun _ => blank_dcluster) (fun _ => blank_dflux) 0%nat 0%nat.

Definition dheap_of {A} (r : result (Double.Heap * A)) : Double.Heap :=
  match r with
  | Ok (h, _) => h
  | Raise _ => empty_dheap
  end.

(** Three clusters of the heights [h0], [h1] and [h2] at [x = 0.0], of
    width [1.0], in one column with the spacing [s]. *)
Definition column_of_three (h0 h1 h2 s : Double.double)
  : Double.AlluvialPlot :=
  let h := dheap_of (Double.Cluster_init empty_dheap h0
                       (Some Double.zero) None d1_0 center) in
  let h := dheap_of (Double.Cluster_init h h1
                       (Some Double.zero) None d1_0 center) in
  let h := dheap_of (Double.Cluster_init h h2
                       (Some Double.zero) None d1_0 center) in
  Double.mkPlot [[0; 1; 2]%nat] s 4%nat None None h.

(** Heights 0.1, 0.2 and 0.3 with the spacing 0.1. *)
Definition tenths_plot : Double.AlluvialPlot :=
  column_of_three d0_1 d0_2 d0_3 d0_1.

(** Heights 1.0, 2.0 and 3.0 with the spacing 0.5. *)
Definition units_plot : Double.AlluvialPlot :=
  column_of_three d1_0 d2_0 d3_0 d0_5.

(** One cluster of the height 0.3 in a column with the spacing 0.1. *)
Definition one_plot : Double.AlluvialPlot :=
  Double.mkPlot [[0%nat]] d0_1 4%nat None None
    (dheap_of (Double.Cluster_init empty_dheap d0_3
                 (Some Double.zero) None d1_0 center)).

(** ** Bands of fluxes along an edge, in double precision *)

(** The width of a flux as it is added to the margin of an edge. *)
Definition dsigned (l : Loc) (w : Double.double) : Double.double :=
  match l with
  | bottom => w
  | top => Double.opp w
  end.

Definition dout_ends (f : Double.Flux)
  : option (Double.double * Double.double) :=
  match Double.anchor_out f, Double.top_out f with
  | Some a, Some t => Some (snd a, snd t)
  | _, _ => None
  end.

Definition din_ends (f : Double.Flux)
  : option (Double.double * Double.double) :=
  match Double.anchor_in f, Double.top_in f with
  | Some a, Some t => Some (snd a, snd t)
  | _, _ => None
  end.

(** The same double, but for the sign of a zero. *)
Definition same_number (x y : Double.double) : Prop :=
  x = y \/ exists s s', x = S754_zero s /\ y = S754_zero s'.

(** The anchors [a] and [t] are the two ends [x] and [y] of a band, one
    way round or the other. *)
Definition dbetween (a t x y : Double.double) : Prop :=
  (same_number a x /\ t = y) \/ (a = y /\ same_number t x).

(** One band on the edge [l] whose anchor is at the height [e], for the
    margin [m] and the width [w]: the band starts at the rounded sum
    [e + m] and ends at the rounded sum of that and the signed width,
    the margin moves to the rounded sum of [m] and the signed width, and
    the next band starts at the rounded sum of [e] and the new margin.
    Where these sums are finite, each is the exact sum up to the
    relative error [2^-53], so that the next band starts where this one
    ends up to the four roundings. *)
Definition band_accurate (l : Loc) (e m w : Double.double) : Prop :=
  let s := Double.add e m in
  let t := Double.add s (dsigned l w) in
  let m' := Double.add m (dsigned l w) in
  let s' := Double.add e m' in
  Double.finite t = true -> Double.finite s' = true ->
  Qabs (Double.B2Q s - (Double.B2Q e + Double.B2Q m))
  <= Double.eps * Qabs (Double.B2Q e + Double.B2Q m) /\
  Qabs (Double.B2Q t - (Double.B2Q s + Double.B2Q (dsigned l w)))
  <= Double.eps * Qabs (Double.B2Q s + Double.B2Q (dsigned l w)) /\
  Qabs (Double.B2Q m' - (Double.B2Q m + Double.B2Q (dsigned l w)))
  <= Double.eps * Qabs (Double.B2Q m + Double.B2Q (dsigned l w)) /\
  Qabs (Double.B2Q s' - Double.B2Q t)
  <= Double.eps * (Qabs (Double.B2Q e + Double.B2Q m')
                   + Qabs (Double.B2Q m + Double.B2Q (dsigned l w))
                   + Qabs (Double.B2Q e + Double.B2Q m)
                   + Qabs (Double.B2Q s + Double.B2Q (dsigned l w))).

(** The fluxes [fs] occupy, in the order of the list, the bands that
    the running margin gives them along the edge [l] anchored at [e]. *)
Fixpoint dtiled (h : Double.Heap)
  (ends : Double.Flux -> option (Double.double * Double.double))
  (l : Loc) (e m : Double.double) (fs : list fid) : Prop :=
  match fs with
  | [] => True
  | f :: fs' =>
      exists w a t,
        Double.flux_width (Double.fl h f) = Some w /\
        ends (Double.fl h f) = Some (a, t) /\
        dbetween a t (Double.add e m)
          (Double.add (Double.add e m) (dsigned l w)) /\
        band_accurate l e m w /\
        dtiled h ends l e (Double.add m (dsigned l w)) fs'
  end.

(** The margin after the widths [ws] have been added to it. *)
Definition dmargin (l : Loc) (m : Double.double) (ws : list Double.double)
  : Double.double :=
  fold_left (fun m w => Double.add m (dsigned l w)) ws m.

Definition dloc_of (h : Double.Heap)
  (side : Double.Flux -> attr (option Loc)) (f : fid) : option Loc :=
  match side (Double.fl h f) with
  | Some o => o
  | None => None
  end.

Definition don_edge (h : Double.Heap)
  (side : Double.Flux -> attr (option Loc)) (l : Loc) (f : fid) : bool :=
  is_loc l (dloc_of h side f).

Definition dwidth (h : Double.Heap) (f : fid) : Double.double :=
  match Double.flux_width (Double.fl h f) with
  | Some w => w
  | None => Double.zero
  end.
(** The doubles nearest to 0.4 and 0.6, the next double after the latter
    (0.6000000000000001), and 4.0, -2.0, -4.0 and -6.0. *)
Definition d0_4 : Double.double := S754_finite false 7205759403792794 (-54).
Definition d0_6 : Double.double := S754_finite false 5404319552844595 (-53).
Definition d0_6_up : Double.double :=
  S754_finite false 5404319552844596 (-53).
Definition d4_0 : Double.double := S754_finite false 4503599627370496 (-50).
Definition dm2_0 : Double.double := S754_finite true 4503599627370496 (-51).
Definition dm4_0 : Double.double := S754_finite true 4503599627370496 (-50).
Definition dm6_0 : Double.double := S754_finite true 6755399441055744 (-50).

Definition dheap_or (r : result Double.Heap) : Double.Heap :=
  match r with
  | Ok h => h
  | Raise _ => empty_dheap
  end.

(** A cluster of the height [hgt] and the width 1.0 at [(x, y)]: it is
    constructed at [x] and then moved to [y] by [set_y_pos], as the
    layout does. *)
Definition placed (h : Double.Heap) (hgt x y : Double.double) : Double.Heap :=
  match Double.Cluster_init h hgt (Some x) None d1_0 center with
  | Ok (h, c) => dheap_or (Double.set_y_pos h c (Some y))
  | Raise _ => empty_dheap
  end.

(** A source (cluster 0, of height 2.0, at [y = 0.1]) with three targets
    below it (clusters 1, 2 and 3) and one above it (cluster 4). The flux
    0, to the target above, is relative with the magnitude 0.5; the
    fluxes 1, 2 and 3 have the magnitudes 0.2, 0.3 and 0.4. The exits
    are then decided by [set_loc_out_fluxes]. *)
Definition ports_heap : Double.Heap :=
  let h := placed empty_dheap d2_0 Double.zero d0_1 in
  let h := placed h d1_0 d2_0 dm6_0 in
  let h := placed h d1_0 d2_0 dm4_0 in
  let h := placed h d1_0 d2_0 dm2_0 in
  let h := placed h d1_0 d2_0 d4_0 in
  let h := dheap_of (Double.Flux_init h d0_5 (Some 0%nat) (Some 4%nat)
                       true top) in
  let h := dheap_of (Double.Flux_init h d0_2 (Some 0%nat) (Some 1%nat)
                       false top) in
  let h := dheap_of (Double.Flux_init h d0_3 (Some 0%nat) (Some 2%nat)
                       false top) in
  let h := dheap_of (Double.Flux_init h d0_4 (Some 0%nat) (Some 3%nat)
                       false top) in
  dheap_or (Double.set_loc_out_fluxes h 0%nat).

(** The sample diagram after the layout pass and the port allocation of
    its three clusters. *)
Definition sample_allocated : Heap :=
  heap_of (h <- allocate_ports (heap sample_layout) 0%nat ;;
           h <- allocate_ports h 1%nat ;; allocate_ports h 2%nat).

(** The two moves that the callers of [_swap_clusters] make when a swap
    is accepted, in double precision:
    [n2.set_y_pos(n1.y_pos)] and then
    [n1.set_y_pos(n2.y_pos + n2.height + self.cluster_w_spacing)]. *)
Definition dexchange_positions (h : Double.Heap) (spacing : Double.double)
  (n1 n2 : cid) : result Double.Heap :=
  h <- Double.set_y_pos h n2 (Double.y_pos (Double.cl h n1)) ;;
  y2 <- Double.num (Double.y_pos (Double.cl h n2)) ;;
  Double.set_y_pos h n1
    (Some (Double.add (Double.add y2 (Double.height (Double.cl h n2)))
             spacing)).

(** The column of the heights 1.0, 2.0 and 3.0 after
    [_distribute_column]. *)
Definition units_stacked : Double.Heap :=
  match Double._distribute_column units_plot 0 d0_5 with
  | Ok p => Double.heap p
  | Raise _ => empty_dheap
  end.

(** * Properties *)

Unset Implicit Arguments.

(** ** The error monad *)

Lemma bind_ok {A B} (m : result A) (k : A -> result B) (r : B) :
  bind m k = Ok r -> exists a, m = Ok a /\ k a = Ok r.
Proof.
  destruct m as [a|e]; simpl; intros H; [exists a; auto | discriminate].
Qed.

Ltac inv_ok :=
  repeat match goal with
  | H : Ok _ = Ok _ |- _ => inversion H; subst; clear H
  | H : Raise _ = Ok _ |- _ => discriminate H
  | H : bind ?m _ = Ok _ |- _ =>
      let a := fresh "a" in
      let E := fresh "E" in
      apply bind_ok in H; destruct H as (a & E & H)
  | H : num ?o = Ok _ |- _ =>
      destruct o eqn:?; simpl in H; [|discriminate H]
  | H : get_attr ?o = Ok _ |- _ =>
      destruct o eqn:?; simpl in H; [|discriminate H]
  end.

Lemma upd_same {A} (m : nat -> A) i v : upd m i v i = v.
Proof. unfold upd. now rewrite Nat.eqb_refl. Qed.

Lemma upd_other {A} (m : nat -> A) i j v : j <> i -> upd m i v j = m j.
Proof.
  unfold upd. intros H. destruct (Nat.eqb_spec j i); [contradiction|easy].
Qed.

(** ** Moves of single clusters *)

Lemma moved_only_refl a : moved_only a a.
Proof. unfold moved_only; intuition. Qed.

Lemma moved_only_trans a b c :
  moved_only a b -> moved_only b c -> moved_only a c.
Proof. unfold moved_only; intuition congruence. Qed.

Lemma repositions_refl col h : repositions col h h.
Proof. split; [easy|]. intros c; split; [apply moved_only_refl|easy]. Qed.

Lemma repositions_trans col h1 h2 h3 :
  repositions col h1 h2 -> repositions col h2 h3 -> repositions col h1 h3.
Proof.
  intros [F1 H1] [F2 H2]. split; [congruence|].
  intros c. destruct (H1 c) as [M1 N1], (H2 c) as [M2 N2]. split.
  - eapply moved_only_trans; eauto.
  - intros Hn. rewrite N2, N1; auto.
Qed.

Lemma repositions_incl col col' h h' :
  incl col col' -> repositions col h h' -> repositions col' h h'.
Proof.
  intros Hi [F H]. split; [easy|]. intros c. destruct (H c) as [M N].
  split; [easy|]. intros Hn. apply N. intros Hc. apply Hn, Hi, Hc.
Qed.

Lemma set_in_out_anchors_ok h c h' :
  set_in_out_anchors h c = Ok h' ->
  fl h' = fl h /\
  (forall c', c' <> c -> cl h' c' = cl h c') /\
  moved_only (cl h c) (cl h' c) /\
  y_pos (cl h' c) = y_pos (cl h c) /\
  mid_height (cl h' c) = mid_height (cl h c).
Proof.
  unfold set_in_out_anchors. intros H. inv_ok. simpl.
  rewrite upd_same. simpl. repeat split; auto.
  intros c' Hc. now apply upd_other.
Qed.

Lemma set_y_pos_ok h c y h' :
  set_y_pos h c (Some y) = Ok h' ->
  fl h' = fl h /\
  (forall c', c' <> c -> cl h' c' = cl h c') /\
  moved_only (cl h c) (cl h' c) /\
  y_pos (cl h' c) = Some y /\
  mid_height (cl h' c) = Some (y + (1#2) * height (cl h c)).
Proof.
  unfold set_y_pos. intros H.
  apply set_in_out_anchors_ok in H. simpl in H.
  destruct H as (F & O & M & Y & Mh). rewrite upd_same in *.
  unfold moved_only in *. simpl in *.
  repeat split; try tauto.
  intros c' Hc. rewrite (O c' Hc). now apply upd_other.
Qed.

Lemma set_mid_height_ok h c m h' :
  set_mid_height h c (Some m) = Ok h' ->
  fl h' = fl h /\
  (forall c', c' <> c -> cl h' c' = cl h c') /\
  moved_only (cl h c) (cl h' c).
Proof.
  unfold set_mid_height. intros H.
  apply set_in_out_anchors_ok in H. simpl in H.
  destruct H as (F & O & M & Y & Mh). rewrite upd_same in *.
  unfold moved_only in *. simpl in *.
  repeat split; try tauto.
  intros c' Hc. rewrite (O c' Hc). now apply upd_other.
Qed.

Lemma set_y_pos_total h c y :
  x_pos (cl h c) <> None -> exists h', set_y_pos h c (Some y) = Ok h'.
Proof.
  intros Hx. unfold set_y_pos, set_in_out_anchors. simpl.
  rewrite upd_same. simpl.
  destruct (x_pos (cl h c)); [|contradiction]. simpl. eauto.
Qed.

Lemma set_y_pos_repositions h c y h' col :
  In c col -> set_y_pos h c (Some y) = Ok h' -> repositions col h h'.
Proof.
  intros Hin H. apply set_y_pos_ok in H. destruct H as (F & O & M & _).
  split; [easy|]. intros c'. destruct (Nat.eq_dec c' c) as [->|Hne].
  - split; [easy|]. intros Hn; contradiction.
  - rewrite (O c' Hne). split; [apply moved_only_refl|easy].
Qed.

(** ** Stacking of a column *)

Lemma chain_start h s y y' col :
  y == y' -> chain h s y col -> chain h s y' col.
Proof.
  destruct col as [|c col]; simpl; [easy|].
  intros E (yc & Hy & Hq & Hc). exists yc. repeat split; auto.
  now rewrite Hq.
Qed.

Lemma chain_frame h h' s col :
  (forall c, In c col ->
     y_pos (cl h' c) = y_pos (cl h c) /\ height (cl h' c) = height (cl h c)) ->
  forall y, chain h s y col -> chain h' s y col.
Proof.
  induction col as [|c col IH]; simpl; intros F y; [easy|].
  intros (yc & Hy & Hq & Hc). exists yc.
  destruct (F c (or_introl eq_refl)) as [Fy Fh]. rewrite Fy, Fh.
  repeat split; auto.
Qed.

Lemma chain_shift h h' s d col :
  (forall c, In c col ->
     height (cl h' c) = height (cl h c) /\
     exists yc, y_pos (cl h c) = Some yc /\ y_pos (cl h' c) = Some (yc - d)) ->
  forall y, chain h s y col -> chain h' s (y - d) col.
Proof.
  induction col as [|c col IH]; simpl; intros F y; [easy|].
  intros (yc & Hy & Hq & Hc).
  destruct (F c (or_introl eq_refl)) as (Fh & yc' & Hy' & Hs).
  rewrite Hy in Hy'. injection Hy' as <-.
  exists (yc - d). rewrite Fh. repeat split; auto.
  - now rewrite Hq.
  - eapply chain_start; [|apply IH; eauto]. ring.
Qed.

Lemma chain_positioned h s y col :
  chain h s y col -> forall c, In c col -> exists yc, y_pos (cl h c) = Some yc.
Proof.
  revert y. induction col as [|c col IH]; simpl; intros y H c' Hin; [easy|].
  destruct H as (yc & Hy & _ & Hc). destruct Hin as [<-|Hin]; eauto.
Qed.

(** Above the start of a chain: every cluster begins at or after it. *)
Lemma chain_lower h s col :
  0 <= s -> (forall c, In c col -> 0 <= height (cl h c)) ->
  forall y, chain h s y col ->
  forall c, In c col -> exists yc, y_pos (cl h c) = Some yc /\ y <= yc.
Proof.
  intros Hs. induction col as [|c col IH]; simpl; intros Hh y H c' Hin;
    [easy|].
  destruct H as (yc & Hy & Hq & Hc). destruct Hin as [<-|Hin].
  - exists yc. split; auto. rewrite Hq. apply Qle_refl.
  - destruct (IH (fun c0 H0 => Hh c0 (or_intror H0)) _ Hc c' Hin)
      as (y' & Hy' & Hle).
    exists y'. split; auto.
    pose proof (Hh c (or_introl eq_refl)). lra.
Qed.

(** Below the end of a chain: every cluster ends at or before the top of
    the last one. *)
Lemma chain_upper h s col :
  0 <= s -> (forall c, In c col -> 0 <= height (cl h c)) ->
  forall y cn yn, chain h s y col -> last_item col = Ok cn ->
  y_pos (cl h cn) = Some yn ->
  forall c, In c col ->
  exists yc, y_pos (cl h c) = Some yc /\
             yc + height (cl h c) <= yn + height (cl h cn).
Proof.
  intros Hs. induction col as [|c col IH]; simpl; intros Hh y cn yn H L Hn c' Hin;
    [easy|].
  destruct H as (yc & Hy & Hq & Hc).
  destruct col as [|c2 col].
  - unfold last_item in L. simpl in L. injection L as <-.
    destruct Hin as [<-|[]]. exists yc. split; auto.
    rewrite Hy in Hn. injection Hn as <-. apply Qle_refl.
  - assert (L' : last_item (c2 :: col) = Ok cn).
    { unfold last_item in *. simpl in *.
      destruct (rev col ++ [c2]) eqn:E; [now destruct (rev col)|].
      simpl in L. exact L. }
    assert (Hh' : forall c0, In c0 (c2 :: col) -> 0 <= height (cl h c0))
      by (intros; apply Hh; now right).
    destruct Hin as [<-|Hin].
    + destruct (IH Hh' _ cn yn Hc L' Hn c2 (or_introl eq_refl))
        as (y2 & Hy2 & Hle).
      destruct (chain_lower h s _ Hs Hh' _ Hc c2 (or_introl eq_refl))
        as (y2' & Hy2' & Hge).
      rewrite Hy2 in Hy2'. injection Hy2' as <-.
      exists yc. split; auto.
      pose proof (Hh' c2 (or_introl eq_refl)). lra.
    + eapply IH; eauto.
Qed.

Lemma stack_from_ok col : forall h s d h',
  NoDup col -> stack_from h col s d = Ok h' ->
  repositions col h h' /\ chain h' s d col.
Proof.
  induction col as [|c col IH]; simpl; intros h s d h' Hnd H.
  - inv_ok. split; [apply repositions_refl|easy].
  - inv_ok. inversion Hnd as [|? ? Hnin Hnd']; subst.
    destruct (IH _ _ _ _ Hnd' H) as [R C].
    pose proof (set_y_pos_ok _ _ _ _ E) as (F & O & M & Y & _).
    assert (Hc : cl h' c = cl a c) by (apply R; exact Hnin).
    split.
    + eapply repositions_trans.
      * eapply set_y_pos_repositions; [|exact E]. now left.
      * eapply repositions_incl; [|exact R]. intros x Hx; now right.
    + exists d. rewrite Hc. repeat split; auto; try reflexivity.
      eapply chain_start; [|exact C]. ring.
Qed.

Lemma stack_from_total col : forall h s d,
  (forall c, In c col -> x_pos (cl h c) <> None) ->
  exists h', stack_from h col s d = Ok h'.
Proof.
  induction col as [|c col IH]; cbn [stack_from]; intros h s d Hx; [eauto|].
  destruct (set_y_pos_total h c d (Hx c (or_introl eq_refl))) as [h1 E].
  rewrite E. cbn [bind]. apply IH. intros c' Hin.
  pose proof (set_y_pos_repositions h c d h1 [c] (or_introl eq_refl) E)
    as [_ R].
  destruct (R c') as [M _]. destruct M as (_ & _ & _ & Mx & _).
  rewrite Mx. apply Hx. now right.
Qed.

Lemma shift_ok d col : forall h h',
  NoDup col -> for_each col (shift_by d) h = Ok h' ->
  repositions col h h' /\
  forall c, In c col ->
    exists yc, y_pos (cl h c) = Some yc /\ y_pos (cl h' c) = Some (yc - d).
Proof.
  induction col as [|c col IH]; simpl; intros h h' Hnd H.
  - inv_ok. split; [apply repositions_refl|easy].
  - inv_ok. unfold shift_by in E. inv_ok.
    inversion Hnd as [|? ? Hnin Hnd']; subst.
    destruct (IH _ _ Hnd' H) as [R P].
    pose proof (set_y_pos_ok _ _ _ _ E) as (F & O & M & Y & _).
    assert (Hc : cl h' c = cl a c) by (apply R; exact Hnin).
    split.
    + eapply repositions_trans.
      * eapply set_y_pos_repositions; [|exact E]. now left.
      * eapply repositions_incl; [|exact R]. intros x Hx; now right.
    + intros c' [<-|Hin].
      * exists a0. rewrite Hc. auto.
      * destruct (P c' Hin) as (yc & Hy & Hy').
        exists yc. split; auto. rewrite <- Hy. symmetry.
        rewrite O; auto. intros ->. contradiction.
Qed.

Lemma shift_total d col : forall h,
  (forall c, In c col ->
     x_pos (cl h c) <> None /\ y_pos (cl h c) <> None) ->
  exists h', for_each col (shift_by d) h = Ok h'.
Proof.
  induction col as [|c col IH]; cbn [for_each]; intros h Hx; [eauto|].
  destruct (Hx c (or_introl eq_refl)) as [X Y].
  unfold shift_by at 1. destruct (y_pos (cl h c)) as [y|] eqn:Ey;
    [|contradiction]. cbn [num bind].
  destruct (set_y_pos_total h c (y - d) X) as [h1 E].
  rewrite E. cbn [bind]. apply IH. intros c' Hin.
  pose proof (set_y_pos_ok _ _ _ _ E) as (F & O & M & Y1 & _).
  destruct (Nat.eq_dec c' c) as [->|Hne].
  - destruct M as (_ & _ & _ & Mx & _). rewrite Mx, Y1. split; auto.
    discriminate.
  - rewrite O; auto. apply Hx. now right.
Qed.

Lemma last_item_in {A} (l : list A) (x : A) : last_item l = Ok x -> In x l.
Proof.
  unfold last_item. destruct (rev l) eqn:E; [discriminate|].
  intros H. injection H as <-. apply in_rev. rewrite E. now left.
Qed.

Lemma last_item_total {A} (l : list A) :
  l <> [] -> exists x, last_item l = Ok x.
Proof.
  unfold last_item. intros H. destruct (rev l) eqn:E; eauto.
  apply (f_equal (@rev A)) in E. rewrite rev_involutive in E. contradiction.
Qed.

Lemma distribute_column_heap_ok h col s h' :
  NoDup col -> distribute_column_heap h col s = Ok h' ->
  repositions col h h' /\ stacked h' s col.
Proof.
  unfold distribute_column_heap. intros Hnd H.
  destruct (stack_from h col s 0) as [h1|] eqn:E1; [|discriminate].
  cbn [bind] in H. inv_ok.
  destruct (stack_from_ok _ _ _ _ _ Hnd E1) as [R1 C1].
  destruct (shift_ok _ _ _ _ Hnd H) as [R2 P2].
  split; [eapply repositions_trans; eauto|].
  eexists. refine (chain_shift h1 h' s _ col _ 0 C1).
  intros c Hin. split; [apply R2|apply P2; exact Hin].
Qed.

(** The stacking succeeds on a non-empty column of clusters that have a
    horizontal position, and centres the span of the column on zero. *)
Lemma distribute_column_heap_centered h col s :
  col <> [] -> NoDup col ->
  (forall c, In c col -> x_pos (cl h c) <> None) ->
  exists h' c0 cn low ylast,
    distribute_column_heap h col s = Ok h' /\
    first_item col = Ok c0 /\ last_item col = Ok cn /\
    y_pos (cl h' c0) = Some low /\ y_pos (cl h' cn) = Some ylast /\
    low + (ylast + height (cl h' cn)) == 0 /\
    low == - ((1#2) * (ylast + height (cl h' cn) - low)) /\
    stacked h' s col /\ chain h' s low col /\ repositions col h h'.
Proof.
  intros Hne Hnd Hx. unfold distribute_column_heap.
  destruct (stack_from_total col h s 0 Hx) as [h1 E1]. rewrite E1.
  cbn [bind].
  destruct (stack_from_ok _ _ _ _ _ Hnd E1) as [R1 C1].
  destruct col as [|c0 col]; [contradiction|]. cbn [first_item bind].
  pose proof C1 as C1'. cbn [chain] in C1'.
  destruct C1' as (y0 & Hy0 & Hq0 & Ctail). rewrite Hy0. cbn [num bind].
  destruct (last_item_total (c0 :: col) Hne) as [cn Ln]. rewrite Ln.
  cbn [bind].
  destruct (chain_positioned _ _ _ _ C1 cn (last_item_in _ _ Ln)) as [yn Hyn].
  rewrite Hyn. cbn [num bind].
  set (cent := y0 + (1 # 2) * (yn + height (cl h1 cn) - y0)).
  destruct (shift_total cent (c0 :: col) h1) as [h2 E2].
  { intros c Hin. split.
    - destruct R1 as [_ R1]. destruct (R1 c) as [M _].
      destruct M as (_ & _ & _ & Mx & _). rewrite Mx. now apply Hx.
    - destruct (chain_positioned _ _ _ _ C1 c Hin) as [y Hy].
      rewrite Hy. discriminate. }
  destruct (shift_ok _ _ _ _ Hnd E2) as [R2 P2].
  destruct (P2 c0 (or_introl eq_refl)) as (y0' & Hy0' & Hs0).
  rewrite Hy0 in Hy0'. injection Hy0' as <-.
  destruct (P2 cn (last_item_in _ _ Ln)) as (yn' & Hyn' & Hsn).
  rewrite Hyn in Hyn'. injection Hyn' as <-.
  assert (Hh : height (cl h2 cn) = height (cl h1 cn)).
  { destruct R2 as [_ R2]. destruct (R2 cn) as [M _]. apply M. }
  assert (C2 : chain h2 s (y0 - cent) (c0 :: col)).
  { apply chain_shift with (h := h1).
    - intros c Hin. split; [|auto]. destruct R2 as [_ R2].
      destruct (R2 c) as [M _]. apply M.
    - eapply chain_start; [|exact C1]. symmetry. exact Hq0. }
  exists h2, c0, cn, (y0 - cent), (yn - cent).
  rewrite Hh.
  split; [exact E2|]. split; [reflexivity|]. split; [reflexivity|].
  split; [exact Hs0|]. split; [exact Hsn|].
  split; [unfold cent; ring|]. split; [unfold cent; ring|].
  split; [exists (y0 - cent); exact C2|]. split; [exact C2|].
  apply (repositions_trans _ _ _ _ R1 R2).
Qed.

(** ** Centering of a column *)

(** The centring in exact arithmetic (the statement for the doubles
    that the code computes is [distribute_column_centered_double]). For
    every non-empty column (of distinct clusters that have a
    horizontal position) [_distribute_column] succeeds and leaves the span
    of the column symmetric about zero: the midpoint of the bottom of the
    first cluster and the top of the last one is 0. For non-negative
    heights and spacing the first cluster is the lowest and the last one
    the highest, so that every cluster lies within that span. A column of
    exactly one cluster of height [h] puts it at [y_pos = -h/2], whatever
    the spacing. *)
Theorem distribute_column_centered (p : AlluvialPlot) (k : nat) (s : Q) :
  column p k <> [] -> NoDup (column p k) ->
  (forall c, In c (column p k) -> x_pos (cl (heap p) c) <> None) ->
  exists p' c0 cn low ylast,
    _distribute_column p k s = Ok p' /\
    clusters p' = clusters p /\
    first_item (column p k) = Ok c0 /\ last_item (column p k) = Ok cn /\
    y_pos (cl (heap p') c0) = Some low /\
    y_pos (cl (heap p') cn) = Some ylast /\
    (low + (ylast + height (cl (heap p') cn))) / 2 == 0 /\
    (0 <= s ->
     (forall c, In c (column p k) -> 0 <= height (cl (heap p) c)) ->
     forall c, In c (column p k) ->
     exists y, y_pos (cl (heap p') c) = Some y /\ low <= y /\
               y + height (cl (heap p') c)
               <= ylast + height (cl (heap p') cn)) /\
    (forall c, column p k = [c] ->
       c0 = c /\ low == - ((1#2) * height (cl (heap p) c))).
Proof.
  intros Hne Hnd Hx.
  destruct (distribute_column_heap_centered (heap p) (column p k) s
              Hne Hnd Hx)
    as (h' & c0 & cn & low & ylast & E & F & L & Y0 & Yn & Hsym & _ & _ & C
        & R).
  exists (with_heap p h'), c0, cn, low, ylast.
  unfold _distribute_column. rewrite E. cbn [bind with_heap heap clusters].
  repeat (split; [first [reflexivity | assumption]|]).
  assert (Hh : forall c, height (cl h' c) = height (cl (heap p) c)).
  { intros c. destruct R as [_ R]. destruct (R c) as [M _]. apply M. }
  split; [|split].
  - rewrite Hsym. reflexivity.
  - intros Hs Hpos c Hin.
    assert (Hpos' : forall c, In c (column p k) -> 0 <= height (cl h' c)).
    { intros c1 H1. rewrite Hh. now apply Hpos. }
    destruct (chain_lower h' s _ Hs Hpos' _ C c Hin) as (y & Hy & Hlo).
    destruct (chain_upper h' s _ Hs Hpos' _ cn ylast C L Yn c Hin)
      as (y' & Hy' & Hup).
    rewrite Hy in Hy'. injection Hy' as <-.
    exists y. auto.
  - intros c Hc. rewrite Hc in F, L.
    unfold last_item in L. simpl in F, L.
    injection F as <-. injection L as <-.
    split; [reflexivity|].
    rewrite Y0 in Yn. injection Yn as <-.
    rewrite Hh in Hsym. lra.
Qed.

Lemma distribute_column_centered_witness :
  exists p' c0 cn low ylast,
    _distribute_column sample_plot 1 1 = Ok p' /\
    clusters p' = clusters sample_plot /\
    first_item (column sample_plot 1) = Ok c0 /\
    last_item (column sample_plot 1) = Ok cn /\
    y_pos (cl (heap p') c0) = Some low /\
    y_pos (cl (heap p') cn) = Some ylast /\
    (low + (ylast + height (cl (heap p') cn))) / 2 == 0 /\
    (0 <= 1 ->
     (forall c, In c (column sample_plot 1) ->
                0 <= height (cl (heap sample_plot) c)) ->
     forall c, In c (column sample_plot 1) ->
     exists y, y_pos (cl (heap p') c) = Some y /\ low <= y /\
               y + height (cl (heap p') c)
               <= ylast + height (cl (heap p') cn)) /\
    (forall c, column sample_plot 1 = [c] ->
       c0 = c /\ low == - ((1#2) * height (cl (heap sample_plot) c))).
Proof.
  apply (distribute_column_centered sample_plot 1 1).
  - discriminate.
  - repeat constructor; simpl; intuition discriminate.
  - intros c [<-|[<-|[]]]; vm_compute; discriminate.
Defined.

(** ** Port allocation: the routing decision *)

Lemma Qltb_lt a b : Qltb a b = true <-> a < b.
Proof.
  unfold Qltb. rewrite Qlt_alt. destruct (a ?= b); split; congruence.
Qed.

Lemma Qltb_ge a b : Qltb a b = false <-> b <= a.
Proof.
  pose proof (Qltb_lt a b) as H. split.
  - intros E. apply Qnot_lt_le. intros L. apply H in L. congruence.
  - intros L. destruct (Qltb a b); [|reflexivity].
    exfalso. apply (Qle_not_lt _ _ L). now apply H.
Qed.

Lemma Qle_bool_gt a b : Qle_bool a b = false <-> b < a.
Proof.
  pose proof (Qle_bool_iff a b) as H. split.
  - intros E. apply Qnot_le_lt. intros L. apply H in L. congruence.
  - intros L. destruct (Qle_bool a b); [|reflexivity].
    exfalso. apply (Qlt_not_le _ _ L). now apply H.
Qed.

Lemma decision_table_follows s_mid t_mid t_in_top t_in_bottom :
  follows_table s_mid t_mid t_in_top t_in_bottom
    (fst (decision_table s_mid t_mid t_in_top t_in_bottom))
    (snd (decision_table s_mid t_mid t_in_top t_in_bottom)).
Proof.
  unfold follows_table, decision_table.
  destruct (Qltb t_mid s_mid) eqn:E1;
    [apply Qltb_lt in E1 | apply Qltb_ge in E1];
    [destruct (Qle_bool t_in_top s_mid) eqn:E2;
       [apply Qle_bool_iff in E2 | apply Qle_bool_gt in E2]
    |destruct (Qle_bool s_mid t_in_bottom) eqn:E2;
       [apply Qle_bool_iff in E2 | apply Qle_bool_gt in E2]];
    cbn; repeat split; intros; try reflexivity; exfalso; lra.
Qed.

Lemma rerouted_only_refl a : rerouted_only a a.
Proof. unfold rerouted_only; intuition. Qed.

Lemma rerouted_only_trans a b c :
  rerouted_only a b -> rerouted_only b c -> rerouted_only a c.
Proof. unfold rerouted_only; intuition congruence. Qed.

(** One turn of the loop of [set_loc_out_fluxes]. *)
Lemma loc_out_flux_ok c h f h1 :
  loc_out_flux c h f = Ok h1 ->
  cl h1 = cl h /\
  (forall f', f' <> f -> fl h1 f' = fl h f') /\
  rerouted_only (fl h f) (fl h1 f) /\
  (forall t ms mt a,
     target_cluster (fl h f) = Some t ->
     mid_height (cl h c) = Some ms -> mid_height (cl h t) = Some mt ->
     in_ (cl h t) = Some a ->
     (Some (Some (fst (decision_table ms mt (snd (at_top a))
                                      (snd (at_bottom a)))))
      = out_loc (fl h1 f)) /\
     (Some (Some (snd (decision_table ms mt (snd (at_top a))
                                      (snd (at_bottom a)))))
      = in_loc (fl h1 f))) /\
  (target_cluster (fl h f) = None ->
   out_loc (fl h1 f) = Some None /\ in_loc (fl h1 f) = Some None).
Proof.
  unfold loc_out_flux. intros H.
  assert (Fr : cl h1 = cl h /\
               (forall f', f' <> f -> fl h1 f' = fl h f') /\
               rerouted_only (fl h f) (fl h1 f)).
  { destruct (target_cluster (fl h f)) as [t|].
    - destruct (mid_height (cl h c)) as [ms|]; [|discriminate].
      destruct (mid_height (cl h t)) as [mt|]; [|discriminate].
      destruct (in_ (cl h t)) as [a|];
        [|cbn in H; destruct (Qltb mt ms); discriminate].
      cbn [num bind anchors] in H.
      destruct (Qltb mt ms);
        [destruct (Qle_bool (snd (at_top a)) ms)
        |destruct (Qle_bool ms (snd (at_bottom a)))];
        cbn [bind] in H; injection H as <-; cbn [cl fl put_flux];
        rewrite upd_same; unfold rerouted_only; cbn;
        (split; [reflexivity|]);
        (split; [intros f' Hf; now apply upd_other|]);
        repeat split; reflexivity.
    - cbn [bind] in H. injection H as <-. cbn [cl fl put_flux].
      rewrite !upd_same. unfold rerouted_only. cbn.
      split; [reflexivity|].
      split; [intros f' Hf; rewrite !upd_other; auto|].
      repeat split; reflexivity. }
  destruct Fr as (F1 & F2 & F3).
  split; [exact F1|]. split; [exact F2|]. split; [exact F3|]. split.
  - intros t ms mt a Et Hs Hm Ha. rewrite Et, Hs, Hm, Ha in H.
    cbn [num bind anchors] in H. unfold decision_table.
    destruct (Qltb mt ms);
      [destruct (Qle_bool (snd (at_top a)) ms)
      |destruct (Qle_bool ms (snd (at_bottom a)))];
      cbn [bind] in H; injection H as <-; cbn [cl fl put_flux];
      rewrite upd_same; cbn; split; reflexivity.
  - intros Et. rewrite Et in H. cbn [bind] in H. injection H as <-.
    cbn [cl fl put_flux]. rewrite !upd_same. cbn. split; reflexivity.
Qed.

Lemma loc_out_flux_total c h f :
  mid_height (cl h c) <> None ->
  (forall t, target_cluster (fl h f) = Some t ->
             mid_height (cl h t) <> None /\ in_ (cl h t) <> None) ->
  exists h1, loc_out_flux c h f = Ok h1.
Proof.
  unfold loc_out_flux. intros Hs Ht.
  destruct (target_cluster (fl h f)) as [t|]; [|cbn; eauto].
  destruct (Ht t eq_refl) as [Hm Ha].
  destruct (mid_height (cl h c)) as [ms|]; [|contradiction].
  destruct (mid_height (cl h t)) as [mt|]; [|contradiction].
  destruct (in_ (cl h t)) as [a|]; [|contradiction].
  cbn [num bind anchors].
  destruct (Qltb mt ms);
    [destruct (Qle_bool (snd (at_top a)) ms)
    |destruct (Qle_bool ms (snd (at_bottom a)))]; cbn; eauto.
Qed.

(** The whole loop: clusters are untouched, fluxes outside the list are
    untouched, and a flux of the list ends with the decision computed on
    the initial heap. *)
Lemma set_loc_loop_ok c fs : forall h h',
  for_each fs (loc_out_flux c) h = Ok h' ->
  cl h' = cl h /\
  (forall f, rerouted_only (fl h f) (fl h' f)) /\
  (forall f, ~ In f fs -> fl h' f = fl h f) /\
  (forall f, In f fs ->
     (forall t ms mt a,
        target_cluster (fl h f) = Some t ->
        mid_height (cl h c) = Some ms -> mid_height (cl h t) = Some mt ->
        in_ (cl h t) = Some a ->
        (Some (Some (fst (decision_table ms mt (snd (at_top a))
                                         (snd (at_bottom a)))))
         = out_loc (fl h' f)) /\
        (Some (Some (snd (decision_table ms mt (snd (at_top a))
                                         (snd (at_bottom a)))))
         = in_loc (fl h' f))) /\
     (target_cluster (fl h f) = None ->
      out_loc (fl h' f) = Some None /\ in_loc (fl h' f) = Some None)).
Proof.
  induction fs as [|f0 fs IH]; cbn [for_each]; intros h h' H.
  - injection H as <-. split; [reflexivity|].
    split; [intros; apply rerouted_only_refl|]. split; easy.
  - apply bind_ok in H. destruct H as (h1 & E & H).
    destruct (loc_out_flux_ok _ _ _ _ E) as (C1 & O1 & M1 & T1 & N1).
    destruct (IH _ _ H) as (C2 & M2 & O2 & T2).
    assert (M1' : forall f, rerouted_only (fl h f) (fl h1 f)).
    { intros f. destruct (Nat.eq_dec f f0) as [->|Hne]; [easy|].
      rewrite O1; auto. apply rerouted_only_refl. }
    split; [congruence|]. split; [|split].
    + intros f. eapply rerouted_only_trans; [apply M1'|apply M2].
    + intros f Hn. rewrite O2, O1; auto.
      * intros ->. apply Hn. now left.
      * intros Hin. apply Hn. now right.
    + intros f Hin.
      assert (Tg : target_cluster (fl h1 f) = target_cluster (fl h f))
        by apply M1'.
      destruct (in_dec Nat.eq_dec f fs) as [Hf|Hf].
      * destruct (T2 f Hf) as [Ta Tb]. rewrite Tg, C1 in *. split; auto.
      * destruct Hin as [->|Hin]; [|contradiction].
        rewrite (O2 f Hf). split; auto.
Qed.

Lemma set_loc_out_fluxes_table (h : Heap) (c : cid) (ms : Q) :
  mid_height (cl h c) = Some ms ->
  (forall f t, In f (out_fluxes (cl h c)) ->
               target_cluster (fl h f) = Some t ->
               mid_height (cl h t) <> None /\ in_ (cl h t) <> None) ->
  exists h',
    set_loc_out_fluxes h c = Ok h' /\
    forall f t mt a,
      In f (out_fluxes (cl h c)) ->
      target_cluster (fl h f) = Some t ->
      mid_height (cl h t) = Some mt -> in_ (cl h t) = Some a ->
      out_loc (fl h' f)
      = Some (Some (fst (decision_table ms mt (snd (at_top a))
                                        (snd (at_bottom a))))) /\
      in_loc (fl h' f)
      = Some (Some (snd (decision_table ms mt (snd (at_top a))
                                        (snd (at_bottom a))))).
Proof.
  intros Hs Ht. unfold set_loc_out_fluxes.
  assert (Htot : forall fs h0,
             cl h0 = cl h ->
             (forall f, rerouted_only (fl h f) (fl h0 f)) ->
             (forall f, In f fs -> In f (out_fluxes (cl h c))) ->
             exists h', for_each fs (loc_out_flux c) h0 = Ok h').
  { induction fs as [|f0 fs IH]; cbn [for_each]; intros h0 C0 M0 Hin;
      [eauto|].
    destruct (loc_out_flux_total c h0 f0) as [h1 E].
    - rewrite C0, Hs. discriminate.
    - intros t Et. rewrite C0.
      apply (Ht f0 t); [apply Hin; now left|].
      rewrite <- Et. symmetry. apply M0.
    - rewrite E. cbn [bind].
      destruct (loc_out_flux_ok _ _ _ _ E) as (C1 & O1 & M1 & _).
      apply IH.
      + congruence.
      + intros f. eapply rerouted_only_trans; [apply M0|].
        destruct (Nat.eq_dec f f0) as [->|Hne]; [easy|].
        rewrite O1; auto. apply rerouted_only_refl.
      + intros f Hf. apply Hin. now right. }
  destruct (Htot (out_fluxes (cl h c)) h eq_refl
              (fun f => rerouted_only_refl _) (fun f H => H)) as [h' E].
  exists h'. split; [exact E|].
  intros f t mt a Hin Et Hm Ha.
  destruct (set_loc_loop_ok _ _ _ _ E) as (_ & _ & _ & T).
  destruct (T f Hin) as [Ta _].
  destruct (Ta t ms mt a Et Hs Hm Ha) as [<- <-]. auto.
Qed.

(** C1. For a cluster [c] whose mid-height is set and whose outgoing
    fluxes all lead to positioned clusters (or to none),
    [set_loc_out_fluxes] succeeds, and every outgoing flux that has a
    target gets its exit and entry edges from the decision table applied
    to the mid-heights of source and target and to the heights of the
    top and bottom in-anchors of the target. *)
Theorem set_loc_out_fluxes_decision (h : Heap) (c : cid) (ms : Q) :
  mid_height (cl h c) = Some ms ->
  (forall f t, In f (out_fluxes (cl h c)) ->
               target_cluster (fl h f) = Some t ->
               mid_height (cl h t) <> None /\ in_ (cl h t) <> None) ->
  exists h',
    set_loc_out_fluxes h c = Ok h' /\
    forall f t mt a,
      In f (out_fluxes (cl h c)) ->
      target_cluster (fl h f) = Some t ->
      mid_height (cl h t) = Some mt -> in_ (cl h t) = Some a ->
      exists exit enter,
        out_loc (fl h' f) = Some (Some exit) /\
        in_loc (fl h' f) = Some (Some enter) /\
        (exit, enter)
        = decision_table ms mt (snd (at_top a)) (snd (at_bottom a)) /\
        follows_table ms mt (snd (at_top a)) (snd (at_bottom a)) exit enter.
Proof.
  intros Hs Ht.
  destruct (set_loc_out_fluxes_table h c ms Hs Ht) as (h' & E & T).
  exists h'. split; [exact E|]. intros f t mt a Hin Et Hm Ha.
  destruct (T f t mt a Hin Et Hm Ha) as [To Ti].
  eexists _, _. split; [exact To|]. split; [exact Ti|].
  split; [now destruct (decision_table _ _ _ _)|].
  apply decision_table_follows.
Qed.

Lemma set_loc_out_fluxes_decision_witness :
  exists ms,
    mid_height (cl (heap sample_layout) 0%nat) = Some ms /\
    exists h',
      set_loc_out_fluxes (heap sample_layout) 0%nat = Ok h' /\
      forall f t mt a,
        In f (out_fluxes (cl (heap sample_layout) 0%nat)) ->
        target_cluster (fl (heap sample_layout) f) = Some t ->
        mid_height (cl (heap sample_layout) t) = Some mt ->
        in_ (cl (heap sample_layout) t) = Some a ->
        exists exit enter,
          out_loc (fl h' f) = Some (Some exit) /\
          in_loc (fl h' f) = Some (Some enter) /\
          (exit, enter)
          = decision_table ms mt (snd (at_top a)) (snd (at_bottom a)) /\
          follows_table ms mt (snd (at_top a)) (snd (at_bottom a))
            exit enter.
Proof.
  eexists. split; [vm_compute; reflexivity|].
  apply set_loc_out_fluxes_decision.
  - vm_compute. reflexivity.
  - intros f t Hin Et. vm_compute in Hin.
    destruct Hin as [<-|[<-|[<-|[]]]]; vm_compute in Et;
      try discriminate Et; injection Et as <-;
      split; vm_compute; discriminate.
Defined.

(** ** Fluxes without a target, and without any end *)

Lemma set_loc_out_fluxes_vanishing h c h' f :
  set_loc_out_fluxes h c = Ok h' ->
  In f (out_fluxes (cl h c)) -> target_cluster (fl h f) = None ->
  out_loc (fl h' f) = Some None /\ in_loc (fl h' f) = Some None.
Proof.
  unfold set_loc_out_fluxes. intros E Hin Et.
  destruct (set_loc_loop_ok _ _ _ _ E) as (_ & _ & _ & T).
  now apply T.
Qed.

(** C7, on the sample diagram: flux 2 leaves cluster 0 and has no
    target; its default exit edge [out_flux_vanish] is ['top'], yet after
    [set_loc_out_fluxes] its exit edge [out_loc] is [None]: the value
    assigned in the branch without target is overwritten by the
    assignment that ends the loop body. *)
Theorem vanishing_flux_exit_is_none :
  In 2%nat (out_fluxes (cl (heap sample_layout) 0%nat)) /\
  source_cluster (fl (heap sample_layout) 2%nat) = Some 0%nat /\
  target_cluster (fl (heap sample_layout) 2%nat) = None /\
  out_flux_vanish (fl (heap sample_layout) 2%nat) = top /\
  exists h',
    set_loc_out_fluxes (heap sample_layout) 0%nat = Ok h' /\
    out_loc (fl h' 2%nat) = Some None /\
    out_loc (fl h' 2%nat) <> Some (Some (out_flux_vanish (fl h' 2%nat))).
Proof.
  split; [vm_compute; tauto|].
  repeat (split; [vm_compute; reflexivity|]).
  destruct (set_loc_out_fluxes (heap sample_layout) 0%nat) as [h'|e] eqn:E;
    [|vm_compute in E; discriminate E].
  exists h'. split; [reflexivity|].
  destruct (set_loc_out_fluxes_vanishing _ _ _ 2%nat E) as [Ho _].
  - vm_compute; tauto.
  - vm_compute; reflexivity.
  - rewrite Ho. split; [reflexivity|discriminate].
Qed.

Lemma get_patch_neither h f :
  get_patch h f = Raise FluxWithNeither <->
  out_loc (fl h f) = Some None /\ in_loc (fl h f) = Some None.
Proof.
  unfold get_patch, patch_dist, deref, anchors, get_attr, num.
  destruct (out_loc (fl h f)) as [[o|]|];
    destruct (in_loc (fl h f)) as [[i|]|]; cbn [bind];
    repeat match goal with
      | |- context [match ?x with _ => _ end] => destruct x; cbn [bind]
      end;
    split; intros H; try discriminate H; try (destruct H; discriminate);
    auto.
Qed.

(** C8, as stated, fails: the constructor accepts a flux of magnitude 10
    that has neither source nor target. *)
Lemma flux_without_ends_not_rejected :
  ~ exists e,
      Flux_init empty_heap (Number 10) None None false top = Raise e.
Proof. intros [e H]. discriminate H. Qed.

(** C8, amended. Constructing a flux with neither a source nor a target
    succeeds, whatever the other arguments: the flux is allocated and no
    cluster refers to it. The error 'Flux with neither source nor target
    cluster' is raised by [get_patch], for a flux whose [in_loc] and
    [out_loc] are both [None]. *)
Theorem flux_without_ends_accepted (h : Heap) (fx : magnitude)
  (relative : bool) (vanish : Loc) :
  exists h' f,
    Flux_init h fx None None relative vanish = Ok (h', f) /\
    f = next_flux h /\
    source_cluster (fl h' f) = None /\ target_cluster (fl h' f) = None /\
    cl h' = cl h /\
    forall h2,
      out_loc (fl h2 f) = Some None /\ in_loc (fl h2 f) = Some None ->
      get_patch h2 f = Raise FluxWithNeither.
Proof.
  eexists _, _. split; [reflexivity|]. cbn. rewrite upd_same. cbn.
  repeat split. intros h2 H. now apply get_patch_neither.
Qed.

(** C10. [Flux.__init__] with [source_cluster=None] and
    [target_cluster=None] returns normally, it leaves the attribute
    [flux_width] unassigned (as it does [in_loc] and [out_loc]), and the
    exception 'Flux with neither source nor target cluster' is raised by
    [get_patch] exactly for a flux whose [out_loc] and [in_loc] are both
    [None]. *)
Theorem flux_init_without_ends (h : Heap) (fx : magnitude)
  (relative : bool) (vanish : Loc) :
  (forall e, Flux_init h fx None None relative vanish <> Raise e) /\
  (exists h' f,
     Flux_init h fx None None relative vanish = Ok (h', f) /\
     flux_width (fl h' f) = None /\
     in_loc (fl h' f) = None /\ out_loc (fl h' f) = None /\
     get_patch h' f <> Raise FluxWithNeither) /\
  (forall h2 f2,
     get_patch h2 f2 = Raise FluxWithNeither <->
     out_loc (fl h2 f2) = Some None /\ in_loc (fl h2 f2) = Some None).
Proof.
  split; [intros e H; discriminate H|]. split.
  - eexists _, _. split; [reflexivity|]. cbn. rewrite upd_same. cbn.
    repeat split. intros H. apply get_patch_neither in H. cbn in H.
    rewrite upd_same in H. cbn in H. destruct H; discriminate.
  - apply get_patch_neither.
Qed.

(** ** Sorting *)

Section StableSort.
Variable A : Type.
Variable le : A -> A -> bool.

Lemma insert_by_perm x l : Permutation (insert_by le x l) (x :: l).
Proof.
  induction l as [|y l IH]; cbn; [reflexivity|].
  destruct (le x y); [reflexivity|].
  rewrite IH. apply perm_swap.
Qed.

Lemma sorted_by_perm l : Permutation (sorted_by le l) l.
Proof.
  induction l as [|x l IH]; cbn; [reflexivity|].
  rewrite insert_by_perm. now constructor.
Qed.

Lemma sorted_by_length l : length (sorted_by le l) = length l.
Proof. apply Permutation_length, sorted_by_perm. Qed.

Hypothesis le_total : forall a b, le a b = true \/ le b a = true.
Hypothesis le_trans :
  forall a b c, le a b = true -> le b c = true -> le a c = true.

Lemma insert_by_sorted x l :
  StronglySorted (fun a b => le a b = true) l ->
  StronglySorted (fun a b => le a b = true) (insert_by le x l).
Proof.
  induction 1 as [|y l Hs IH Hf]; cbn.
  - repeat constructor.
  - destruct (le x y) eqn:E.
    + constructor; [now constructor|]. constructor; [exact E|].
      eapply Forall_impl; [|exact Hf]. intros z Hz.
      eapply le_trans; eauto.
    + constructor; [exact IH|].
      eapply Permutation_Forall; [symmetry; apply insert_by_perm|].
      constructor; [|exact Hf].
      destruct (le_total x y); congruence.
Qed.

Lemma sorted_by_sorted l :
  StronglySorted (fun a b => le a b = true) (sorted_by le l).
Proof.
  induction l as [|x l IH]; cbn; [constructor|].
  now apply insert_by_sorted.
Qed.
End StableSort.

Lemma StronglySorted_map {A B} (f : A -> B) (R : B -> B -> Prop) l :
  StronglySorted (fun a b => R (f a) (f b)) l ->
  StronglySorted R (map f l).
Proof.
  induction 1 as [|x l Hs IH Hf]; cbn; constructor; auto.
  apply Forall_map. exact Hf.
Qed.

Lemma StronglySorted_impl {A} (R R' : A -> A -> Prop) l :
  (forall a b, In a l -> In b l -> R a b -> R' a b) ->
  StronglySorted R l -> StronglySorted R' l.
Proof.
  intros HR. induction 1 as [|x l Hs IH Hf]; constructor.
  - apply IH. intros a b Ha Hb. apply HR; now right.
  - rewrite Forall_forall in *. intros y Hy.
    apply HR; [now left|now right|]. now apply Hf.
Qed.

Lemma map_result_ok {A B} (f : A -> result B) (g : A -> B) l :
  (forall x, In x l -> f x = Ok (g x)) -> map_result f l = Ok (map g l).
Proof.
  induction l as [|x l IH]; cbn; intros H; [reflexivity|].
  rewrite (H x (or_introl eq_refl)). cbn [bind].
  rewrite IH; [reflexivity|]. intros y Hy. apply H. now right.
Qed.

Lemma map_result_inv {A B} (f : A -> result B) l : forall r,
  map_result f l = Ok r -> Forall2 (fun x y => f x = Ok y) l r.
Proof.
  induction l as [|x l IH]; cbn; intros r H.
  - injection H as <-. constructor.
  - apply bind_ok in H. destruct H as (y & E & H).
    apply bind_ok in H. destruct H as (ys & E' & H).
    injection H as <-. constructor; auto.
Qed.

(** Reading back the items of [fs] at the indices of an enumeration. *)
Lemma items_of_enumeration {A} (fs : list A) (xs : list (nat * A)) :
  (forall x, In x xs -> nth_error fs (fst x) = Some (snd x)) ->
  map_result (item fs) (map fst xs) = Ok (map snd xs).
Proof.
  induction xs as [|x xs IH]; cbn [map map_result]; intros H;
    [reflexivity|].
  unfold item at 1. rewrite (H x (or_introl eq_refl)). cbn [bind].
  rewrite IH; [reflexivity|]. intros y Hy. apply H. now right.
Qed.

(** ** Order of the fluxes along an edge *)

Lemma enum_filter (g : fid -> option Loc) (l : Loc) (fs : list fid) :
  forall k,
    map snd
      (map fst (filter (fun x : nat * fid * option Loc => is_loc l (snd x))
                  (combine (combine (seq k (length fs)) fs) (map g fs))))
    = filter (fun f => is_loc l (g f)) fs /\
    forall x,
      In x (map fst
              (filter (fun x : nat * fid * option Loc => is_loc l (snd x))
                 (combine (combine (seq k (length fs)) fs) (map g fs)))) ->
      (k <= fst x)%nat /\ nth_error fs (fst x - k) = Some (snd x).
Proof.
  induction fs as [|f fs IH]; intros k; cbn; [split; [reflexivity|easy]|].
  destruct (IH (S k)) as [IH1 IH2].
  assert (Hrest : forall x,
    In x (map fst
            (filter (fun x : nat * fid * option Loc => is_loc l (snd x))
               (combine (combine (seq (S k) (length fs)) fs) (map g fs)))) ->
    (k <= fst x)%nat /\ nth_error (f :: fs) (fst x - k) = Some (snd x)).
  { intros x Hx. destruct (IH2 x Hx) as [Hk Hn]. split; [lia|].
    replace (fst x - k)%nat with (S (fst x - S k)) by lia. exact Hn. }
  destruct (is_loc l (g f)); cbn.
  - split; [now rewrite IH1|]. intros x [<-|Hx]; [|now apply Hrest].
    cbn. rewrite Nat.sub_diag. split; [lia|reflexivity].
  - split; [exact IH1|exact Hrest].
Qed.

Lemma select_loc_ok h side l fs :
  (forall f, In f fs -> side (fl h f) <> None) ->
  exists sel,
    select_loc h side l fs = Ok sel /\
    map snd sel = filter (on_edge h side l) fs /\
    forall x, In x sel -> nth_error fs (fst x) = Some (snd x).
Proof.
  intros Hs. unfold select_loc.
  rewrite (map_result_ok _ (loc_of h side)).
  - cbn [bind]. eexists. split; [reflexivity|].
    destruct (enum_filter (loc_of h side) l fs 0) as [E1 E2].
    split; [exact E1|]. intros x Hx. destruct (E2 x Hx) as [_ Hn].
    now rewrite Nat.sub_0_r in Hn.
  - intros f Hf. unfold loc_of. specialize (Hs f Hf).
    destruct (side (fl h f)); [reflexivity|contradiction].
Qed.

Lemma sorted_keyed_ok {A} (key : A -> option Q) (kv : A -> Q)
  (reverse : bool) (l : list A) :
  (forall x, In x l -> key x = Some (kv x)) ->
  sorted_keyed key reverse l
  = Ok (map fst
          (sorted_by (fun a b : A * Q =>
                        if reverse then Qle_bool (snd b) (snd a)
                        else Qle_bool (snd a) (snd b))
                     (map (fun x => (x, kv x)) l))).
Proof.
  intros Hk. unfold sorted_keyed.
  destruct l as [|x [|y l]]; [reflexivity|reflexivity|].
  rewrite (map_result_ok _ (fun x => (x, kv x))); [reflexivity|].
  intros z Hz. rewrite (Hk z Hz). reflexivity.
Qed.

Lemma Qle_bool_total a b : Qle_bool a b = true \/ Qle_bool b a = true.
Proof.
  rewrite !Qle_bool_iff. destruct (Qlt_le_dec a b) as [H|H]; auto.
  left. now apply Qlt_le_weak.
Qed.

Lemma Qle_bool_trans a b c :
  Qle_bool a b = true -> Qle_bool b c = true -> Qle_bool a c = true.
Proof. rewrite !Qle_bool_iff. apply Qle_trans. Qed.

(** The outcome of sorting keyed items, seen on the items. *)
Lemma sorted_keyed_sorted {A} (kv : A -> Q) (reverse : bool) (l : list A) :
  let r := map fst
             (sorted_by (fun a b : A * Q =>
                           if reverse then Qle_bool (snd b) (snd a)
                           else Qle_bool (snd a) (snd b))
                        (map (fun x => (x, kv x)) l)) in
  Permutation r l /\
  StronglySorted
    (fun a b => if reverse then kv b <= kv a else kv a <= kv b) r.
Proof.
  set (le := fun a b : A * Q =>
               if reverse then Qle_bool (snd b) (snd a)
               else Qle_bool (snd a) (snd b)).
  cbn zeta. split.
  - rewrite (sorted_by_perm _ le). rewrite map_map. cbn. now rewrite map_id.
  - apply StronglySorted_map.
    apply StronglySorted_impl
      with (R := fun a b => le a b = true).
    + intros a b Ha Hb.
      assert (Hform : forall z, In z (sorted_by le (map (fun x => (x, kv x)) l))
                                -> snd z = kv (fst z)).
      { intros z Hz.
        apply (Permutation_in _ (sorted_by_perm _ le _)) in Hz.
        apply in_map_iff in Hz. destruct Hz as (x & <- & _). reflexivity. }
      rewrite <- (Hform a Ha), <- (Hform b Hb). unfold le.
      destruct reverse; apply Qle_bool_iff.
    + apply sorted_by_sorted.
      * intros a b. unfold le. destruct reverse; apply Qle_bool_total.
      * intros a b c. unfold le. destruct reverse; intros H1 H2;
          eapply Qle_bool_trans; eauto.
Qed.

Lemma sort_fluxes_ok h side other fs :
  (forall f, In f fs -> side (fl h f) <> None) ->
  (forall f o, In f fs -> other (fl h f) = Some o ->
               mid_height (cl h o) <> None) ->
  exists tops bottoms,
    sort_fluxes h side other fs = Ok (tops ++ bottoms) /\
    Permutation tops (filter (on_edge h side top) fs) /\
    Permutation bottoms (filter (on_edge h side bottom) fs) /\
    StronglySorted
      (fun f g => edge_key h other g <= edge_key h other f) tops /\
    StronglySorted
      (fun f g => edge_key h other f <= edge_key h other g) bottoms.
Proof.
  intros Hs Hm. unfold sort_fluxes.
  destruct (select_loc_ok h side top fs Hs) as (st & Et & Ft & Nt).
  destruct (select_loc_ok h side bottom fs Hs) as (sb & Eb & Fb & Nb).
  rewrite Et, Eb. cbn [bind].
  assert (Hkey : forall sel l,
             map snd sel = filter (on_edge h side l) fs ->
             forall x, In x sel ->
               counterpart_key h other x
               = Some (edge_key h other (snd x))).
  { intros sel l F x Hx. unfold counterpart_key, edge_key.
    assert (Hin : In (snd x) fs).
    { apply (in_map snd) in Hx. rewrite F in Hx.
      apply filter_In in Hx. apply Hx. }
    destruct (other (fl h (snd x))) as [o|] eqn:Eo; [|reflexivity].
    specialize (Hm _ _ Hin Eo).
    destruct (mid_height (cl h o)); [reflexivity|contradiction]. }
  rewrite (sorted_keyed_ok _ (fun x => edge_key h other (snd x)) true st
             (Hkey st top Ft)).
  rewrite (sorted_keyed_ok _ (fun x => edge_key h other (snd x)) false sb
             (Hkey sb bottom Fb)).
  cbn [bind].
  destruct (sorted_keyed_sorted (fun x : nat * fid => edge_key h other (snd x))
              true st) as [Pt St].
  destruct (sorted_keyed_sorted (fun x : nat * fid => edge_key h other (snd x))
              false sb) as [Pb Sb].
  cbn zeta in Pt, St, Pb, Sb.
  set (rt := map fst (sorted_by _ (map _ st))) in *.
  set (rb := map fst (sorted_by _ (map _ sb))) in *.
  exists (map snd rt), (map snd rb).
  rewrite <- map_app, <- map_app.
  rewrite items_of_enumeration.
  - split; [reflexivity|].
    split; [rewrite <- Ft; now apply Permutation_map|].
    split; [rewrite <- Fb; now apply Permutation_map|].
    split; apply StronglySorted_map; assumption.
  - intros x Hx. apply in_app_or in Hx. destruct Hx as [Hx|Hx].
    + apply Nt. eapply Permutation_in; eauto.
    + apply Nb. eapply Permutation_in; eauto.
Qed.

(** C4, as stated, fails. On the sample diagram with two fluxes from
    cluster 0 to cluster 1 the port allocation puts the fluxes 2, 0 and 1
    on the ['top'] exit of cluster 0, in this order, and the fluxes 0 and
    1 have the same counterpart: the order is not strict. And a flux
    without counterpart is sorted by the number -10000, not last: it
    stands before a flux whose counterpart lies lower than that. *)
Lemma sort_out_fluxes_not_strict :
  (exists h',
     sort_out_fluxes sample_tie_routed 0%nat = Ok h' /\
     out_fluxes (cl h' 0%nat) = [2%nat; 0%nat; 1%nat] /\
     filter (on_edge h' out_loc top) (out_fluxes (cl h' 0%nat))
     = [2%nat; 0%nat; 1%nat] /\
     ~ strictly_descending h' target_cluster [2%nat; 0%nat; 1%nat]) /\
  (exists h',
     sort_out_fluxes sample_heap_far 0%nat = Ok h' /\
     out_fluxes (cl h' 0%nat) = [0%nat; 1%nat] /\
     filter (on_edge h' out_loc top) (out_fluxes (cl h' 0%nat))
     = [0%nat; 1%nat] /\
     ~ strictly_descending h' target_cluster [0%nat; 1%nat]).
Proof.
  split.
  - eexists. split; [vm_compute; reflexivity|].
    split; [vm_compute; reflexivity|]. split; [vm_compute; reflexivity|].
    intros S. inversion S as [|? ? S1 _]; subst.
    inversion S1 as [|? ? _ F]; subst.
    inversion F as [|? ? Hlt _]; subst.
    vm_compute in Hlt. discriminate Hlt.
  - eexists. split; [vm_compute; reflexivity|].
    split; [vm_compute; reflexivity|]. split; [vm_compute; reflexivity|].
    intros S. inversion S as [|? ? _ F]; subst.
    inversion F as [|? ? Hlt _]; subst.
    vm_compute in Hlt. exact Hlt.
Qed.

(** C4, amended. For a cluster whose fluxes have their edge attribute
    assigned and lead to positioned clusters, [sort_out_fluxes] (resp.
    [sort_in_fluxes]) succeeds and replaces the list of fluxes by the
    fluxes of the ['top'] exit (resp. entry) edge followed by those of the
    ['bottom'] edge. The first part is in descending and the second in
    ascending order of the sort key, neither of them strictly; the key
    of a flux is the mid-height of the cluster at its other end and is
    -10000 for a flux that has none. Fluxes on neither edge are left
    out. *)
Theorem sort_fluxes_order (h : Heap) (c : cid) :
  (forall f, In f (out_fluxes (cl h c)) -> out_loc (fl h f) <> None) ->
  (forall f t, In f (out_fluxes (cl h c)) ->
               target_cluster (fl h f) = Some t ->
               mid_height (cl h t) <> None) ->
  (forall f, In f (in_fluxes (cl h c)) -> in_loc (fl h f) <> None) ->
  (forall f s, In f (in_fluxes (cl h c)) ->
               source_cluster (fl h f) = Some s ->
               mid_height (cl h s) <> None) ->
  (exists h' tops bottoms,
     sort_out_fluxes h c = Ok h' /\ fl h' = fl h /\
     out_fluxes (cl h' c) = tops ++ bottoms /\
     Permutation tops
       (filter (on_edge h out_loc top) (out_fluxes (cl h c))) /\
     Permutation bottoms
       (filter (on_edge h out_loc bottom) (out_fluxes (cl h c))) /\
     StronglySorted
       (fun f g => edge_key h target_cluster g
                   <= edge_key h target_cluster f) tops /\
     StronglySorted
       (fun f g => edge_key h target_cluster f
                   <= edge_key h target_cluster g) bottoms) /\
  (exists h' tops bottoms,
     sort_in_fluxes h c = Ok h' /\ fl h' = fl h /\
     in_fluxes (cl h' c) = tops ++ bottoms /\
     Permutation tops
       (filter (on_edge h in_loc top) (in_fluxes (cl h c))) /\
     Permutation bottoms
       (filter (on_edge h in_loc bottom) (in_fluxes (cl h c))) /\
     StronglySorted
       (fun f g => edge_key h source_cluster g
                   <= edge_key h source_cluster f) tops /\
     StronglySorted
       (fun f g => edge_key h source_cluster f
                   <= edge_key h source_cluster g) bottoms).
Proof.
  intros Ho Hot Hi His. split.
  - destruct (sort_fluxes_ok h out_loc target_cluster _ Ho Hot)
      as (tops & bottoms & E & Pt & Pb & St & Sb).
    exists (put_cluster h c (with_out_fluxes (cl h c) (tops ++ bottoms))),
      tops, bottoms.
    unfold sort_out_fluxes. rewrite E. cbn [bind].
    split; [reflexivity|]. split; [reflexivity|].
    split; [cbn; now rewrite upd_same|]. auto.
  - destruct (sort_fluxes_ok h in_loc source_cluster _ Hi His)
      as (tops & bottoms & E & Pt & Pb & St & Sb).
    exists (put_cluster h c (with_in_fluxes (cl h c) (tops ++ bottoms))),
      tops, bottoms.
    unfold sort_in_fluxes. rewrite E. cbn [bind].
    split; [reflexivity|]. split; [reflexivity|].
    split; [cbn; now rewrite upd_same|]. auto.
Qed.

Lemma sort_fluxes_order_witness :
  (exists h' tops bottoms,
     sort_out_fluxes sample_tie_routed 0%nat = Ok h' /\
     fl h' = fl sample_tie_routed /\
     out_fluxes (cl h' 0%nat) = tops ++ bottoms /\
     Permutation tops
       (filter (on_edge sample_tie_routed out_loc top)
          (out_fluxes (cl sample_tie_routed 0%nat))) /\
     Permutation bottoms
       (filter (on_edge sample_tie_routed out_loc bottom)
          (out_fluxes (cl sample_tie_routed 0%nat))) /\
     StronglySorted
       (fun f g => edge_key sample_tie_routed target_cluster g
                   <= edge_key sample_tie_routed target_cluster f) tops /\
     StronglySorted
       (fun f g => edge_key sample_tie_routed target_cluster f
                   <= edge_key sample_tie_routed target_cluster g)
       bottoms) /\
  (exists h' tops bottoms,
     sort_in_fluxes sample_tie_routed 0%nat = Ok h' /\
     fl h' = fl sample_tie_routed /\
     in_fluxes (cl h' 0%nat) = tops ++ bottoms /\
     Permutation tops
       (filter (on_edge sample_tie_routed in_loc top)
          (in_fluxes (cl sample_tie_routed 0%nat))) /\
     Permutation bottoms
       (filter (on_edge sample_tie_routed in_loc bottom)
          (in_fluxes (cl sample_tie_routed 0%nat))) /\
     StronglySorted
       (fun f g => edge_key sample_tie_routed source_cluster g
                   <= edge_key sample_tie_routed source_cluster f) tops /\
     StronglySorted
       (fun f g => edge_key sample_tie_routed source_cluster f
                   <= edge_key sample_tie_routed source_cluster g)
       bottoms).
Proof.
  apply (sort_fluxes_order sample_tie_routed 0%nat).
  - intros f Hin. vm_compute in Hin.
    destruct Hin as [<-|[<-|[<-|[]]]]; vm_compute; discriminate.
  - intros f t Hin Et. vm_compute in Hin.
    destruct Hin as [<-|[<-|[<-|[]]]]; vm_compute in Et;
      injection Et as <-; vm_compute; discriminate.
  - intros f Hin. vm_compute in Hin. destruct Hin.
  - intros f s Hin. vm_compute in Hin. destruct Hin.
Defined.

(** ** Stacking of the fluxes along an edge *)

Lemma sumQ_from l : forall a, fold_left Qplus l a == a + sumQ l.
Proof.
  unfold sumQ. induction l as [|x l IH]; intros a; cbn.
  - ring.
  - rewrite IH, (IH (0 + x)). ring.
Qed.

Lemma sumQ_cons x l : sumQ (x :: l) == x + sumQ l.
Proof. unfold sumQ at 1. cbn. rewrite sumQ_from. ring. Qed.

Lemma signed_plus l a b : signed l (a + b) == signed l a + signed l b.
Proof. destruct l; cbn; ring. Qed.

Lemma get_set_loc {A} (d : by_loc A) l l' v :
  get_loc (set_loc d l v) l' = if Loc_eqb l' l then v else get_loc d l'.
Proof. destruct l, l'; reflexivity. Qed.

Lemma tiled_start h ends l fs : forall x y,
  x == y -> tiled h ends l x fs -> tiled h ends l y fs.
Proof.
  induction fs as [|f fs IH]; cbn; intros x y E; [easy|].
  intros (w & a & t & Hw & He & Hb & Ht). exists w, a, t.
  split; [exact Hw|]. split; [exact He|]. split.
  - unfold between in *. rewrite <- E. exact Hb.
  - apply (IH (x + signed l w)); [now rewrite E|exact Ht].
Qed.

Lemma tiled_frame h h' ends l fs :
  (forall f, In f fs -> fl h' f = fl h f) ->
  forall x, tiled h ends l x fs -> tiled h' ends l x fs.
Proof.
  induction fs as [|f fs IH]; cbn; intros F x; [easy|].
  intros (w & a & t & Hw & He & Hb & Ht). exists w, a, t.
  rewrite (F f (or_introl eq_refl)). repeat (split; [assumption|]).
  apply IH; auto.
Qed.

(** One turn of the loop of [set_anchor_out_fluxes]. *)
Lemma anchor_out_flux_ok c h f an lo li w :
  out_ (cl h c) = Some an ->
  out_loc (fl h f) = Some (Some lo) -> in_loc (fl h f) = Some (Some li) ->
  flux_width (fl h f) = Some w ->
  exists h1 a t,
    anchor_out_flux c h f = Ok h1 /\
    (forall c', c' <> c -> cl h1 c' = cl h c') /\
    cl h1 c
    = with_out_margin (cl h c)
        (set_loc (out_margin (cl h c)) lo
           (get_loc (out_margin (cl h c)) lo + signed lo w)) /\
    (forall f', f' <> f -> fl h1 f' = fl h f') /\
    fl h1 f = with_out_anchor (fl h f) a t /\
    between (snd a) (snd t)
      (snd (get_loc an lo) + get_loc (out_margin (cl h c)) lo)
      (snd (get_loc an lo) + get_loc (out_margin (cl h c)) lo
       + signed lo w).
Proof.
  intros Ha Ho Hi Hw. unfold anchor_out_flux, get_loc_out_flux.
  rewrite Ho, Hw, Hi, Ha. cbn [get_attr bind anchors lookup_loc].
  eexists _, _, _. split; [reflexivity|].
  cbn [cl fl put_flux put_cluster]. rewrite !upd_same.
  split; [intros c' Hc; now rewrite upd_other|].
  split; [destruct lo; reflexivity|].
  split; [intros f' Hf; now rewrite upd_other|].
  split; [reflexivity|].
  unfold between. cbn [snd].
  destruct lo, li; cbn; [left|right|left|right]; split; ring.
Qed.

Lemma anchor_out_loop c an (LO LI : fid -> Loc) (W : fid -> Q) fs :
  forall h,
  NoDup fs -> out_ (cl h c) = Some an ->
  (forall f, In f fs ->
     out_loc (fl h f) = Some (Some (LO f)) /\
     in_loc (fl h f) = Some (Some (LI f)) /\
     flux_width (fl h f) = Some (W f)) ->
  exists h',
    for_each fs (anchor_out_flux c) h = Ok h' /\
    (forall f, ~ In f fs -> fl h' f = fl h f) /\
    (forall f, out_loc (fl h' f) = out_loc (fl h f) /\
               in_loc (fl h' f) = in_loc (fl h f) /\
               flux_width (fl h' f) = flux_width (fl h f)) /\
    (forall c', c' <> c -> cl h' c' = cl h c') /\
    out_ (cl h' c) = out_ (cl h c) /\
    forall l,
      tiled h' out_ends l
        (snd (get_loc an l) + get_loc (out_margin (cl h c)) l)
        (filter (fun f => Loc_eqb (LO f) l) fs) /\
      get_loc (out_margin (cl h' c)) l
      == get_loc (out_margin (cl h c)) l
         + signed l (sumQ (map W (filter (fun f => Loc_eqb (LO f) l) fs))).
Proof.
  induction fs as [|f fs IH]; intros h Hnd Ha Hf.
  - exists h. cbn [for_each filter map].
    split; [reflexivity|]. split; [easy|]. split; [easy|].
    split; [easy|]. split; [reflexivity|].
    intros l. split; [exact I|]. unfold sumQ. destruct l; cbn; ring.
  - inversion Hnd as [|? ? Hnin Hnd']; subst.
    destruct (Hf f (or_introl eq_refl)) as (Ho & Hi & Hw).
    destruct (anchor_out_flux_ok c h f an _ _ _ Ha Ho Hi Hw)
      as (h1 & a & t & E & C1 & Cc & F1 & Ff & Hb).
    assert (Hattr : forall g, out_loc (fl h1 g) = out_loc (fl h g) /\
                              in_loc (fl h1 g) = in_loc (fl h g) /\
                              flux_width (fl h1 g) = flux_width (fl h g)).
    { intros g. destruct (Nat.eq_dec g f) as [->|Hne].
      - rewrite Ff. cbn. auto.
      - rewrite F1; auto. }
    destruct (IH h1 Hnd') as (h' & E' & Fr & At & C' & A' & T).
    { rewrite Cc. cbn. exact Ha. }
    { intros g Hg. destruct (Hattr g) as (-> & -> & ->).
      apply Hf. now right. }
    exists h'. cbn [for_each]. rewrite E. cbn [bind].
    split; [exact E'|].
    split.
    { intros g Hg. rewrite Fr, F1; auto.
      - intros ->. apply Hg. now left.
      - intros Hin. apply Hg. now right. }
    split.
    { intros g. destruct (At g) as (-> & -> & ->). apply Hattr. }
    split; [intros c' Hc; rewrite C', C1; auto|].
    split; [rewrite A', Cc; reflexivity|].
    intros l. destruct (T l) as [Tl Ml].
    rewrite Cc in Tl, Ml. cbn [out_margin with_out_margin] in Tl, Ml.
    rewrite get_set_loc in Tl, Ml.
    cbn [filter]. destruct (Loc_eqb (LO f) l) eqn:El.
    + assert (LO f = l) as <- by (destruct (LO f), l; easy).
      rewrite (match LO f as x return Loc_eqb x x = true with
               | top | bottom => eq_refl end) in Tl, Ml.
      split.
      * exists (W f), (snd a), (snd t).
        rewrite (Fr f Hnin), Ff.
        split; [exact Hw|]. split; [reflexivity|]. split; [exact Hb|].
        eapply tiled_start; [|exact Tl]. ring.
      * cbn [map].
        pose proof (sumQ_cons (W f)
                      (map W (filter (fun f0 => Loc_eqb (LO f0) (LO f)) fs)))
          as Hs.
        destruct (LO f); cbn [signed] in *; lra.
    + assert (Loc_eqb l (LO f) = false) as El'
          by (destruct (LO f), l; easy).
      rewrite El' in Tl, Ml. split; assumption.
Qed.

(** One turn of the loop of [set_anchor_in_fluxes]. *)
Lemma anchor_in_flux_ok c h f an lo li w :
  in_ (cl h c) = Some an ->
  out_loc (fl h f) = Some (Some lo) -> in_loc (fl h f) = Some (Some li) ->
  flux_width (fl h f) = Some w ->
  exists h1 a t,
    anchor_in_flux c h f = Ok h1 /\
    (forall c', c' <> c -> cl h1 c' = cl h c') /\
    cl h1 c
    = with_in_margin (cl h c)
        (set_loc (in_margin (cl h c)) li
           (get_loc (in_margin (cl h c)) li + signed li w)) /\
    (forall f', f' <> f -> fl h1 f' = fl h f') /\
    fl h1 f = with_in_anchor (fl h f) a t /\
    between (snd a) (snd t)
      (snd (get_loc an li) + get_loc (in_margin (cl h c)) li)
      (snd (get_loc an li) + get_loc (in_margin (cl h c)) li
       + signed li w).
Proof.
  intros Ha Ho Hi Hw. unfold anchor_in_flux, get_loc_in_flux.
  rewrite Hi, Hw, Ho, Ha. cbn [get_attr bind anchors lookup_loc].
  eexists _, _, _. split; [reflexivity|].
  cbn [cl fl put_flux put_cluster]. rewrite !upd_same.
  split; [intros c' Hc; now rewrite upd_other|].
  split; [destruct li; reflexivity|].
  split; [intros f' Hf; now rewrite upd_other|].
  split; [reflexivity|].
  unfold between. cbn [snd].
  destruct lo, li; cbn; [left|left|right|right]; split; ring.
Qed.

Lemma anchor_in_loop c an (LO LI : fid -> Loc) (W : fid -> Q) fs :
  forall h,
  NoDup fs -> in_ (cl h c) = Some an ->
  (forall f, In f fs ->
     out_loc (fl h f) = Some (Some (LO f)) /\
     in_loc (fl h f) = Some (Some (LI f)) /\
     flux_width (fl h f) = Some (W f)) ->
  exists h',
    for_each fs (anchor_in_flux c) h = Ok h' /\
    (forall f, ~ In f fs -> fl h' f = fl h f) /\
    (forall f, out_loc (fl h' f) = out_loc (fl h f) /\
               in_loc (fl h' f) = in_loc (fl h f) /\
               flux_width (fl h' f) = flux_width (fl h f)) /\
    (forall c', c' <> c -> cl h' c' = cl h c') /\
    in_ (cl h' c) = in_ (cl h c) /\
    forall l,
      tiled h' in_ends l
        (snd (get_loc an l) + get_loc (in_margin (cl h c)) l)
        (filter (fun f => Loc_eqb (LI f) l) fs) /\
      get_loc (in_margin (cl h' c)) l
      == get_loc (in_margin (cl h c)) l
         + signed l (sumQ (map W (filter (fun f => Loc_eqb (LI f) l) fs))).
Proof.
  induction fs as [|f fs IH]; intros h Hnd Ha Hf.
  - exists h. cbn [for_each filter map].
    split; [reflexivity|]. split; [easy|]. split; [easy|].
    split; [easy|]. split; [reflexivity|].
    intros l. split; [exact I|]. unfold sumQ. destruct l; cbn; ring.
  - inversion Hnd as [|? ? Hnin Hnd']; subst.
    destruct (Hf f (or_introl eq_refl)) as (Ho & Hi & Hw).
    destruct (anchor_in_flux_ok c h f an _ _ _ Ha Ho Hi Hw)
      as (h1 & a & t & E & C1 & Cc & F1 & Ff & Hb).
    assert (Hattr : forall g, out_loc (fl h1 g) = out_loc (fl h g) /\
                              in_loc (fl h1 g) = in_loc (fl h g) /\
                              flux_width (fl h1 g) = flux_width (fl h g)).
    { intros g. destruct (Nat.eq_dec g f) as [->|Hne].
      - rewrite Ff. cbn. auto.
      - rewrite F1; auto. }
    destruct (IH h1 Hnd') as (h' & E' & Fr & At & C' & A' & T).
    { rewrite Cc. cbn. exact Ha. }
    { intros g Hg. destruct (Hattr g) as (-> & -> & ->).
      apply Hf. now right. }
    exists h'. cbn [for_each]. rewrite E. cbn [bind].
    split; [exact E'|].
    split.
    { intros g Hg. rewrite Fr, F1; auto.
      - intros ->. apply Hg. now left.
      - intros Hin. apply Hg. now right. }
    split.
    { intros g. destruct (At g) as (-> & -> & ->). apply Hattr. }
    split; [intros c' Hc; rewrite C', C1; auto|].
    split; [rewrite A', Cc; reflexivity|].
    intros l. destruct (T l) as [Tl Ml].
    rewrite Cc in Tl, Ml. cbn [in_margin with_in_margin] in Tl, Ml.
    rewrite get_set_loc in Tl, Ml.
    cbn [filter]. destruct (Loc_eqb (LI f) l) eqn:El.
    + assert (LI f = l) as <- by (destruct (LI f), l; easy).
      rewrite (match LI f as x return Loc_eqb x x = true with
               | top | bottom => eq_refl end) in Tl, Ml.
      split.
      * exists (W f), (snd a), (snd t).
        rewrite (Fr f Hnin), Ff.
        split; [exact Hw|]. split; [reflexivity|]. split; [exact Hb|].
        eapply tiled_start; [|exact Tl]. ring.
      * cbn [map].
        pose proof (sumQ_cons (W f)
                      (map W (filter (fun f0 => Loc_eqb (LI f0) (LI f)) fs)))
          as Hs.
        destruct (LI f); cbn [signed] in *; lra.
    + assert (Loc_eqb l (LI f) = false) as El'
          by (destruct (LI f), l; easy).
      rewrite El' in Tl, Ml. split; assumption.
Qed.
Lemma beyond_refl l x : beyond l x x.
Proof. destruct l; cbn; apply Qle_refl. Qed.

Lemma beyond_trans l x y z : beyond l x y -> beyond l y z -> beyond l x z.
Proof. destruct l; cbn; intros; lra. Qed.

Lemma beyond_signed l x w : 0 <= w -> beyond l x (x + signed l w).
Proof. destruct l; cbn; intros; lra. Qed.

Lemma between_beyond l a t x w :
  0 <= w -> between a t x (x + signed l w) ->
  beyond l x a /\ beyond l x t /\
  beyond l a (x + signed l w) /\ beyond l t (x + signed l w).
Proof.
  intros Hw [[Ha Ht]|[Ha Ht]]; destruct l; cbn in *; repeat split; lra.
Qed.

Lemma tiled_beyond h ends l fs : forall start,
  (forall f w, In f fs -> flux_width (fl h f) = Some w -> 0 <= w) ->
  tiled h ends l start fs ->
  forall f, In f fs ->
    exists a t, ends (fl h f) = Some (a, t) /\
                beyond l start a /\ beyond l start t.
Proof.
  induction fs as [|g fs IH]; cbn; intros start Hw T f Hin; [easy|].
  destruct T as (w & a & t & Ew & Ee & Hb & T).
  assert (W : 0 <= w) by (apply (Hw g w); [now left|exact Ew]).
  destruct (between_beyond l a t start w W Hb) as (B1 & B2 & _).
  destruct Hin as [<-|Hin]; [exists a, t; auto|].
  destruct (IH _ (fun f0 w0 H0 => Hw f0 w0 (or_intror H0)) T f Hin)
    as (a' & t' & Ee' & B1' & B2').
  exists a', t'. split; [exact Ee'|].
  split;
    [apply (beyond_trans l start (start + signed l w) a')
    |apply (beyond_trans l start (start + signed l w) t')];
    try assumption; now apply beyond_signed.
Qed.

Lemma tiled_separated h ends l fs : forall start,
  (forall f w, In f fs -> flux_width (fl h f) = Some w -> 0 <= w) ->
  tiled h ends l start fs -> separated h ends l fs.
Proof.
  induction fs as [|g fs IH]; cbn; intros start Hw T; [easy|].
  destruct T as (w & a & t & Ew & Ee & Hb & T).
  assert (W : 0 <= w) by (apply (Hw g w); [now left|exact Ew]).
  destruct (between_beyond l a t start w W Hb) as (_ & _ & B3 & B4).
  assert (Hw' : forall f0 w0, In f0 fs -> flux_width (fl h f0) = Some w0 ->
                              0 <= w0)
    by (intros f0 w0 H0; apply Hw; now right).
  split; [|eapply IH; eauto].
  exists a, t. split; [exact Ee|]. intros f Hin.
  destruct (tiled_beyond h ends l fs _ Hw' T f Hin)
    as (a' & t' & Ee' & B1' & B2').
  exists a', t'. split; [exact Ee'|].
  repeat split; eapply beyond_trans; eassumption.
Qed.

(** In exact arithmetic already, the margin of a ['top'] edge is not
    incremented. On the sample diagram the
    flux 2, of width 4, is the first one on the ['top'] exit of cluster
    0, whose margin is 0: the allocation moves that margin to -4, not
    to 4. *)
Lemma top_margin_is_decremented :
  exists h',
    anchor_out_flux 0%nat sample_tie_sorted 2%nat = Ok h' /\
    out_loc (fl sample_tie_sorted 2%nat) = Some (Some top) /\
    flux_width (fl sample_tie_sorted 2%nat) = Some 4 /\
    get_loc (out_margin (cl sample_tie_sorted 0%nat)) top = 0 /\
    get_loc (out_margin (cl h' 0%nat)) top == - (4) /\
    ~ get_loc (out_margin (cl h' 0%nat)) top
      == get_loc (out_margin (cl sample_tie_sorted 0%nat)) top + 4.
Proof.
  destruct (anchor_out_flux 0%nat sample_tie_sorted 2%nat) as [h'|e] eqn:E;
    [|vm_compute in E; discriminate E].
  exists h'. split; [reflexivity|].
  split; [vm_compute; reflexivity|]. split; [vm_compute; reflexivity|].
  split; [vm_compute; reflexivity|].
  assert (M : get_loc (out_margin (cl h' 0%nat)) top == - (4)).
  { destruct (anchor_out_flux_ok 0%nat sample_tie_sorted 2%nat
                (match out_ (cl sample_tie_sorted 0%nat) with
                 | Some a => a
                 | None => mk_by_loc (None, 0) (None, 0)
                 end) top bottom 4)
      as (h1 & a & t & E1 & _ & Cc & _); try (vm_compute; reflexivity).
    rewrite E in E1. injection E1 as <-. rewrite Cc. vm_compute.
    reflexivity. }
  split; [exact M|]. rewrite M. vm_compute. discriminate.
Qed.
(** The bands in exact arithmetic (the statement for the doubles that
    the code computes is [set_anchor_fluxes_tiled_double]). For a
    cluster with anchors, whose outgoing (resp.
    incoming) fluxes are distinct, have both edges decided and have a
    non-negative width, [set_anchor_out_fluxes] (resp.
    [set_anchor_in_fluxes]) succeeds and, on each of the two edges of
    that side, gives the fluxes of the edge, in the order of the list,
    adjacent bands: the band of a flux has the two anchors of the flux
    as its ends, starts at the anchor of the edge plus the current margin
    and has the width [flux_width], measured upwards on a ['bottom'] edge
    and downwards on a ['top'] edge. The margin of a ['bottom'] edge is
    incremented, and that of a ['top'] edge is decremented, by the width
    of each flux, so that it moves in all by the sum of the widths
    [flux_width] of the fluxes of the edge; no two bands of an edge
    overlap. *)
Theorem set_anchor_fluxes_tiled (h : Heap) (c : cid)
  (ao ai : by_loc point) :
  out_ (cl h c) = Some ao -> in_ (cl h c) = Some ai ->
  NoDup (out_fluxes (cl h c)) -> NoDup (in_fluxes (cl h c)) ->
  (forall f, In f (out_fluxes (cl h c) ++ in_fluxes (cl h c)) ->
     exists lo li w,
       out_loc (fl h f) = Some (Some lo) /\
       in_loc (fl h f) = Some (Some li) /\
       flux_width (fl h f) = Some w /\ 0 <= w) ->
  (exists h',
     set_anchor_out_fluxes h c = Ok h' /\
     forall l,
       tiled h' out_ends l
         (snd (get_loc ao l) + get_loc (out_margin (cl h c)) l)
         (filter (on_edge h out_loc l) (out_fluxes (cl h c))) /\
       separated h' out_ends l
         (filter (on_edge h out_loc l) (out_fluxes (cl h c))) /\
       get_loc (out_margin (cl h' c)) l
       == get_loc (out_margin (cl h c)) l
          + signed l
              (total_width h
                 (filter (on_edge h out_loc l) (out_fluxes (cl h c))))) /\
  (exists h',
     set_anchor_in_fluxes h c = Ok h' /\
     forall l,
       tiled h' in_ends l
         (snd (get_loc ai l) + get_loc (in_margin (cl h c)) l)
         (filter (on_edge h in_loc l) (in_fluxes (cl h c))) /\
       separated h' in_ends l
         (filter (on_edge h in_loc l) (in_fluxes (cl h c))) /\
       get_loc (in_margin (cl h' c)) l
       == get_loc (in_margin (cl h c)) l
          + signed l
              (total_width h
                 (filter (on_edge h in_loc l) (in_fluxes (cl h c))))).
Proof.
  intros Ho Hi Ndo Ndi Hf.
  set (LO := fun f => match out_loc (fl h f) with
                      | Some (Some l) => l
                      | _ => top
                      end).
  set (LI := fun f => match in_loc (fl h f) with
                      | Some (Some l) => l
                      | _ => top
                      end).
  set (W := fun f => match flux_width (fl h f) with
                     | Some w => w
                     | None => 0
                     end).
  assert (Hall : forall f,
             In f (out_fluxes (cl h c) ++ in_fluxes (cl h c)) ->
             out_loc (fl h f) = Some (Some (LO f)) /\
             in_loc (fl h f) = Some (Some (LI f)) /\
             flux_width (fl h f) = Some (W f)).
  { intros f Hin. destruct (Hf f Hin) as (lo & li & w & E1 & E2 & E3 & _).
    unfold LO, LI, W. rewrite E1, E2, E3. auto. }
  assert (Hpos : forall h' fs f w,
             (forall g, flux_width (fl h' g) = flux_width (fl h g)) ->
             incl fs (out_fluxes (cl h c) ++ in_fluxes (cl h c)) ->
             In f fs -> flux_width (fl h' f) = Some w -> 0 <= w).
  { intros h' fs f w Hw Hincl Hin E. rewrite Hw in E.
    destruct (Hf f (Hincl f Hin)) as (_ & _ & w' & _ & _ & E3 & Hp).
    congruence. }
  split.
  - destruct (anchor_out_loop c ao LO LI W (out_fluxes (cl h c)) h Ndo Ho)
      as (h' & E & _ & At & _ & _ & T).
    { intros f Hin. apply Hall, in_or_app. now left. }
    exists h'. split; [exact E|]. intros l. destruct (T l) as [Tl Ml].
    assert (Ef : filter (on_edge h out_loc l) (out_fluxes (cl h c))
                 = filter (fun f => Loc_eqb (LO f) l) (out_fluxes (cl h c))).
    { apply filter_ext_in. intros f Hin.
      destruct (Hall f (in_or_app _ _ _ (or_introl Hin))) as (E1 & _).
      unfold on_edge, loc_of. rewrite E1. reflexivity. }
    rewrite Ef. split; [exact Tl|]. split; [|exact Ml].
    eapply tiled_separated; [|exact Tl].
    intros f w Hin. apply (Hpos h' _ f w (fun g => proj2 (proj2 (At g)))
                             (fun x Hx => in_or_app _ _ _
                                (or_introl (proj1 (proj1 (filter_In _ _ _) Hx))))
                             Hin).
  - destruct (anchor_in_loop c ai LO LI W (in_fluxes (cl h c)) h Ndi Hi)
      as (h' & E & _ & At & _ & _ & T).
    { intros f Hin. apply Hall, in_or_app. now right. }
    exists h'. split; [exact E|]. intros l. destruct (T l) as [Tl Ml].
    assert (Ef : filter (on_edge h in_loc l) (in_fluxes (cl h c))
                 = filter (fun f => Loc_eqb (LI f) l) (in_fluxes (cl h c))).
    { apply filter_ext_in. intros f Hin.
      destruct (Hall f (in_or_app _ _ _ (or_intror Hin))) as (_ & E2 & _).
      unfold on_edge, loc_of. rewrite E2. reflexivity. }
    rewrite Ef. split; [exact Tl|]. split; [|exact Ml].
    eapply tiled_separated; [|exact Tl].
    intros f w Hin. apply (Hpos h' _ f w (fun g => proj2 (proj2 (At g)))
                             (fun x Hx => in_or_app _ _ _
                                (or_intror (proj1 (proj1 (filter_In _ _ _) Hx))))
                             Hin).
Qed.

Lemma set_anchor_fluxes_tiled_witness :
  exists ao ai,
  out_ (cl sample_tie_sorted 0%nat) = Some ao /\
  in_ (cl sample_tie_sorted 0%nat) = Some ai /\
  (exists h',
     set_anchor_out_fluxes sample_tie_sorted 0%nat = Ok h' /\
     forall l,
       tiled h' out_ends l
         (snd (get_loc ao l)
          + get_loc (out_margin (cl sample_tie_sorted 0%nat)) l)
         (filter (on_edge sample_tie_sorted out_loc l)
            (out_fluxes (cl sample_tie_sorted 0%nat))) /\
       separated h' out_ends l
         (filter (on_edge sample_tie_sorted out_loc l)
            (out_fluxes (cl sample_tie_sorted 0%nat))) /\
       get_loc (out_margin (cl h' 0%nat)) l
       == get_loc (out_margin (cl sample_tie_sorted 0%nat)) l
          + signed l
              (total_width sample_tie_sorted
                 (filter (on_edge sample_tie_sorted out_loc l)
                    (out_fluxes (cl sample_tie_sorted 0%nat))))) /\
  (exists h',
     set_anchor_in_fluxes sample_tie_sorted 0%nat = Ok h' /\
     forall l,
       tiled h' in_ends l
         (snd (get_loc ai l)
          + get_loc (in_margin (cl sample_tie_sorted 0%nat)) l)
         (filter (on_edge sample_tie_sorted in_loc l)
            (in_fluxes (cl sample_tie_sorted 0%nat))) /\
       separated h' in_ends l
         (filter (on_edge sample_tie_sorted in_loc l)
            (in_fluxes (cl sample_tie_sorted 0%nat))) /\
       get_loc (in_margin (cl h' 0%nat)) l
       == get_loc (in_margin (cl sample_tie_sorted 0%nat)) l
          + signed l
              (total_width sample_tie_sorted
                 (filter (on_edge sample_tie_sorted in_loc l)
                    (in_fluxes (cl sample_tie_sorted 0%nat))))).
Proof.
  eexists _, _. split; [vm_compute; reflexivity|].
  split; [vm_compute; reflexivity|].
  apply set_anchor_fluxes_tiled.
  - vm_compute. reflexivity.
  - vm_compute. reflexivity.
  - vm_compute. repeat constructor; cbn; intuition discriminate.
  - vm_compute. constructor.
  - intros f Hin. vm_compute in Hin.
    destruct Hin as [<-|[<-|[<-|[]]]];
      eexists _, _, _;
      (split; [vm_compute; reflexivity|]);
      (split; [vm_compute; reflexivity|]);
      (split; [vm_compute; reflexivity|]);
      vm_compute; discriminate.
Defined.

(** ** The swap test *)

(** C5, on a stacked pair: cluster 1 (below, mid-height -3/2) is fed by
    a source of mid-height 3/2, cluster 2 (above, mid-height 3/2) has no
    flux. Exchanging the two puts cluster 1 at mid-height 3/2 and takes
    the total deviation from 3 to 0, yet [_swap_clusters] answers
    [False]: it rates cluster 1 at the mid-height 9/2, computed from the
    present [y_pos] of cluster 2, which is the height of cluster 1 plus
    the spacing above the place the swap moves it to. *)
Theorem swap_rejected_though_deviation_decreases :
  chain sample_heap_swap 1 (-(5#2)) [1%nat; 2%nat] /\
  _swap_clusters sample_heap_swap 1 1%nat 2%nat backwards = Ok false /\
  (exists m1 m2,
     inv_mid_height sample_heap_swap 1 1%nat 2%nat = Ok (m1, m2) /\
     m1 == 9#2 /\ m2 == -(3#2)) /\
  exists h' before after m1',
    exchange_positions sample_heap_swap 1 1%nat 2%nat = Ok h' /\
    chain h' 1 (-(5#2)) [2%nat; 1%nat] /\
    mid_height (cl h' 1%nat) = Some m1' /\ m1' == 3#2 /\
    total_deviation sample_heap_swap backwards 1%nat 2%nat = Ok before /\
    total_deviation h' backwards 1%nat 2%nat = Ok after /\
    before == 3 /\ after == 0 /\ after < before.
Proof.
  split.
  { cbn [chain]. eexists. split; [vm_compute; reflexivity|].
    split; [vm_compute; reflexivity|].
    eexists. split; [vm_compute; reflexivity|].
    split; [vm_compute; reflexivity|]. exact I. }
  split; [vm_compute; reflexivity|].
  split.
  { eexists _, _. split; [vm_compute; reflexivity|].
    split; vm_compute; reflexivity. }
  destruct (exchange_positions sample_heap_swap 1 1%nat 2%nat)
    as [h'|e] eqn:E; [|vm_compute in E; discriminate E].
  assert (Hh : Ok h' = exchange_positions sample_heap_swap 1 1%nat 2%nat)
    by (symmetry; exact E).
  vm_compute in Hh. injection Hh as ->.
  eexists _, _, _, _. split; [reflexivity|].
  split.
  { cbn [chain]. eexists. split; [vm_compute; reflexivity|].
    split; [vm_compute; reflexivity|].
    eexists. split; [vm_compute; reflexivity|].
    split; [vm_compute; reflexivity|]. exact I. }
  split; [vm_compute; reflexivity|]. split; [vm_compute; reflexivity|].
  split; [vm_compute; reflexivity|]. split; [vm_compute; reflexivity|].
  split; [vm_compute; reflexivity|]. split; vm_compute; reflexivity.
Qed.

(** ** Slices, interleaving and ranking *)

Lemma pair_induction {A} (P : list A -> Prop) :
  P [] -> (forall x, P [x]) -> (forall x y l, P l -> P (x :: y :: l)) ->
  forall l, P l.
Proof.
  intros H0 H1 H2 l.
  assert (H : P l /\ forall x, P (x :: l)); [|apply H].
  induction l as [|y l [IH1 IH2]]; [split; auto|].
  split; [apply IH2|]. intros x. now apply H2.
Qed.

Lemma every_other_cons {A} (y : A) (l : list A) :
  every_other (y :: l) = y :: every_other (tl l).
Proof. destruct l; reflexivity. Qed.

Lemma every_other_split {A} (l : list A) :
  Permutation (every_other l ++ every_other (tl l)) l.
Proof.
  induction l as [| x | x y l IH] using pair_induction;
    [reflexivity|reflexivity|].
  cbn [tl]. rewrite (every_other_cons y l).
  change (every_other (x :: y :: l)) with (x :: every_other l).
  cbn [app]. constructor.
  rewrite <- Permutation_middle. constructor. exact IH.
Qed.

Lemma every_other_snoc {A} (l : list A) (a : A) :
  every_other (l ++ [a])
  = if Nat.even (length l) then every_other l ++ [a] else every_other l.
Proof.
  induction l as [| x | x y l IH] using pair_induction; cbn [app length];
    [reflexivity|reflexivity|].
  change (every_other (x :: y :: l ++ [a]))
    with (x :: every_other (l ++ [a])).
  rewrite IH. cbn [Nat.even]. destruct (Nat.even (length l)); reflexivity.
Qed.

Lemma every_other_tl_snoc {A} (l : list A) (a : A) :
  every_other (tl (l ++ [a]))
  = if Nat.even (length l) then every_other (tl l)
    else every_other (tl l) ++ [a].
Proof.
  destruct l as [|x l]; [reflexivity|]. cbn [app tl length].
  rewrite every_other_snoc, Nat.even_succ, <- Nat.negb_even.
  destruct (Nat.even (length l)); reflexivity.
Qed.

(** Every second item from the back is, up to the order, every second
    item from the front, starting at the first or at the second item
    according to the parity of the length. *)
Lemma every_other_rev {A} (l : list A) :
  Permutation (every_other (rev l))
    (if Nat.even (length l) then every_other (tl l) else every_other l) /\
  Permutation (every_other (tl (rev l)))
    (if Nat.even (length l) then every_other l else every_other (tl l)).
Proof.
  induction l as [|a l [IH1 IH2]] using rev_ind; [split; reflexivity|].
  rewrite rev_app_distr, length_app, Nat.add_1_r, Nat.even_succ,
    <- Nat.negb_even.
  cbn [rev app tl].
  rewrite every_other_snoc, every_other_tl_snoc.
  assert (E : every_other (a :: rev l) = a :: every_other (tl (rev l))).
  { destruct (rev l) as [|y m]; reflexivity. }
  rewrite E.
  destruct (Nat.even (length l)); cbn [negb]; split.
  - rewrite IH2. apply Permutation_cons_append.
  - exact IH1.
  - rewrite IH2. apply Permutation_cons_append.
  - exact IH1.
Qed.

Lemma interleave_perm (l : list cid) : Permutation (interleave l) l.
Proof.
  unfold interleave, slice_back2, slice_from2.
  apply Permutation_trans
    with (every_other (rev l)
          ++ every_other (skipn (Nat.modulo (length l) 2) l)).
  { apply Permutation_app; symmetry; apply Permutation_rev. }
  destruct (every_other_rev l) as [E _].
  apply Permutation_trans
    with ((if Nat.even (length l) then every_other (tl l)
           else every_other l)
          ++ every_other (skipn (Nat.modulo (length l) 2) l)).
  { apply Permutation_app; [exact E|reflexivity]. }
  assert (Hm : Nat.modulo (length l) 2
               = if Nat.even (length l) then 0%nat else 1%nat).
  { destruct (Nat.even (length l)) eqn:Ev.
    - apply Nat.even_spec in Ev. destruct Ev as [m ->].
      rewrite Nat.mul_comm. apply Nat.Div0.mod_mul.
    - rewrite <- Nat.negb_odd in Ev. apply negb_false_iff in Ev.
      apply Nat.odd_spec in Ev. destruct Ev as [m ->].
      rewrite Nat.add_comm, Nat.mul_comm, Nat.Div0.mod_add. reflexivity. }
  rewrite Hm. destruct (Nat.even (length l)).
  - cbn [skipn].
    apply Permutation_trans with (every_other l ++ every_other (tl l));
      [apply Permutation_app_comm|apply every_other_split].
  - replace (skipn 1 l) with (tl l) by (destruct l; reflexivity).
    apply every_other_split.
Qed.

Lemma map_fst_combine {A B} (l : list A) (l' : list B) :
  length l = length l' -> map fst (combine l l') = l.
Proof.
  revert l'. induction l as [|x l IH]; intros [|y l'] H; cbn in *;
    try discriminate; [reflexivity|]. f_equal. apply IH. lia.
Qed.

Lemma map_nth_seq {A} (l : list A) (d : A) :
  map (fun i => nth i l d) (seq 0 (length l)) = l.
Proof.
  induction l as [|x l IH]; cbn; [reflexivity|]. f_equal.
  rewrite <- seq_shift, map_map. exact IH.
Qed.

Lemma map_result_length {A B} (f : A -> result B) l r :
  map_result f l = Ok r -> length r = length l.
Proof.
  intros H. apply map_result_inv in H. symmetry.
  eapply Forall2_length; eauto.
Qed.

Lemma items_nth {A} (l : list A) (d : A) (idx : list nat) (r : list A) :
  map_result (item l) idx = Ok r -> r = map (fun i => nth i l d) idx.
Proof.
  intros H. apply map_result_inv in H.
  induction H as [|i x idx r Hi _ IH]; cbn; [reflexivity|]. f_equal; auto.
  unfold item in Hi. destruct (nth_error l i) eqn:E; [|discriminate].
  injection Hi as <-. symmetry. now apply nth_error_nth.
Qed.

(** The re-ranking only reorders the column. *)
Lemma rerank_perm h old col col' :
  rerank h old col = Ok col' -> Permutation col' col.
Proof.
  unfold rerank. intros H. apply bind_ok in H.
  destruct H as (keys & Ek & H).
  apply (items_nth col 0%nat) in H. subst col'.
  rewrite <- (map_nth_seq col 0%nat) at 2.
  apply Permutation_map.
  rewrite (sorted_by_perm _ _ _).
  rewrite map_fst_combine; [reflexivity|].
  rewrite length_seq. symmetry. eapply map_result_length; eauto.
Qed.

(** ** Steps that stay within a column *)

Lemma local_step_refl k p : local_step k p p.
Proof.
  split; [reflexivity|]. split; [reflexivity|]. split; [reflexivity|].
  split; [reflexivity|apply repositions_refl].
Qed.

Lemma local_step_trans k p1 p2 p3 :
  local_step k p1 p2 -> local_step k p2 p3 -> local_step k p1 p3.
Proof.
  intros (S1 & B1 & O1 & P1 & R1) (S2 & B2 & O2 & P2 & R2).
  split; [congruence|]. split; [congruence|].
  split; [intros j Hj; rewrite O2, O1; auto|].
  split; [now rewrite P2|].
  eapply repositions_trans; [exact R1|].
  eapply repositions_incl; [|exact R2].
  intros c Hc. eapply Permutation_in; eauto.
Qed.

Lemma column_with_heap p h k : column (with_heap p h) k = column p k.
Proof. reflexivity. Qed.

Lemma nth_replace_nth {A} (l : list A) (d v : A) : forall k j,
  nth j (replace_nth k l v) d
  = if Nat.eqb j k then (if Nat.ltb k (length l) then v else d)
    else nth j l d.
Proof.
  induction l as [|x l IH]; intros k j; cbn.
  - destruct k, j; cbn; try reflexivity.
    destruct (Nat.eqb j k); reflexivity.
  - destruct k, j; cbn; try reflexivity.
    rewrite IH. change (S k <? S (length l))%nat with (k <? length l)%nat.
    reflexivity.
Qed.

Lemma column_with_column_other p k col j :
  j <> k -> column (with_column p k col) j = column p j.
Proof.
  intros H. unfold column, with_column. cbn [clusters].
  rewrite nth_replace_nth. destruct (Nat.eqb_spec j k); [contradiction|].
  reflexivity.
Qed.

Lemma column_with_column_same p k col :
  Permutation col (column p k) -> column (with_column p k col) k = col.
Proof.
  intros H. unfold column, with_column in *. cbn [clusters].
  rewrite nth_replace_nth, Nat.eqb_refl.
  destruct (Nat.ltb_spec k (length (clusters p))); [reflexivity|].
  rewrite nth_overflow in H by assumption.
  symmetry in H. apply Permutation_nil in H. now subst.
Qed.

(** Replacing column [k] by a reordering of itself, together with a
    repositioning of its clusters, is a local step. *)
Lemma local_step_reorder p k col h :
  Permutation col (column p k) -> repositions (column p k) (heap p) h ->
  local_step k p (with_column (with_heap p h) k col).
Proof.
  intros Hp Hr. split; [reflexivity|]. split; [reflexivity|].
  split; [intros j Hj; now rewrite column_with_column_other|].
  split; [now rewrite column_with_column_same|exact Hr].
Qed.

Lemma stack_from_repositions col : forall h s d h',
  stack_from h col s d = Ok h' -> repositions col h h'.
Proof.
  induction col as [|c col IH]; cbn [stack_from]; intros h s d h' H.
  - injection H as <-. apply repositions_refl.
  - apply bind_ok in H. destruct H as (h1 & E & H).
    eapply repositions_trans.
    + eapply set_y_pos_repositions; [|exact E]. now left.
    + eapply repositions_incl; [|eapply IH; exact H].
      intros x Hx. now right.
Qed.

Lemma shift_repositions d col : forall h h' (all : list cid),
  incl col all ->
  for_each col (shift_by d) h = Ok h' -> repositions all h h'.
Proof.
  induction col as [|c col IH]; cbn [for_each]; intros h h' all Hi H.
  - injection H as <-. apply repositions_refl.
  - apply bind_ok in H. destruct H as (h1 & E & H).
    unfold shift_by in E. apply bind_ok in E. destruct E as (y & _ & E).
    eapply repositions_trans.
    + eapply set_y_pos_repositions; [|exact E]. apply Hi. now left.
    + eapply IH; [|exact H]. intros x Hx. apply Hi. now right.
Qed.

Lemma distribute_column_heap_repositions h col s h' :
  distribute_column_heap h col s = Ok h' -> repositions col h h'.
Proof.
  unfold distribute_column_heap. intros H.
  apply bind_ok in H. destruct H as (h1 & E1 & H).
  apply bind_ok in H. destruct H as (c0 & _ & H).
  apply bind_ok in H. destruct H as (low & _ & H).
  apply bind_ok in H. destruct H as (cn & _ & H).
  apply bind_ok in H. destruct H as (yn & _ & H).
  eapply repositions_trans.
  - eapply stack_from_repositions; exact E1.
  - eapply shift_repositions; [|exact H]. apply incl_refl.
Qed.

Lemma distribute_column_local p k s p' :
  _distribute_column p k s = Ok p' ->
  local_step k p p' /\ column p' k = column p k /\
  (NoDup (column p k) -> stacked (heap p') s (column p' k)).
Proof.
  unfold _distribute_column. intros H.
  apply bind_ok in H. destruct H as (h' & E & H). injection H as <-.
  split; [|split].
  - split; [reflexivity|]. split; [reflexivity|].
    split; [reflexivity|]. split; [reflexivity|].
    eapply distribute_column_heap_repositions; exact E.
  - reflexivity.
  - intros Hnd. now apply (distribute_column_heap_ok _ _ _ _ Hnd E).
Qed.

(** ** Weights are not changed by the layout *)

Lemma gather_sources_weights h fs : forall wp,
  gather_sources h fs = Ok wp -> map fst wp = source_weights h fs.
Proof.
  induction fs as [|f fs IH]; cbn; intros wp H.
  - injection H as <-. reflexivity.
  - destruct (source_cluster (fl h f)); [|now apply IH].
    apply bind_ok in H. destruct H as (w & Ew & H).
    apply bind_ok in H. destruct H as (r & Er & H). injection H as <-.
    destruct (flux_width (fl h f)); [|discriminate]. injection Ew as ->.
    cbn. f_equal. now apply IH.
Qed.

Lemma weighted_repositions col h h' c :
  repositions col h h' -> weighted h' c = weighted h c.
Proof.
  intros [F R]. unfold weighted, source_weights. rewrite F.
  destruct (R c) as [M _]. destruct M as (_ & _ & _ & _ & _ & -> & _).
  reflexivity.
Qed.

Lemma existsb_perm {A} (f : A -> bool) l l' :
  Permutation l l' -> existsb f l = existsb f l'.
Proof.
  intros H. apply eq_true_iff_eq. rewrite !existsb_exists.
  split; intros (x & Hx & Hf); exists x; split; auto.
  - eapply Permutation_in; eauto.
  - eapply Permutation_in; [symmetry; exact H|exact Hx].
Qed.

Lemma existsb_weighted_repositions col h h' l :
  repositions col h h' -> existsb (weighted h') l = existsb (weighted h) l.
Proof.
  intros R. induction l as [|c l IH]; cbn; [reflexivity|].
  now rewrite IH, (weighted_repositions col h h' c R).
Qed.

(** One turn of the loop over the clusters in a relaxation pass. *)
Lemma relax_cluster_ok h r c h' r' (all : list cid) :
  In c all -> relax_cluster (h, r) c = Ok (h', r') ->
  repositions all h h' /\ r' = orb r (weighted h c) /\
  (weighted h c = false -> h' = h).
Proof.
  intros Hin H. unfold relax_cluster in H.
  apply bind_ok in H. destruct H as (wp & Eg & H).
  unfold weighted. rewrite <- (gather_sources_weights _ _ _ Eg).
  destruct (Qltb 0 (sumQ (map fst wp))).
  - apply bind_ok in H. destruct H as (m & _ & H).
    apply bind_ok in H. destruct H as (h1 & E & H).
    injection H as <- <-. split; [|split].
    + destruct (set_mid_height_ok _ _ _ _ E) as (F & O & M).
      split; [exact F|]. intros c'.
      destruct (Nat.eq_dec c' c) as [->|Hne].
      * split; [exact M|]. intros Hn. contradiction.
      * rewrite O by assumption. split; [apply moved_only_refl|easy].
    + now rewrite orb_true_r.
    + discriminate.
  - injection H as <- <-. split; [apply repositions_refl|].
    split; [now rewrite orb_false_r|reflexivity].
Qed.

(** A whole pass: the flag it returns tells whether the column has a
    cluster of positive incoming weight, and without one the heap is
    left as it was. *)
Lemma relax_pass_ok col : forall h r h' r' (all : list cid),
  incl col all ->
  for_each col relax_cluster (h, r) = Ok (h', r') ->
  repositions all h h' /\ r' = orb r (existsb (weighted h) col) /\
  (existsb (weighted h) col = false -> h' = h).
Proof.
  induction col as [|c col IH]; cbn [for_each existsb];
    intros h r h' r' all Hi H.
  - injection H as <- <-. split; [apply repositions_refl|].
    split; [now rewrite orb_false_r|reflexivity].
  - apply bind_ok in H. destruct H as ([h1 r1] & E & H).
    destruct (relax_cluster_ok h r c h1 r1 all (Hi c (or_introl eq_refl)) E)
      as (R1 & -> & U1).
    destruct (IH h1 _ h' r' all (fun x Hx => Hi x (or_intror Hx)) H)
      as (R2 & -> & U2).
    rewrite (existsb_weighted_repositions all h h1 col R1) in *.
    split; [eapply repositions_trans; eauto|].
    split; [now rewrite orb_assoc|].
    intros Hf. apply orb_false_iff in Hf. destruct Hf as [Hc Hl].
    rewrite (U2 Hl). now apply U1.
Qed.

(** ** The relaxation loop *)

Lemma has_weight_local k p p' :
  local_step k p p' ->
  existsb (weighted (heap p')) (column p' k)
  = existsb (weighted (heap p)) (column p k).
Proof.
  intros (_ & _ & _ & P & R).
  rewrite (existsb_weighted_repositions _ _ _ _ R).
  now apply existsb_perm.
Qed.

Lemma stacked_with_heap_same p k :
  stacked_column p k -> stacked_column (with_heap p (heap p)) k.
Proof. intros H. exact H. Qed.

Lemma relax_loop_ok n k : forall r old p p' tr,
  relax_loop n k r old p = Ok (p', tr) ->
  (r = true -> existsb (weighted (heap p)) (column p k) = true) ->
  local_step k p p' /\
  (NoDup (column p k) -> stacked_column p k -> stacked_column p' k) /\
  tr = if existsb (weighted (heap p)) (column p k)
       then repeat true n
       else match n with O => [] | S _ => [false] end.
Proof.
  induction n as [|n IH]; intros r old p p' tr H Hr; cbn [relax_loop] in H.
  - injection H as <- <-. split; [apply local_step_refl|].
    split; [auto|]. destruct (existsb _ _); reflexivity.
  - apply bind_ok in H. destruct H as ([h moved] & Ep & H).
    destruct (relax_pass_ok _ _ _ _ _ (column p k) (incl_refl _) Ep)
      as (R & Em & Eh).
    cbn [orb] in Em. subst moved.
    destruct (existsb (weighted (heap p)) (column p k)) eqn:Ew.
    + rewrite orb_true_r in H.
      apply bind_ok in H. destruct H as (col1 & Er & H).
      apply bind_ok in H. destruct H as (p2 & Ed & H).
      apply bind_ok in H. destruct H as ([p3 tr'] & El & H).
      injection H as <- <-.
      pose proof (rerank_perm _ _ _ _ Er) as Pc.
      pose proof (local_step_reorder p k col1 h Pc R) as L1.
      destruct (distribute_column_local _ _ _ _ Ed) as (L2 & Ec & St).
      pose proof (local_step_trans _ _ _ _ L1 L2) as L12.
      destruct (IH _ _ _ _ _ El) as (L3 & S3 & T3).
      { intros _. rewrite (has_weight_local _ _ _ L12). exact Ew. }
      rewrite (has_weight_local _ _ _ L12), Ew in T3.
      split; [eapply local_step_trans; eauto|].
      split; [|now rewrite T3].
      intros Hnd _. apply S3.
      * eapply Permutation_NoDup; [|exact Hnd]. symmetry. apply L12.
      * unfold stacked_column.
        replace (cluster_w_spacing p2)
          with (cluster_w_spacing (with_column (with_heap p h) k col1))
          by (symmetry; apply L2).
        apply St. rewrite column_with_column_same by exact Pc.
        eapply Permutation_NoDup; [|exact Hnd]. now symmetry.
    + rewrite orb_false_r in H. specialize (Eh eq_refl). subst h.
      destruct r; [specialize (Hr eq_refl); congruence|].
      injection H as <- <-.
      split; [|split; [auto|reflexivity]].
      split; [reflexivity|]. split; [reflexivity|].
      split; [reflexivity|]. split; [reflexivity|apply repositions_refl].
Qed.

Lemma nth_error_repeat_true n i : nth_error (repeat true n) i <> Some false.
Proof.
  revert i. induction n as [|n IH]; intros [|i]; cbn; try discriminate.
  apply IH.
Qed.

(** C6. In [distribute_clusters] the relaxation loop runs at most
    [_redistribute_vertically] passes, which is 4 when the option is not
    given, and a pass that repositions no cluster (no cluster of the
    column has a positive total weight of incoming fluxes) is not
    followed by another pass. More precisely: if some cluster of the
    column has a positive incoming weight every pass repositions it and
    the whole budget is used, and otherwise the loop stops after its
    first pass. *)
Theorem relaxation_passes_bounded (p : AlluvialPlot) (k : nat)
  (p' : AlluvialPlot) (trace : list bool) :
  distribute_clusters p k = Ok (p', trace) ->
  (length trace <= _redistribute_vertically p)%nat /\
  (_redistribute_vertically p = redistribute_vertically_kwarg None ->
   (length trace <= 4)%nat) /\
  (forall i, nth_error trace i = Some false -> length trace = S i) /\
  (existsb (weighted (heap p)) (column p k) = true ->
   trace = repeat true (_redistribute_vertically p)) /\
  (existsb (weighted (heap p)) (column p k) = false ->
   (length trace <= 1)%nat /\ Forall (fun moved => moved = false) trace).
Proof.
  intros H.
  assert (Hshape :
    trace = (if existsb (weighted (heap p)) (column p k)
             then repeat true (_redistribute_vertically p)
             else match _redistribute_vertically p with
                  | O => []
                  | S _ => [false]
                  end)
    \/ (trace = [] /\ existsb (weighted (heap p)) (column p k) = false)).
  { unfold distribute_clusters in H.
    destruct (length (column p k)) eqn:El.
    - injection H as <- <-. right. split; [reflexivity|].
      destruct (column p k); [reflexivity|discriminate El].
    - left.
      apply bind_ok in H. destruct H as (p2 & Ed & H).
      apply bind_ok in H. destruct H as ([p3 tr] & Er & H).
      apply bind_ok in H. destruct H as (p4 & _ & H).
      apply bind_ok in H. destruct H as (p5 & _ & H).
      apply bind_ok in H. destruct H as (p6 & _ & H).
      injection H as _ <-.
      set (col1 := interleave _) in Ed.
      assert (Pc : Permutation col1 (column p k)).
      { unfold col1. rewrite interleave_perm. apply sorted_by_perm. }
      pose proof (local_step_reorder p k col1 (heap p) Pc
                    (repositions_refl _ _)) as L1.
      destruct (distribute_column_local _ _ _ _ Ed) as (L2 & _ & _).
      pose proof (local_step_trans _ _ _ _ L1 L2) as L12.
      destruct (relax_loop_ok _ _ _ _ _ _ _ Er) as (_ & _ & T);
        [discriminate|].
      rewrite (has_weight_local _ _ _ L12) in T.
      replace (_redistribute_vertically p2)
        with (_redistribute_vertically p) in T
        by (symmetry; apply L12).
      exact T. }
  assert (Hlen : (length trace <= _redistribute_vertically p)%nat).
  { destruct Hshape as [-> | [-> _]]; [|cbn; lia].
    destruct (existsb _ _); [now rewrite repeat_length|].
    destruct (_redistribute_vertically p); cbn; lia. }
  split; [exact Hlen|].
  split; [intros E; rewrite E in Hlen; exact Hlen|].
  split; [|split].
  - intros i Hi. destruct Hshape as [-> | [-> _]];
      [|destruct i; discriminate Hi].
    destruct (existsb _ _).
    + exfalso. exact (nth_error_repeat_true _ _ Hi).
    + destruct (_redistribute_vertically p); [destruct i; discriminate Hi|].
      destruct i as [|[|i]]; cbn in Hi; [reflexivity|discriminate|discriminate].
  - intros Ew. destruct Hshape as [-> | [_ E]]; [|congruence].
    now rewrite Ew.
  - intros Ew. destruct Hshape as [-> | [-> _]];
      [|split; [cbn; lia|constructor]].
    rewrite Ew. destruct (_redistribute_vertically p); cbn;
      split; try lia; repeat constructor.
Qed.

Lemma relaxation_passes_bounded_witness :
  exists p' trace,
    distribute_clusters sample_plot_first 1 = Ok (p', trace) /\
    (length trace <= _redistribute_vertically sample_plot_first)%nat /\
    (_redistribute_vertically sample_plot_first = redistribute_vertically_kwarg None ->
     (length trace <= 4)%nat) /\
    (forall i, nth_error trace i = Some false -> length trace = S i) /\
    (existsb (weighted (heap sample_plot_first)) (column sample_plot_first 1) = true ->
     trace = repeat true (_redistribute_vertically sample_plot_first)) /\
    (existsb (weighted (heap sample_plot_first)) (column sample_plot_first 1) = false ->
     (length trace <= 1)%nat /\ Forall (fun moved => moved = false) trace).
Proof.
  destruct (distribute_clusters sample_plot_first 1) as [[p' trace]|e] eqn:E;
    [|vm_compute in E; discriminate E].
  exists p', trace. split; [reflexivity|].
  apply (relaxation_passes_bounded sample_plot_first 1 p' trace E).
Defined.

(** ** Adjacent swaps keep a column stacked *)

Lemma keeps_stack_refl k p : keeps_stack k p p.
Proof. split; [apply local_step_refl|auto]. Qed.

Lemma keeps_stack_trans k p1 p2 p3 :
  keeps_stack k p1 p2 -> keeps_stack k p2 p3 -> keeps_stack k p1 p3.
Proof.
  intros [L1 S1] [L2 S2]. split; [eapply local_step_trans; eauto|].
  intros Hnd Hs. apply S2; [|now apply S1].
  eapply Permutation_NoDup; [|exact Hnd]. symmetry. apply L1.
Qed.

Lemma for_each_keeps {A} k (body : AlluvialPlot -> A -> result AlluvialPlot)
  (l : list A) :
  (forall p x p', body p x = Ok p' -> keeps_stack k p p') ->
  forall p p', for_each l body p = Ok p' -> keeps_stack k p p'.
Proof.
  intros Hb. induction l as [|x l IH]; cbn [for_each]; intros p p' H.
  - injection H as <-. apply keeps_stack_refl.
  - apply bind_ok in H. destruct H as (p1 & E & H).
    eapply keeps_stack_trans; [eapply Hb; exact E|now apply IH].
Qed.

Lemma repeat_n_keeps k (body : AlluvialPlot -> result AlluvialPlot) n :
  (forall p p', body p = Ok p' -> keeps_stack k p p') ->
  forall p p', repeat_n n body p = Ok p' -> keeps_stack k p p'.
Proof.
  intros Hb. induction n as [|n IH]; cbn [repeat_n]; intros p p' H.
  - injection H as <-. apply keeps_stack_refl.
  - apply bind_ok in H. destruct H as (p1 & E & H).
    eapply keeps_stack_trans; [eapply Hb; exact E|now apply IH].
Qed.

(** What the two moves of an accepted swap do. *)
Lemma exchange_positions_ok h s n1 n2 h' y1 :
  y_pos (cl h n1) = Some y1 -> n1 <> n2 ->
  exchange_positions h s n1 n2 = Ok h' ->
  y_pos (cl h' n2) = Some y1 /\
  y_pos (cl h' n1) = Some (y1 + height (cl h n2) + s) /\
  (forall c, c <> n1 -> c <> n2 -> cl h' c = cl h c) /\
  (forall c, height (cl h' c) = height (cl h c)) /\
  forall all, In n1 all -> In n2 all -> repositions all h h'.
Proof.
  intros Hy Hne H. unfold exchange_positions in H. rewrite Hy in H.
  apply bind_ok in H. destruct H as (h1 & E1 & H).
  destruct (set_y_pos_ok _ _ _ _ E1) as (F1 & O1 & M1 & Y1 & _).
  rewrite Y1 in H. cbn [num bind] in H.
  destruct (set_y_pos_ok _ _ _ _ H) as (F2 & O2 & M2 & Y2 & _).
  assert (Hh1 : height (cl h1 n2) = height (cl h n2)) by apply M1.
  split; [rewrite O2 by congruence; exact Y1|].
  split; [rewrite Y2, Hh1; reflexivity|].
  split; [intros c H1 H2; rewrite O2, O1; auto|].
  assert (R : forall all, In n1 all -> In n2 all -> repositions all h h').
  { intros all I1 I2. eapply repositions_trans.
    - eapply set_y_pos_repositions; [exact I2|exact E1].
    - eapply set_y_pos_repositions; [exact I1|exact H]. }
  split; [|exact R].
  intros c. destruct (R [n1; n2]) as [_ Rc]; [now left|right; now left|].
  destruct (Rc c) as [M _]. apply M.
Qed.

Lemma exchange_chain h s n1 n2 h' : forall i col y,
  chain h s y col -> NoDup col ->
  nth_error col i = Some n1 -> nth_error col (S i) = Some n2 ->
  exchange_positions h s n1 n2 = Ok h' ->
  chain h' s y (replace_nth (S i) (replace_nth i col n2) n1).
Proof.
  induction i as [|i IH]; intros col y C Hnd H1 H2 E.
  - destruct col as [|a [|b rest]]; try discriminate.
    cbn in H1, H2. injection H1 as ->. injection H2 as ->.
    cbn [replace_nth]. cbn [chain] in C.
    destruct C as (y1 & Y1 & Q1 & y2 & Y2 & Q2 & C).
    inversion Hnd as [|? ? N1 Hnd']; subst.
    inversion Hnd' as [|? ? N2 _]; subst.
    assert (Hne : n1 <> n2) by (intros ->; apply N1; now left).
    destruct (exchange_positions_ok _ _ _ _ _ _ Y1 Hne E)
      as (E2 & E1 & O & Hh & _).
    cbn [chain]. exists y1. split; [exact E2|]. split; [exact Q1|].
    exists (y1 + height (cl h n2) + s). split; [exact E1|].
    split; [now rewrite Hh|].
    apply chain_start with (y := y2 + height (cl h n2) + s).
    + rewrite Q2, !Hh. ring.
    + apply chain_frame with (h := h); [|exact C].
      intros c Hc. rewrite O; [auto| |].
      * intros ->. apply N1. now right.
      * intros ->. exact (N2 Hc).
  - destruct col as [|a col]; [discriminate|].
    change (nth_error col i = Some n1) in H1.
    change (nth_error col (S i) = Some n2) in H2. cbn [replace_nth].
    cbn [chain] in C. destruct C as (ya & Ya & Qa & C).
    inversion Hnd as [|? ? Na Hnd']; subst.
    assert (Hne : n1 <> n2).
    { intros ->.
      assert (Hi : i = S i); [|lia].
      apply (proj1 (NoDup_nth_error col) Hnd' i (S i)).
      - apply nth_error_Some. rewrite H1. discriminate.
      - rewrite H1, H2. reflexivity. }
    destruct (chain_positioned _ _ _ _ C n1 (nth_error_In _ _ H1))
      as [y1 Y1].
    destruct (exchange_positions_ok _ _ _ _ _ _ Y1 Hne E)
      as (_ & _ & O & Hh & _).
    assert (Ea : cl h' a = cl h a).
    { apply O; intros ->; apply Na; eapply nth_error_In; eauto. }
    cbn [chain]. exists ya. rewrite Ea. split; [exact Ya|].
    split; [exact Qa|]. now apply IH.
Qed.

Lemma replace_swap_perm {A} (n1 n2 : A) : forall i col,
  nth_error col i = Some n1 -> nth_error col (S i) = Some n2 ->
  Permutation (replace_nth (S i) (replace_nth i col n2) n1) col.
Proof.
  induction i as [|i IH]; intros col H1 H2.
  - destruct col as [|a [|b rest]]; try discriminate.
    cbn in H1, H2. injection H1 as ->. injection H2 as ->.
    cbn. apply perm_swap.
  - destruct col as [|a col]; [discriminate|].
    change (nth_error col i = Some n1) in H1.
    change (nth_error col (S i) = Some n2) in H2. cbn [replace_nth]. constructor.
    now apply IH.
Qed.

Lemma item_nth_error {A} (l : list A) i x :
  item l i = Ok x -> nth_error l i = Some x.
Proof.
  unfold item. destruct (nth_error l i); [|discriminate].
  intros H. now injection H as ->.
Qed.

(** One swap step, accepted or not. *)
Lemma swap_step_keeps k d p i p' :
  swap_step k d p i = Ok p' -> keeps_stack k p p'.
Proof.
  unfold swap_step. intros H.
  apply bind_ok in H. destruct H as (n1 & E1 & H).
  apply bind_ok in H. destruct H as (n2 & E2 & H).
  apply bind_ok in H. destruct H as (b & _ & H).
  apply item_nth_error in E1, E2.
  destruct b; [|injection H as <-; apply keeps_stack_refl].
  apply bind_ok in H. destruct H as (h' & E & H). injection H as <-.
  pose proof (replace_swap_perm n1 n2 i (column p k) E1 E2) as Pc.
  split.
  - apply local_step_reorder; [exact Pc|].
    unfold exchange_positions in E.
    apply bind_ok in E. destruct E as (h1 & Ea & E).
    apply bind_ok in E. destruct E as (y2 & Ey & E).
    destruct (y_pos (cl (heap p) n1)) as [y1|] eqn:Y1.
    + eapply repositions_trans.
      * eapply set_y_pos_repositions; [|exact Ea].
        eapply nth_error_In; eauto.
      * eapply set_y_pos_repositions; [|exact E].
        eapply nth_error_In; eauto.
    + unfold set_y_pos in Ea. cbn zeta in Ea. injection Ea as <-.
      cbn [cl put_cluster] in Ey. rewrite upd_same in Ey.
      cbn in Ey. discriminate Ey.
  - intros Hnd [y C]. exists y. unfold stacked_column.
    rewrite column_with_column_same by exact Pc.
    cbn [heap with_column with_heap cluster_w_spacing].
    eapply exchange_chain; eauto.
Qed.

Lemma sweep_up_keeps k d p p' :
  sweep_up k d p = Ok p' -> keeps_stack k p p'.
Proof.
  unfold sweep_up. apply for_each_keeps.
  intros q x q'. apply swap_step_keeps.
Qed.

Lemma sweep_down_keeps k d p p' :
  sweep_down k d p = Ok p' -> keeps_stack k p p'.
Proof.
  unfold sweep_down. apply for_each_keeps.
  intros q x q'. apply swap_step_keeps.
Qed.

(** ** The layout of one column *)

Lemma update_y_lim_same p k p' :
  update_y_lim p k = Ok p' ->
  heap p' = heap p /\ clusters p' = clusters p /\
  cluster_w_spacing p' = cluster_w_spacing p /\
  _redistribute_vertically p' = _redistribute_vertically p.
Proof.
  unfold update_y_lim. intros H.
  apply bind_ok in H. destruct H as (ys & _ & H).
  apply bind_ok in H. destruct H as (c0 & _ & H).
  injection H as <-. repeat split.
Qed.

Lemma update_y_lim_keeps p k p' :
  update_y_lim p k = Ok p' -> keeps_stack k p p'.
Proof.
  intros H. destruct (update_y_lim_same _ _ _ H) as (Eh & Ec & Es & Eb).
  unfold keeps_stack, local_step, stacked_column, column.
  rewrite Eh, Ec, Es, Eb.
  split; [|auto].
  split; [reflexivity|]. split; [reflexivity|]. split; [reflexivity|].
  split; [reflexivity|apply repositions_refl].
Qed.

(** [distribute_clusters] stays within its column and leaves it
    stacked. *)
Lemma distribute_clusters_stacks p k p' tr :
  distribute_clusters p k = Ok (p', tr) ->
  local_step k p p' /\ (NoDup (column p k) -> stacked_column p' k).
Proof.
  unfold distribute_clusters. intros H.
  destruct (length (column p k)) eqn:El.
  - injection H as <- _. split; [apply local_step_refl|].
    intros _. destruct (column p k) eqn:Ec; [|discriminate El].
    unfold stacked_column. rewrite Ec. exists 0. exact I.
  - apply bind_ok in H. destruct H as (p2 & Ed & H).
    apply bind_ok in H. destruct H as ([p3 tr3] & Er & H).
    apply bind_ok in H. destruct H as (p4 & E4 & H).
    apply bind_ok in H. destruct H as (p5 & E5 & H).
    apply bind_ok in H. destruct H as (p6 & E6 & H).
    injection H as <- _.
    set (col1 := interleave _) in Ed.
    assert (Pc : Permutation col1 (column p k)).
    { unfold col1. rewrite interleave_perm. apply sorted_by_perm. }
    pose proof (local_step_reorder p k col1 (heap p) Pc
                  (repositions_refl _ _)) as L1.
    destruct (distribute_column_local _ _ _ _ Ed) as (L2 & _ & St).
    destruct (relax_loop_ok _ _ _ _ _ _ _ Er) as (L3 & S3 & _);
      [discriminate|].
    pose proof (repeat_n_keeps k _ _ (sweep_up_keeps k backwards) _ _ E4)
      as K4.
    pose proof (repeat_n_keeps k _ _ (sweep_down_keeps k backwards) _ _ E5)
      as K5.
    pose proof (update_y_lim_keeps _ _ _ E6) as K6.
    pose proof (keeps_stack_trans _ _ _ _ K4
                  (keeps_stack_trans _ _ _ _ K5 K6)) as [L46 S46].
    pose proof (local_step_trans _ _ _ _ L1 L2) as L12.
    pose proof (local_step_trans _ _ _ _ L12 L3) as L13.
    split; [eapply local_step_trans; eauto|].
    intros Hnd.
    assert (Hnd2 : NoDup (column p2 k)).
    { eapply Permutation_NoDup; [|exact Hnd]. symmetry. apply L12. }
    apply S46.
    + eapply Permutation_NoDup; [|exact Hnd]. symmetry. apply L13.
    + apply S3; [exact Hnd2|].
      unfold stacked_column.
      replace (cluster_w_spacing p2)
        with (cluster_w_spacing (with_column p k col1))
        by (symmetry; apply L2).
      apply St.
      change (column (with_column p k col1) k)
        with (column (with_column (with_heap p (heap p)) k col1) k).
      rewrite column_with_column_same by exact Pc.
      eapply Permutation_NoDup; [|exact Hnd]. now symmetry.
Qed.

(** ** Clusters without influx *)

Lemma move_cluster_ok h r c h' r' (all : list cid) :
  In c all -> move_cluster (h, r) c = Ok (h', r') ->
  repositions all h h' /\ (r' = false -> h' = h).
Proof.
  intros Hin H. unfold move_cluster in H.
  apply bind_ok in H. destruct H as (ws & _ & H).
  destruct (Qeq_bool (sumQ ws) 0);
    [|injection H as <- <-; split; [apply repositions_refl|reflexivity]].
  apply bind_ok in H. destruct H as (wp & _ & H).
  destruct (Qltb 0 (sumQ (map fst wp)));
    [|injection H as <- <-; split; [apply repositions_refl|reflexivity]].
  apply bind_ok in H. destruct H as (m & _ & H).
  apply bind_ok in H. destruct H as (h1 & E & H).
  injection H as <- <-. split; [|discriminate].
  destruct (set_mid_height_ok _ _ _ _ E) as (F & O & M).
  split; [exact F|]. intros c'.
  destruct (Nat.eq_dec c' c) as [->|Hne].
  - split; [exact M|]. intros Hn. contradiction.
  - rewrite O by assumption. split; [apply moved_only_refl|easy].
Qed.

Lemma move_pass_ok col : forall h r h' r' (all : list cid),
  incl col all ->
  for_each col move_cluster (h, r) = Ok (h', r') ->
  repositions all h h' /\ (r' = false -> h' = h).
Proof.
  induction col as [|c col IH]; cbn [for_each]; intros h r h' r' all Hi H.
  - injection H as <- <-. split; [apply repositions_refl|reflexivity].
  - apply bind_ok in H. destruct H as ([h1 r1] & E & H).
    destruct (move_cluster_ok h r c h1 r1 all (Hi c (or_introl eq_refl)) E)
      as (R1 & U1).
    destruct (IH h1 r1 h' r' all (fun x Hx => Hi x (or_intror Hx)) H)
      as (R2 & U2).
    split; [eapply repositions_trans; eauto|].
    intros Hf. specialize (U2 Hf). subst h1.
    apply U1.
    (* the flag never goes back to False *)
    clear -H Hf. revert H. generalize h' at 1.
    revert r1. induction col as [|c col IH]; cbn [for_each]; intros r1 h0 H.
    + now injection H as _ <-.
    + apply bind_ok in H. destruct H as ([h2 r2] & E & H).
      specialize (IH _ _ H). subst r2.
      unfold move_cluster in E.
      apply bind_ok in E. destruct E as (ws & _ & E).
      destruct (Qeq_bool (sumQ ws) 0); [|now injection E as _ <-].
      apply bind_ok in E. destruct E as (wp & _ & E).
      destruct (Qltb 0 (sumQ (map fst wp))); [|now injection E as _ <-].
      apply bind_ok in E. destruct E as (m & _ & E).
      apply bind_ok in E. destruct E as (h3 & _ & E).
      injection E as _ E. discriminate E.
Qed.

Lemma move_new_clusters_keeps p k p' :
  _move_new_clusters p k = Ok p' -> keeps_stack k p p'.
Proof.
  unfold _move_new_clusters. intros H.
  apply bind_ok in H. destruct H as ([h r] & Ep & H).
  destruct (move_pass_ok _ _ _ _ _ (column p k) (incl_refl _) Ep)
    as (R & U).
  destruct r.
  - apply bind_ok in H. destruct H as (col1 & Er & H).
    pose proof (rerank_perm _ _ _ _ Er) as Pc.
    pose proof (local_step_reorder p k col1 h Pc R) as L1.
    destruct (distribute_column_local _ _ _ _ H) as (L2 & _ & St).
    split; [eapply local_step_trans; eauto|].
    intros Hnd _. unfold stacked_column.
    replace (cluster_w_spacing p') with (cluster_w_spacing p)
      by (symmetry; apply (local_step_trans _ _ _ _ L1 L2)).
    apply St. rewrite column_with_column_same by exact Pc.
    eapply Permutation_NoDup; [|exact Hnd]. now symmetry.
  - injection H as <-. rewrite (U eq_refl).
    split; [|auto].
    split; [reflexivity|]. split; [reflexivity|]. split; [reflexivity|].
    split; [reflexivity|apply repositions_refl].
Qed.

Lemma forward_swaps_keeps p k p' :
  forward_swaps p k = Ok p' -> keeps_stack k p p'.
Proof.
  unfold forward_swaps. apply repeat_n_keeps.
  intros q q'. apply sweep_down_keeps.
Qed.

(** ** The layout pass as a whole *)

Lemma NoDup_app_disjoint {A} (l m : list A) x :
  NoDup (l ++ m) -> In x l -> In x m -> False.
Proof.
  induction l as [|a l IH]; cbn; intros Hnd Hl Hm; [easy|].
  inversion Hnd as [|? ? Hn Hnd']; subst. destruct Hl as [->|Hl].
  - apply Hn, in_or_app. now right.
  - now apply IH.
Qed.

Lemma distinct_of_concat p :
  NoDup (concat (clusters p)) -> distinct_columns p.
Proof.
  unfold distinct_columns, column. generalize (clusters p) as ls.
  induction ls as [|l ls IH]; intros Hnd.
  - split; [intros [|k]; constructor|]. intros [|j] [|k] c _ H; destruct H.
  - cbn [concat] in Hnd.
    destruct (IH (NoDup_app_remove_l _ _ Hnd)) as [N D].
    assert (Hin : forall k c, In c (nth k ls []) -> In c (concat ls)).
    { intros k c Hc. apply in_concat. exists (nth k ls []). split; auto.
      destruct (Nat.lt_ge_cases k (length ls)) as [Hk|Hk];
        [now apply nth_In|].
      rewrite nth_overflow in Hc by assumption. destruct Hc. }
    split.
    + intros [|k]; cbn [nth]; [|apply N].
      eapply NoDup_app_remove_r; exact Hnd.
    + intros [|j] [|k] c Hne Hj Hk; cbn [nth] in *.
      * now apply Hne.
      * eapply NoDup_app_disjoint; eauto.
      * eapply NoDup_app_disjoint; eauto.
      * apply (D j k c); auto.
Qed.

Lemma local_step_relayout k p p' : local_step k p p' -> relayout p p'.
Proof.
  intros (S & _ & O & P & R). split; [exact S|]. split.
  - intros j. destruct (Nat.eq_dec j k) as [->|Hne]; [exact P|].
    now rewrite O.
  - intros c. destruct R as [_ R]. destruct (R c) as [M _]. apply M.
Qed.

Lemma relayout_refl p : relayout p p.
Proof. repeat split; reflexivity. Qed.

Lemma relayout_trans p1 p2 p3 :
  relayout p1 p2 -> relayout p2 p3 -> relayout p1 p3.
Proof.
  intros (S1 & P1 & H1) (S2 & P2 & H2). split; [congruence|]. split.
  - intros k. now rewrite P2.
  - intros c. now rewrite H2.
Qed.

Lemma distinct_relayout p p' :
  relayout p p' -> distinct_columns p -> distinct_columns p'.
Proof.
  intros (_ & P & _) [N D]. split.
  - intros k. eapply Permutation_NoDup; [symmetry; apply P|apply N].
  - intros j k c Hne Hj Hk. apply (D j k c Hne).
    + eapply Permutation_in; [apply P|exact Hj].
    + eapply Permutation_in; [apply P|exact Hk].
Qed.

(** A step within column [k] leaves the other columns as they are. *)
Lemma local_step_other k p p' j :
  distinct_columns p -> local_step k p p' -> j <> k ->
  stacked_column p j -> stacked_column p' j.
Proof.
  intros [_ D] (S & _ & O & _ & R) Hne [y C]. exists y.
  rewrite S, (O j Hne). apply chain_frame with (h := heap p); [|exact C].
  intros c Hc. destruct R as [_ R]. destruct (R c) as [_ U].
  rewrite U; [auto|]. now apply (D j k c Hne).
Qed.

Lemma stage_ok (op : AlluvialPlot -> nat -> result AlluvialPlot) :
  (forall p k p', op p k = Ok p' -> keeps_stack k p p') ->
  forall ks p p',
    distinct_columns p -> for_each ks op p = Ok p' ->
    distinct_columns p' /\ relayout p p' /\
    (forall j, stacked_column p j -> stacked_column p' j) /\
    ((forall p k p', op p k = Ok p' -> NoDup (column p k) ->
                     stacked_column p' k) ->
     forall j, In j ks -> stacked_column p' j).
Proof.
  intros Hk. induction ks as [|k ks IH]; cbn [for_each]; intros p p' Hd H.
  - injection H as <-. split; [exact Hd|]. split; [apply relayout_refl|].
    split; [auto|]. intros _ j [].
  - apply bind_ok in H. destruct H as (p1 & E & H).
    destruct (Hk _ _ _ E) as [L K].
    pose proof (local_step_relayout _ _ _ L) as R1.
    pose proof (distinct_relayout _ _ R1 Hd) as Hd1.
    destruct (IH _ _ Hd1 H) as (Hd' & R2 & Keep & Est).
    split; [exact Hd'|]. split; [eapply relayout_trans; eauto|].
    assert (Keep1 : forall j, stacked_column p j -> stacked_column p1 j).
    { intros j Hs. destruct (Nat.eq_dec j k) as [->|Hne].
      - apply K; [apply Hd|exact Hs].
      - apply (local_step_other k p p1 j Hd L Hne Hs). }
    split; [intros j Hs; apply Keep, Keep1, Hs|].
    intros He j Hin.
    destruct (in_dec Nat.eq_dec j ks) as [Hj|Hj]; [now apply Est|].
    destruct Hin as [<-|Hin]; [|contradiction].
    apply Keep. eapply He; [exact E|apply Hd].
Qed.

Lemma chain_adjacent h s : forall col y i c c',
  chain h s y col ->
  nth_error col i = Some c -> nth_error col (S i) = Some c' ->
  exists yc yc',
    y_pos (cl h c) = Some yc /\ y_pos (cl h c') = Some yc' /\
    yc + height (cl h c) + s == yc'.
Proof.
  induction col as [|a col IH]; intros y i c c' C H1 H2;
    [destruct i; discriminate|].
  cbn [chain] in C. destruct C as (ya & Ya & _ & C).
  destruct i as [|i].
  - cbn in H1. injection H1 as <-.
    destruct col as [|b col]; [discriminate|].
    cbn in H2. injection H2 as <-.
    cbn [chain] in C. destruct C as (yb & Yb & Qb & _).
    exists ya, yb. repeat split; auto. now symmetry.
  - apply (IH _ i c c' C); assumption.
Qed.

Lemma chain_ordered h s : forall col y i j c c',
  0 <= s -> (forall x, In x col -> 0 <= height (cl h x)) ->
  chain h s y col -> (i < j)%nat ->
  nth_error col i = Some c -> nth_error col j = Some c' ->
  exists yc yc',
    y_pos (cl h c) = Some yc /\ y_pos (cl h c') = Some yc' /\
    yc + height (cl h c) + s <= yc'.
Proof.
  induction col as [|a col IH]; intros y i j c c' Hs Hh C Hij H1 H2;
    [destruct i; discriminate|].
  cbn [chain] in C. destruct C as (ya & Ya & _ & C).
  assert (Hh' : forall x, In x col -> 0 <= height (cl h x))
    by (intros x Hx; apply Hh; now right).
  destruct j as [|j]; [lia|]. change (nth_error col j = Some c') in H2.
  destruct i as [|i].
  - cbn in H1. injection H1 as <-.
    destruct (chain_lower h s col Hs Hh' _ C c' (nth_error_In _ _ H2))
      as (yc' & Yc' & Hle).
    exists ya, yc'. auto.
  - change (nth_error col i = Some c) in H1.
    apply (IH _ i j c c' Hs Hh' C); [lia|assumption|assumption].
Qed.

Lemma layout_stacks p p' :
  NoDup (concat (clusters p)) -> layout p = Ok p' ->
  distinct_columns p' /\ relayout p p' /\ forall k, stacked_column p' k.
Proof.
  intros Hnd H. unfold layout in H.
  apply bind_ok in H. destruct H as (p1 & E1 & H).
  apply bind_ok in H. destruct H as (p2 & E2 & H).
  pose proof (distinct_of_concat _ Hnd) as D0.
  assert (K1 : forall q k q',
             ('(q1, _) <- distribute_clusters q k ;; Ok q1) = Ok q' ->
             local_step k q q' /\ (NoDup (column q k) -> stacked_column q' k)).
  { intros q k q' Hq. apply bind_ok in Hq.
    destruct Hq as ([q1 tr] & Eq & Hq). injection Hq as <-.
    eapply distribute_clusters_stacks; exact Eq. }
  destruct (stage_ok _ (fun q k q' Hq =>
                          conj (proj1 (K1 q k q' Hq))
                               (fun Hn _ => proj2 (K1 q k q' Hq) Hn))
              _ _ _ D0 E1) as (D1 & R1 & _ & Est).
  specialize (Est (fun q k q' Hq => proj2 (K1 q k q' Hq))).
  destruct (stage_ok _ move_new_clusters_keeps _ _ _ D1 E2)
    as (D2 & R2 & Keep2 & _).
  destruct (stage_ok _ forward_swaps_keeps _ _ _ D2 H)
    as (D3 & R3 & Keep3 & _).
  split; [exact D3|].
  split; [eapply relayout_trans; [exact R1|eapply relayout_trans; eauto]|].
  intros k. apply Keep3, Keep2.
  destruct (Nat.lt_ge_cases k (length (clusters p))) as [Hk|Hk].
  - apply Est. apply in_seq. lia.
  - assert (Ec : column p1 k = []).
    { destruct R1 as (_ & P & _). specialize (P k).
      unfold column at 2 in P. rewrite nth_overflow in P by assumption.
      symmetry in P. now apply Permutation_nil in P. }
    unfold stacked_column. rewrite Ec. exists 0. exact I.
Qed.

(** The stacking invariant of the layout pass in exact arithmetic
    (the positions that the code computes are doubles, for which the
    equality holds only up to rounding). After the layout pass, on
    columns of distinct clusters, the
    columns hold the same clusters as before and in every column each
    cluster starts one spacing above the top of the cluster before it:
    [y_pos + height + spacing] of a cluster equals [y_pos] of the next.
    For non-negative heights and spacing the clusters of a column are
    therefore ordered by [y_pos] and the vertical intervals of two
    clusters of a column do not overlap. Every swap step, accepted or
    not, keeps a stacked column stacked. *)
Theorem layout_columns_stacked (p p' : AlluvialPlot) :
  NoDup (concat (clusters p)) -> layout p = Ok p' ->
  relayout p p' /\
  (forall k, stacked_column p' k) /\
  (forall k i c c',
     nth_error (column p' k) i = Some c ->
     nth_error (column p' k) (S i) = Some c' ->
     exists y y',
       y_pos (cl (heap p') c) = Some y /\
       y_pos (cl (heap p') c') = Some y' /\
       y + height (cl (heap p') c) + cluster_w_spacing p' == y') /\
  (0 <= cluster_w_spacing p ->
   (forall k c, In c (column p k) -> 0 <= height (cl (heap p) c)) ->
   forall k i j c c',
     (i < j)%nat ->
     nth_error (column p' k) i = Some c ->
     nth_error (column p' k) j = Some c' ->
     exists y y',
       y_pos (cl (heap p') c) = Some y /\
       y_pos (cl (heap p') c') = Some y' /\
       y <= y' /\ y + height (cl (heap p') c) <= y') /\
  (forall q k d i q',
     NoDup (column q k) -> stacked_column q k ->
     swap_step k d q i = Ok q' -> stacked_column q' k).
Proof.
  intros Hnd H.
  destruct (layout_stacks p p' Hnd H) as (D & R & S).
  split; [exact R|]. split; [exact S|]. split; [|split].
  - intros k i c c' H1 H2. destruct (S k) as [y C].
    eapply chain_adjacent; eauto.
  - intros Hs Hh k i j c c' Hij H1 H2. destruct (S k) as [y C].
    destruct R as (Rs & Rp & Rh).
    assert (Hh' : forall x, In x (column p' k) ->
                            0 <= height (cl (heap p') x)).
    { intros x Hx. rewrite Rh. apply (Hh k).
      eapply Permutation_in; [apply Rp|exact Hx]. }
    assert (Hs' : 0 <= cluster_w_spacing p') by now rewrite Rs.
    destruct (chain_ordered _ _ _ _ i j c c' Hs' Hh' C Hij H1 H2)
      as (yc & yc' & Y1 & Y2 & Hle).
    exists yc, yc'. split; [exact Y1|]. split; [exact Y2|].
    pose proof (Hh' c (nth_error_In _ _ H1)). split; lra.
  - intros q k d i q' Hn Hs Hq.
    apply (proj2 (swap_step_keeps _ _ _ _ _ Hq) Hn Hs).
Qed.

Lemma layout_columns_stacked_witness :
  exists p',
    layout sample_plot = Ok p' /\
    relayout sample_plot p' /\
    (forall k, stacked_column p' k) /\
    (forall k i c c',
       nth_error (column p' k) i = Some c ->
       nth_error (column p' k) (S i) = Some c' ->
       exists y y',
         y_pos (cl (heap p') c) = Some y /\
         y_pos (cl (heap p') c') = Some y' /\
         y + height (cl (heap p') c) + cluster_w_spacing p' == y') /\
    (0 <= cluster_w_spacing sample_plot ->
     (forall k c, In c (column sample_plot k) ->
                  0 <= height (cl (heap sample_plot) c)) ->
     forall k i j c c',
       (i < j)%nat ->
       nth_error (column p' k) i = Some c ->
       nth_error (column p' k) j = Some c' ->
       exists y y',
         y_pos (cl (heap p') c) = Some y /\
         y_pos (cl (heap p') c') = Some y' /\
         y <= y' /\ y + height (cl (heap p') c) <= y') /\
    (forall q k d i q',
       NoDup (column q k) -> stacked_column q k ->
       swap_step k d q i = Ok q' -> stacked_column q' k).
Proof.
  destruct (layout sample_plot) as [p'|e] eqn:E;
    [|vm_compute in E; discriminate E].
  exists p'. split; [reflexivity|].
  apply (layout_columns_stacked sample_plot p').
  - cbn. repeat constructor; cbn; intuition discriminate.
  - exact E.
Defined.

(** * Further properties of the code *)

(** ** The initial order of a column *)

Lemma StronglySorted_app {A} (R : A -> A -> Prop) l1 l2 :
  StronglySorted R l1 -> StronglySorted R l2 ->
  (forall a b, In a l1 -> In b l2 -> R a b) ->
  StronglySorted R (l1 ++ l2).
Proof.
  induction 1 as [|x l1 Hs IH Hf]; cbn; intros H2 H12; [exact H2|].
  constructor.
  - apply IH; [exact H2|]. intros a b Ha Hb. apply H12; [now right|exact Hb].
  - apply Forall_app. split; [exact Hf|].
    apply Forall_forall. intros b Hb. apply H12; [now left|exact Hb].
Qed.

Lemma StronglySorted_rev {A} (R : A -> A -> Prop) l :
  StronglySorted R l -> StronglySorted (fun a b => R b a) (rev l).
Proof.
  induction 1 as [|x l Hs IH Hf]; cbn; [constructor|].
  apply StronglySorted_app; [exact IH|repeat constructor|].
  intros a b Ha [<-|[]]. rewrite Forall_forall in Hf.
  apply Hf. now apply in_rev.
Qed.

Lemma every_other_incl {A} (l : list A) : incl (every_other l) l.
Proof.
  induction l as [| x | x y l IH] using pair_induction;
    [easy|easy|].
  intros a [<-|Ha]; [now left|]. right. right. now apply IH.
Qed.

Lemma StronglySorted_every_other {A} (R : A -> A -> Prop) l :
  StronglySorted R l -> StronglySorted R (every_other l).
Proof.
  induction l as [| x | x y l IH] using pair_induction; intros H;
    [constructor|exact H|].
  inversion H as [|? ? H1 F1]; subst. inversion H1 as [|? ? H2 F2]; subst.
  change (every_other (x :: y :: l)) with (x :: every_other l).
  constructor; [now apply IH|].
  inversion F1 as [|? ? _ F1']; subst.
  rewrite Forall_forall in *. intros a Ha. apply F1'.
  now apply every_other_incl.
Qed.

Lemma StronglySorted_skipn {A} (R : A -> A -> Prop) n : forall l,
  StronglySorted R l -> StronglySorted R (skipn n l).
Proof.
  induction n as [|n IH]; intros l H; [exact H|].
  destruct l as [|x l]; [constructor|]. cbn [skipn]. apply IH.
  now inversion H.
Qed.

(** X1. The order in which [distribute_clusters] first stacks a column
    (sort by height, then interleave) is a reordering of the column in
    which the heights first rise and then fall: the column is the
    concatenation of a part with ascending heights and a part with
    descending heights. *)
Theorem initial_order_rises_then_falls (h : Heap) (col : list cid) :
  let le := fun a b => Qle_bool (height (cl h a)) (height (cl h b)) in
  Permutation (interleave (sorted_by le col)) col /\
  exists up down,
    interleave (sorted_by le col) = up ++ down /\
    StronglySorted (fun a b => height (cl h a) <= height (cl h b)) up /\
    StronglySorted (fun a b => height (cl h b) <= height (cl h a)) down.
Proof.
  intros le. split.
  { rewrite interleave_perm. apply sorted_by_perm. }
  assert (Hs : StronglySorted
                 (fun a b => height (cl h a) <= height (cl h b))
                 (sorted_by le col)).
  { apply StronglySorted_impl with (R := fun a b => le a b = true).
    - intros a b _ _. unfold le. apply Qle_bool_iff.
    - apply sorted_by_sorted.
      + intros a b. apply Qle_bool_total.
      + intros a b c. apply Qle_bool_trans. }
  unfold interleave, slice_back2, slice_from2.
  eexists _, _. split; [reflexivity|]. split.
  - apply (StronglySorted_rev
             (fun a b => height (cl h b) <= height (cl h a))).
    apply StronglySorted_every_other.
    now apply (StronglySorted_rev
                 (fun a b => height (cl h a) <= height (cl h b))).
  - apply (StronglySorted_rev
             (fun a b => height (cl h a) <= height (cl h b))).
    apply StronglySorted_every_other. now apply StronglySorted_skipn.
Qed.

(** ** Re-ranking *)

Lemma map_result_total {A B} (f : A -> result B) l :
  (forall x, In x l -> exists y, f x = Ok y) ->
  exists r, map_result f l = Ok r.
Proof.
  induction l as [|x l IH]; cbn [map_result]; intros H; [eauto|].
  destruct (H x (or_introl eq_refl)) as [y Ey]. rewrite Ey. cbn [bind].
  destruct IH as [r Er]; [intros z Hz; apply H; now right|].
  rewrite Er. cbn [bind]. eauto.
Qed.

Lemma bisect_loop_total a x :
  (forall m, In m a -> m <> None) -> x <> None ->
  forall fuel lo hi, (hi <= length a)%nat ->
  exists n, bisect_loop fuel a x lo hi = Ok n.
Proof.
  intros Ha Hx. induction fuel as [|fuel IH]; intros lo hi Hhi;
    cbn [bisect_loop]; [eauto|].
  destruct (Nat.ltb_spec lo hi) as [Hlt|Hge]; [|eauto].
  assert (Hmid : (Nat.div (lo + hi) 2 < hi)%nat).
  { apply Nat.Div0.div_lt_upper_bound. lia. }
  assert (Hin : In (nth (Nat.div (lo + hi) 2) a None) a)
    by (apply nth_In; lia).
  specialize (Ha _ Hin).
  destruct (nth (Nat.div (lo + hi) 2) a None) as [am|]; [|contradiction].
  destruct x as [xv|]; [|contradiction]. cbn [num bind].
  destruct (Qltb am xv); apply IH; lia.
Qed.

(** X2. The re-ranking of a column against the mid-heights of the
    previous pass succeeds as soon as these mid-heights and those of
    the column are numbers, and it returns the clusters of the column
    in another order: no cluster is lost or doubled. *)
Theorem rerank_reorders (h : Heap) (old : list (option Q)) (col : list cid) :
  (forall c, In c col -> mid_height (cl h c) <> None) ->
  (forall m, In m old -> m <> None) ->
  exists col',
    rerank h old col = Ok col' /\ Permutation col' col /\
    length col' = length col.
Proof.
  intros Hc Ho.
  assert (E : exists col', rerank h old col = Ok col').
  { unfold rerank.
    destruct (map_result_total
                (fun c => bisect_left old (mid_height (cl h c))) col)
      as [keys Ek].
    { intros c Hin. unfold bisect_left.
      apply bisect_loop_total; auto. }
    rewrite Ek. cbn [bind]. apply map_result_total.
    intros i Hi.
    assert (Hlt : (i < length col)%nat).
    { apply in_map_iff in Hi. destruct Hi as ([i' k'] & <- & Hi).
      apply (Permutation_in _ (sorted_by_perm _ _ _)) in Hi.
      apply in_combine_l, in_seq in Hi. cbn. lia. }
    unfold item. destruct (nth_error col i) eqn:En; [eauto|].
    apply nth_error_None in En. lia. }
  destruct E as [col' E]. exists col'. split; [exact E|].
  pose proof (rerank_perm _ _ _ _ E) as P.
  split; [exact P|]. now apply Permutation_length.
Qed.

Lemma rerank_reorders_witness :
  exists col',
    rerank (heap sample_layout)
      (mid_heights (heap sample_layout) [1%nat; 2%nat]) [1%nat; 2%nat]
    = Ok col' /\
    Permutation col' [1%nat; 2%nat] /\
    length col' = length [1%nat; 2%nat].
Proof.
  apply rerank_reorders.
  - intros c [<-|[<-|[]]]; vm_compute; discriminate.
  - intros m Hm. vm_compute in Hm.
    destruct Hm as [<-|[<-|[]]]; discriminate.
Defined.

(** ** Empty columns *)

(** X3. On an empty column [_distribute_column] raises [IndexError]
    (it reads the first cluster of the column), whereas
    [distribute_clusters], [_move_new_clusters] and the forward swaps
    of the layout pass leave the plot as it is. *)
Theorem empty_column_is_skipped (p : AlluvialPlot) (k : nat) (s : Q) :
  column p k = [] ->
  _distribute_column p k s = Raise IndexError /\
  distribute_clusters p k = Ok (p, []) /\
  forward_swaps p k = Ok p /\
  exists p',
    _move_new_clusters p k = Ok p' /\
    heap p' = heap p /\ clusters p' = clusters p /\
    y_min p' = y_min p /\ y_max p' = y_max p.
Proof.
  intros E. unfold _distribute_column, distribute_column_heap,
    distribute_clusters, forward_swaps, _move_new_clusters.
  rewrite E. cbn. split; [reflexivity|]. split; [reflexivity|].
  split; [reflexivity|]. eexists. split; [reflexivity|].
  repeat split.
Qed.

Lemma empty_column_is_skipped_witness :
  _distribute_column (mkPlot [[]] 1 4 None None empty_heap) 0 1
  = Raise IndexError /\
  distribute_clusters (mkPlot [[]] 1 4 None None empty_heap) 0
  = Ok (mkPlot [[]] 1 4 None None empty_heap, []) /\
  forward_swaps (mkPlot [[]] 1 4 None None empty_heap) 0
  = Ok (mkPlot [[]] 1 4 None None empty_heap) /\
  exists p',
    _move_new_clusters (mkPlot [[]] 1 4 None None empty_heap) 0 = Ok p' /\
    heap p' = heap (mkPlot [[]] 1 4 None None empty_heap) /\
    clusters p' = clusters (mkPlot [[]] 1 4 None None empty_heap) /\
    y_min p' = y_min (mkPlot [[]] 1 4 None None empty_heap) /\
    y_max p' = y_max (mkPlot [[]] 1 4 None None empty_heap).
Proof.
  apply (empty_column_is_skipped (mkPlot [[]] 1 4 None None empty_heap) 0 1).
  reflexivity.
Defined.

(** ** The assertion of the swap test *)

Lemma gather_diffs_total h other fs : forall m r m',
  gather_diffs h other m fs = Ok r ->
  exists r', gather_diffs h other (Some m') fs = Ok r'.
Proof.
  induction fs as [|f fs IH]; cbn [gather_diffs]; intros m r m' H; [eauto|].
  destruct (other (fl h f)) as [o|]; [|eapply IH; exact H].
  apply bind_ok in H. destruct H as (w & Ew & H).
  apply bind_ok in H. destruct H as (mv & _ & H).
  apply bind_ok in H. destruct H as (ov & Eo & H).
  apply bind_ok in H. destruct H as (r0 & Er & H).
  rewrite Ew, Eo. cbn [bind num].
  destruct (IH _ _ m' Er) as [r' ->]. cbn [bind]. eauto.
Qed.

Lemma deviation_total h d c m r m' :
  deviation h d c m = Ok r -> exists r', deviation h d c (Some m') = Ok r'.
Proof.
  unfold deviation. intros H.
  apply bind_ok in H. destruct H as (wi & Ei & H).
  apply bind_ok in H. destruct H as (wo & Eo & _).
  assert (Hi : exists wi',
             (if uses_in d
              then gather_diffs h source_cluster (Some m') (in_fluxes (cl h c))
              else Ok []) = Ok wi').
  { destruct (uses_in d); [|eauto]. eapply gather_diffs_total; eauto. }
  assert (Ho : exists wo',
             (if uses_out d
              then gather_diffs h target_cluster (Some m')
                     (out_fluxes (cl h c))
              else Ok []) = Ok wo').
  { destruct (uses_out d); [|eauto]. eapply gather_diffs_total; eauto. }
  destruct Hi as [wi' ->], Ho as [wo' ->]. cbn [bind].
  destruct (Qltb _ _); eauto.
Qed.

(** X4. Where the deviations of the two clusters can be computed,
    [_swap_clusters] answers when the first cluster lies strictly below
    the second and raises [AssertionError] otherwise. For a pair that is
    adjacent in a stacked column this means that the test fails exactly
    when the height of the lower cluster plus the spacing is not
    positive. *)
Theorem swap_clusters_assertion (h : Heap) (s : Q) (d : direction)
  (n1 n2 : cid) (y1 y2 : Q) (d1 d2 : option Q) :
  y_pos (cl h n1) = Some y1 -> y_pos (cl h n2) = Some y2 ->
  deviation h d n1 (mid_height (cl h n1)) = Ok d1 ->
  deviation h d n2 (mid_height (cl h n2)) = Ok d2 ->
  (y1 < y2 -> exists b, _swap_clusters h s n1 n2 d = Ok b) /\
  (~ y1 < y2 -> _swap_clusters h s n1 n2 d = Raise AssertionError) /\
  (y1 + height (cl h n1) + s == y2 ->
   height (cl h n1) + s <= 0 ->
   _swap_clusters h s n1 n2 d = Raise AssertionError).
Proof.
  intros Y1 Y2 D1 D2.
  assert (Hno : ~ y1 < y2 ->
                _swap_clusters h s n1 n2 d = Raise AssertionError).
  { intros Hn. unfold _swap_clusters. rewrite D1, D2, Y1, Y2.
    cbn [bind num]. destruct (Qltb y1 y2) eqn:E; [|reflexivity].
    apply Qltb_lt in E. contradiction. }
  split; [|split; [exact Hno|]].
  - intros Hlt. unfold _swap_clusters, inv_mid_height.
    rewrite D1, D2, Y1, Y2. cbn [bind num].
    apply Qltb_lt in Hlt. rewrite Hlt. cbn [bind].
    destruct (deviation_total _ _ _ _ _
                (y2 + height (cl h n2) + s + (1 # 2) * height (cl h n1)) D1)
      as [i1 ->].
    destruct (deviation_total _ _ _ _ _
                (y1 + (1 # 2) * height (cl h n2)) D2) as [i2 ->].
    cbn [bind]. eauto.
  - intros Hadj Hle. apply Hno. intros Hlt. lra.
Qed.

Lemma swap_clusters_assertion_witness :
  exists y1 y2,
    y_pos (cl sample_heap_swap 1%nat) = Some y1 /\
    y_pos (cl sample_heap_swap 2%nat) = Some y2 /\
    (y1 < y2 ->
     exists b,
       _swap_clusters sample_heap_swap 1 1%nat 2%nat backwards = Ok b) /\
    (~ y1 < y2 ->
     _swap_clusters sample_heap_swap 1 1%nat 2%nat backwards
     = Raise AssertionError) /\
    (y1 + height (cl sample_heap_swap 1%nat) + 1 == y2 ->
     height (cl sample_heap_swap 1%nat) + 1 <= 0 ->
     _swap_clusters sample_heap_swap 1 1%nat 2%nat backwards
     = Raise AssertionError).
Proof.
  eexists _, _. split; [vm_compute; reflexivity|].
  split; [vm_compute; reflexivity|].
  eapply (swap_clusters_assertion sample_heap_swap 1 backwards 1%nat 2%nat).
  - vm_compute. reflexivity.
  - vm_compute. reflexivity.
  - vm_compute. reflexivity.
  - vm_compute. reflexivity.
Defined.

(** ** The mid-heights assumed by the swap test *)

(** In exact arithmetic. For a cluster [n1] that stands directly below [n2] in a stacked
    column, the two moves of an accepted swap put [n2] at the mid-height
    that [_swap_clusters] assumed for it, but put [n1] lower than the
    mid-height assumed for it, by the height of [n1] plus the spacing. *)
Theorem assumed_mid_heights (h : Heap) (s : Q) (n1 n2 : cid)
  (y1 y2 m1 m2 : Q) (h' : Heap) :
  n1 <> n2 ->
  y_pos (cl h n1) = Some y1 -> y_pos (cl h n2) = Some y2 ->
  y1 + height (cl h n1) + s == y2 ->
  inv_mid_height h s n1 n2 = Ok (m1, m2) ->
  exchange_positions h s n1 n2 = Ok h' ->
  exists v1 v2,
    mid_height (cl h' n1) = Some v1 /\ mid_height (cl h' n2) = Some v2 /\
    v2 == m2 /\ v1 + (height (cl h n1) + s) == m1.
Proof.
  intros Hne Y1 Y2 Hadj Hi He.
  unfold inv_mid_height in Hi. rewrite Y1, Y2 in Hi. cbn [num bind] in Hi.
  injection Hi as <- <-.
  unfold exchange_positions in He. rewrite Y1 in He.
  apply bind_ok in He. destruct He as (h1 & E1 & He).
  destruct (set_y_pos_ok _ _ _ _ E1) as (F1 & O1 & M1 & P1 & Mh1).
  rewrite P1 in He. cbn [num bind] in He.
  destruct (set_y_pos_ok _ _ _ _ He) as (F2 & O2 & M2 & P2 & Mh2).
  assert (Hh2 : height (cl h1 n2) = height (cl h n2)) by apply M1.
  assert (Hh1 : height (cl h1 n1) = height (cl h n1))
    by (rewrite O1 by exact Hne; reflexivity).
  eexists _, _. split; [exact Mh2|].
  split; [rewrite O2 by congruence; exact Mh1|].
  rewrite Hh1, Hh2. split; [reflexivity|]. rewrite <- Hadj. ring.
Qed.

Lemma assumed_mid_heights_witness :
  exists y1 y2 m1 m2 h',
    y_pos (cl sample_heap_swap 1%nat) = Some y1 /\
    y_pos (cl sample_heap_swap 2%nat) = Some y2 /\
    inv_mid_height sample_heap_swap 1 1%nat 2%nat = Ok (m1, m2) /\
    exchange_positions sample_heap_swap 1 1%nat 2%nat = Ok h' /\
    exists v1 v2,
      mid_height (cl h' 1%nat) = Some v1 /\
      mid_height (cl h' 2%nat) = Some v2 /\
      v2 == m2 /\ v1 + (height (cl sample_heap_swap 1%nat) + 1) == m1.
Proof.
  eexists _, _, _, _, _.
  split; [vm_compute; reflexivity|]. split; [vm_compute; reflexivity|].
  split; [vm_compute; reflexivity|]. split; [vm_compute; reflexivity|].
  eapply (assumed_mid_heights sample_heap_swap 1 1%nat 2%nat).
  - discriminate.
  - vm_compute. reflexivity.
  - vm_compute. reflexivity.
  - vm_compute. reflexivity.
  - vm_compute. reflexivity.
  - vm_compute. reflexivity.
Defined.

(** ** Construction *)

(** X5. [Flux.__init__] with a source and a target that are different
    clusters allocates a new flux, appends it at the end of the outgoing
    fluxes of the source and of the incoming fluxes of the target, and
    leaves every other list of fluxes and every other flux as it was.
    Its width is the magnitude, or for a relative flux the magnitude
    times the height of the source. *)
Theorem flux_init_registers (h : Heap) (fx : magnitude) (s t : cid)
  (relative : bool) (vanish : Loc) :
  s <> t ->
  exists h' f,
    Flux_init h fx (Some s) (Some t) relative vanish = Ok (h', f) /\
    f = next_flux h /\ next_flux h' = S f /\
    source_cluster (fl h' f) = Some s /\
    target_cluster (fl h' f) = Some t /\
    flux_width (fl h' f)
    = Some (if relative then magnitude_value fx * height (cl h s)
            else magnitude_value fx) /\
    out_fluxes (cl h' s) = out_fluxes (cl h s) ++ [f] /\
    in_fluxes (cl h' s) = in_fluxes (cl h s) /\
    in_fluxes (cl h' t) = in_fluxes (cl h t) ++ [f] /\
    out_fluxes (cl h' t) = out_fluxes (cl h t) /\
    (forall c, c <> s -> c <> t -> cl h' c = cl h c) /\
    (forall g, g <> f -> fl h' g = fl h g).
Proof.
  intros Hne. eexists _, _. split; [reflexivity|].
  assert (Est : Nat.eqb s t = false) by now apply Nat.eqb_neq.
  assert (Ets : Nat.eqb t s = false)
    by (apply Nat.eqb_neq; now apply not_eq_sym).
  cbn [next_flux fl cl put_cluster]. unfold upd.
  rewrite !Nat.eqb_refl, ?Est, ?Ets.
  cbn [source_cluster target_cluster flux_width out_fluxes in_fluxes
       with_out_fluxes with_in_fluxes].
  rewrite ?Nat.eqb_refl, ?Est, ?Ets.
  cbn [out_fluxes in_fluxes with_out_fluxes with_in_fluxes].
  split; [reflexivity|]. split; [reflexivity|].
  split; [reflexivity|]. split; [reflexivity|].
  split; [destruct relative; reflexivity|].
  split; [reflexivity|]. split; [reflexivity|].
  split; [reflexivity|]. split; [reflexivity|]. split.
  - intros c H1 H2.
    destruct (Nat.eqb_spec c t); [contradiction|].
    destruct (Nat.eqb_spec c s); [contradiction|]. reflexivity.
  - intros g Hg. destruct (Nat.eqb_spec g (next_flux h)); [contradiction|].
    reflexivity.
Qed.

Lemma flux_init_registers_witness :
  exists h' f,
    Flux_init sample_heap (Number 2) (Some 1%nat) (Some 2%nat) true top
    = Ok (h', f) /\
    f = next_flux sample_heap /\ next_flux h' = S f /\
    source_cluster (fl h' f) = Some 1%nat /\
    target_cluster (fl h' f) = Some 2%nat /\
    flux_width (fl h' f)
    = Some (if true
            then magnitude_value (Number 2) * height (cl sample_heap 1%nat)
            else magnitude_value (Number 2)) /\
    out_fluxes (cl h' 1%nat) = out_fluxes (cl sample_heap 1%nat) ++ [f] /\
    in_fluxes (cl h' 1%nat) = in_fluxes (cl sample_heap 1%nat) /\
    in_fluxes (cl h' 2%nat) = in_fluxes (cl sample_heap 2%nat) ++ [f] /\
    out_fluxes (cl h' 2%nat) = out_fluxes (cl sample_heap 2%nat) /\
    (forall c, c <> 1%nat -> c <> 2%nat -> cl h' c = cl sample_heap c) /\
    (forall g, g <> f -> fl h' g = fl sample_heap g).
Proof.
  apply (flux_init_registers sample_heap (Number 2) 1%nat 2%nat true top).
  discriminate.
Defined.

(** In exact arithmetic. [Cluster.__init__] with a horizontal anchor [x] allocates a
    cluster whose left edge [x_pos] is [x] for [x_anchor='left'], half a
    width to the left of [x] for ['center'] and a whole width to the left
    for ['right']. A vertical position is recorded together with the
    mid-height, but the anchors [in_] and [out_] are [None] after the
    constructor in every case; the lists of fluxes are empty and the
    margins 0. Without a horizontal anchor, a vertical position makes
    the constructor raise [TypeError]. *)
Theorem cluster_init_anchor (h : Heap) (hgt : magnitude) (x : Q)
  (y : option Q) (yv : Q) (w : Q) (xa : XAnchor) :
  (exists h' c xv,
     Cluster_init h hgt (Some x) y w xa = Ok (h', c) /\
     c = next_cluster h /\ next_cluster h' = S c /\
     height (cl h' c) = magnitude_value hgt /\ width (cl h' c) = w /\
     x_pos (cl h' c) = Some xv /\ xv == x - anchor_offset xa w /\
     y_pos (cl h' c) = y /\
     mid_height (cl h' c)
     = match y with
       | Some v => Some (v + (1#2) * magnitude_value hgt)
       | None => None
       end /\
     in_ (cl h' c) = None /\ out_ (cl h' c) = None /\
     out_fluxes (cl h' c) = [] /\ in_fluxes (cl h' c) = [] /\
     in_margin (cl h' c) = mk_by_loc 0 0 /\
     out_margin (cl h' c) = mk_by_loc 0 0 /\
     (forall c', c' <> c -> cl h' c' = cl h c') /\ fl h' = fl h) /\
  Cluster_init h hgt None (Some yv) w xa = Raise TypeError /\
  exists h' c,
    Cluster_init h hgt None None w xa = Ok (h', c) /\
    x_pos (cl h' c) = None /\ y_pos (cl h' c) = None.
Proof.
  split; [|split].
  - unfold Cluster_init, set_x_pos, set_y_pos, set_in_out_anchors,
      put_cluster.
    cbv zeta. cbn [cl fl next_cluster next_flux]. unfold upd.
    rewrite !Nat.eqb_refl.
    destruct y as [v|];
      cbn [x_anchor width height with_x_pos with_y_pos with_mid_height
           y_pos x_pos num bind cl fl next_cluster next_flux];
      rewrite ?Nat.eqb_refl;
      cbn [x_anchor width height with_x_pos with_y_pos with_mid_height
           with_anchors with_in_margin with_out_margin with_in_fluxes
           with_out_fluxes y_pos x_pos num bind cl fl next_cluster
           next_flux];
      (eexists _, _, _; split; [reflexivity|]);
      cbn [cl fl next_cluster next_flux]; rewrite ?Nat.eqb_refl;
      cbn [x_anchor width height with_x_pos with_y_pos with_mid_height
           with_anchors with_in_margin with_out_margin with_in_fluxes
           with_out_fluxes y_pos x_pos mid_height in_ out_ out_fluxes
           in_fluxes in_margin out_margin];
      (split; [reflexivity|]); (split; [reflexivity|]);
      (split; [reflexivity|]); (split; [reflexivity|]);
      (split; [reflexivity|]);
      (split; [destruct xa; cbn [anchor_offset]; ring|]);
      repeat (split; [reflexivity|]);
      (split; [|reflexivity]);
      intros c' Hc;
      destruct (Nat.eqb_spec c' (next_cluster h)); try contradiction;
      reflexivity.
  - unfold Cluster_init, set_x_pos, set_y_pos, set_in_out_anchors,
      put_cluster.
    cbv zeta. cbn [cl fl next_cluster next_flux]. unfold upd.
    rewrite !Nat.eqb_refl.
    cbn [x_anchor width height with_x_pos with_y_pos with_mid_height
         y_pos x_pos num bind cl fl next_cluster next_flux].
    rewrite ?Nat.eqb_refl.
    cbn [x_anchor width height with_x_pos with_y_pos with_mid_height
         y_pos x_pos num bind cl fl next_cluster next_flux].
    reflexivity.
  - unfold Cluster_init, set_x_pos, set_y_pos, put_cluster.
    cbv zeta. cbn [cl fl next_cluster next_flux bind]. unfold upd.
    rewrite ?Nat.eqb_refl.
    eexists _, _. split; [reflexivity|].
    cbn [cl fl next_cluster next_flux]. rewrite ?Nat.eqb_refl.
    split; reflexivity.
Qed.

(** In exact arithmetic. For a cluster that has a horizontal position, [set_y_pos] and
    [set_mid_height] both succeed and leave the cluster anchored: the
    mid-height is half the height above [y_pos] and the four anchors are
    the corners of the rectangle of the cluster; the first records the
    given [y_pos], the second the given mid-height. Without a horizontal
    position both raise [TypeError]. No other cluster and no flux is
    touched. *)
Theorem setters_anchor_cluster (h : Heap) (c : cid) (v : Q) :
  (x_pos (cl h c) <> None ->
   (exists h',
      set_y_pos h c (Some v) = Ok h' /\ anchored (cl h' c) /\
      y_pos (cl h' c) = Some v /\ moved_only (cl h c) (cl h' c) /\
      (forall c', c' <> c -> cl h' c' = cl h c') /\ fl h' = fl h) /\
   (exists h',
      set_mid_height h c (Some v) = Ok h' /\ anchored (cl h' c) /\
      mid_height (cl h' c) = Some v /\ moved_only (cl h c) (cl h' c) /\
      (forall c', c' <> c -> cl h' c' = cl h c') /\ fl h' = fl h)) /\
  (x_pos (cl h c) = None ->
   set_y_pos h c (Some v) = Raise TypeError /\
   set_mid_height h c (Some v) = Raise TypeError).
Proof.
  split.
  - intros Hx. destruct (x_pos (cl h c)) as [x|] eqn:Ex; [|contradiction].
    split.
    + unfold set_y_pos, set_in_out_anchors.
      cbn [cl put_cluster]. rewrite !upd_same.
      cbn [y_pos x_pos with_y_pos with_mid_height num bind]. rewrite Ex.
      cbn [num bind]. eexists. split; [reflexivity|].
      cbn [cl fl put_cluster]. rewrite !upd_same.
      split.
      { exists x, v, (v + (1 # 2) * height (cl h c)). cbn.
        rewrite Ex. repeat split; reflexivity. }
      split; [reflexivity|]. split; [unfold moved_only; cbn; tauto|].
      split; [|reflexivity].
      intros c' Hc. now rewrite !upd_other.
    + unfold set_mid_height, set_in_out_anchors.
      cbn [cl put_cluster]. rewrite !upd_same.
      cbn [y_pos x_pos with_y_pos with_mid_height num bind]. rewrite Ex.
      cbn [num bind]. eexists. split; [reflexivity|].
      cbn [cl fl put_cluster]. rewrite !upd_same.
      split.
      { exists x, (v - (1 # 2) * height (cl h c)), v. cbn.
        rewrite Ex. repeat split; try reflexivity. ring. }
      split; [reflexivity|]. split; [unfold moved_only; cbn; tauto|].
      split; [|reflexivity].
      intros c' Hc. now rewrite !upd_other.
  - intros Ex. unfold set_y_pos, set_mid_height, set_in_out_anchors.
    cbn [cl put_cluster]. rewrite !upd_same.
    cbn [y_pos x_pos with_y_pos with_mid_height num bind]. rewrite Ex.
    split; reflexivity.
Qed.

(** ** The routing decision and the rectangle of the target *)

(** In exact arithmetic. For a target of positive height whose position is set, the
    edges of a flux depend only on where the mid-height [ms] of the
    source falls with respect to the bottom, the mid-height and the top
    of the target: at or above the top the flux leaves at the bottom
    and enters at the top; between mid-height and top it leaves and
    enters at the top; above the bottom and up to the mid-height it
    leaves and enters at the bottom; at or below the bottom it leaves at
    the top and enters at the bottom. In particular a flux between two
    clusters of the same mid-height leaves and enters at the bottom. *)
Theorem decision_by_target_region (h : Heap) (c : cid) (ms : Q) :
  mid_height (cl h c) = Some ms ->
  (forall f t, In f (out_fluxes (cl h c)) ->
               target_cluster (fl h f) = Some t ->
               mid_height (cl h t) <> None /\ in_ (cl h t) <> None) ->
  exists h',
    set_loc_out_fluxes h c = Ok h' /\
    forall f t,
      In f (out_fluxes (cl h c)) -> target_cluster (fl h f) = Some t ->
      anchored (cl h t) -> 0 < height (cl h t) ->
      exists y mt exit enter,
        y_pos (cl h t) = Some y /\ mid_height (cl h t) = Some mt /\
        out_loc (fl h' f) = Some (Some exit) /\
        in_loc (fl h' f) = Some (Some enter) /\
        (y + height (cl h t) <= ms -> exit = bottom /\ enter = top) /\
        (mt < ms -> ms < y + height (cl h t) ->
         exit = top /\ enter = top) /\
        (y < ms -> ms <= mt -> exit = bottom /\ enter = bottom) /\
        (ms <= y -> exit = top /\ enter = bottom) /\
        (ms == mt -> exit = bottom /\ enter = bottom).
Proof.
  intros Hs Ht.
  destruct (set_loc_out_fluxes_table h c ms Hs Ht) as (h' & E & T).
  exists h'. split; [exact E|]. intros f t Hin Et Ha Hpos.
  destruct Ha as (x & y & m & Ex & Ey & Em & Hm & Ei & _).
  destruct (T f t m _ Hin Et Em Ei) as [To Ti].
  pose proof (decision_table_follows ms m
                (snd (at_top (mk_by_loc (Some x, y)
                                (Some x, y + height (cl h t)))))
                (snd (at_bottom (mk_by_loc (Some x, y)
                                   (Some x, y + height (cl h t))))))
    as (F1 & F2 & F3 & F4).
  cbn [snd at_top at_bottom] in *.
  eexists y, m, _, _. split; [exact Ey|]. split; [exact Em|].
  split; [exact To|]. split; [exact Ti|].
  cbn [snd at_top at_bottom].
  split; [intros H1; apply F1; lra|].
  split; [intros H1 H2; apply F2; lra|].
  split; [intros H1 H2; apply F4; lra|].
  split; [intros H1; apply F3; lra|].
  intros H1; apply F4; lra.
Qed.

Lemma decision_by_target_region_witness :
  exists ms,
    mid_height (cl (heap sample_layout) 0%nat) = Some ms /\
    exists h',
      set_loc_out_fluxes (heap sample_layout) 0%nat = Ok h' /\
      forall f t,
        In f (out_fluxes (cl (heap sample_layout) 0%nat)) ->
        target_cluster (fl (heap sample_layout) f) = Some t ->
        anchored (cl (heap sample_layout) t) ->
        0 < height (cl (heap sample_layout) t) ->
        exists y mt exit enter,
          y_pos (cl (heap sample_layout) t) = Some y /\
          mid_height (cl (heap sample_layout) t) = Some mt /\
          out_loc (fl h' f) = Some (Some exit) /\
          in_loc (fl h' f) = Some (Some enter) /\
          (y + height (cl (heap sample_layout) t) <= ms ->
           exit = bottom /\ enter = top) /\
          (mt < ms -> ms < y + height (cl (heap sample_layout) t) ->
           exit = top /\ enter = top) /\
          (y < ms -> ms <= mt -> exit = bottom /\ enter = bottom) /\
          (ms <= y -> exit = top /\ enter = bottom) /\
          (ms == mt -> exit = bottom /\ enter = bottom).
Proof.
  eexists. split; [vm_compute; reflexivity|].
  apply decision_by_target_region.
  - vm_compute. reflexivity.
  - intros f t Hin Et. vm_compute in Hin.
    destruct Hin as [<-|[<-|[<-|[]]]]; vm_compute in Et;
      try discriminate Et; injection Et as <-;
      split; vm_compute; discriminate.
Defined.

(** ** Fluxes that are not drawn *)

Lemma filter_partition {A} (p q r : A -> bool) l :
  (forall x, In x l -> r x = orb (p x) (q x) /\ andb (p x) (q x) = false) ->
  Permutation (filter p l ++ filter q l) (filter r l).
Proof.
  induction l as [|x l IH]; intros H; [reflexivity|].
  destruct (H x (or_introl eq_refl)) as [Hr Hpq].
  assert (IH' := IH (fun y Hy => H y (or_intror Hy))).
  cbn [filter]. rewrite Hr.
  destruct (p x), (q x); cbn [orb andb] in *; try discriminate.
  - cbn [app]. now constructor.
  - rewrite <- Permutation_middle. now constructor.
  - exact IH'.
Qed.

(** X6. After [set_loc_out_fluxes] and [sort_out_fluxes] the list of
    outgoing fluxes of a cluster holds exactly its fluxes that have a
    target: a flux that leaves the cluster and vanishes is removed from
    the list, and so it is never drawn. *)
Theorem vanishing_fluxes_are_dropped (h : Heap) (c : cid) (ms : Q) :
  mid_height (cl h c) = Some ms ->
  (forall f t, In f (out_fluxes (cl h c)) ->
               target_cluster (fl h f) = Some t ->
               mid_height (cl h t) <> None /\ in_ (cl h t) <> None) ->
  exists h1 h2,
    set_loc_out_fluxes h c = Ok h1 /\ sort_out_fluxes h1 c = Ok h2 /\
    Permutation (out_fluxes (cl h2 c))
      (filter (has_target h) (out_fluxes (cl h c))) /\
    forall f, In f (out_fluxes (cl h2 c)) ->
              target_cluster (fl h2 f) <> None.
Proof.
  intros Hs Ht.
  destruct (set_loc_out_fluxes_table h c ms Hs Ht) as (h1 & E & T).
  pose proof E as E'. unfold set_loc_out_fluxes in E'.
  destruct (set_loc_loop_ok _ _ _ _ E') as (C1 & M1 & O1 & L1).
  assert (Htg : forall f, target_cluster (fl h1 f) = target_cluster (fl h f))
    by (intros f; apply M1).
  destruct (sort_fluxes_ok h1 out_loc target_cluster (out_fluxes (cl h c)))
    as (tops & bottoms & Es & Pt & Pb & _).
  { intros f Hin. destruct (L1 f Hin) as [La Lb].
    destruct (target_cluster (fl h f)) as [t|] eqn:Et.
    - destruct (Ht f t Hin Et) as [Hm Ha].
      destruct (mid_height (cl h t)) as [mt|] eqn:Em; [|contradiction].
      destruct (in_ (cl h t)) as [a|] eqn:Ea; [|contradiction].
      destruct (La t ms mt a eq_refl Hs Em Ea) as [<- _]. discriminate.
    - destruct (Lb eq_refl) as [-> _]. discriminate. }
  { intros f o Hin Eo. rewrite Htg in Eo. rewrite C1.
    apply (Ht f o Hin Eo). }
  exists h1. eexists. split; [exact E|].
  unfold sort_out_fluxes. rewrite C1, Es. cbn [bind].
  split; [reflexivity|].
  cbn [cl put_cluster]. rewrite upd_same. cbn [out_fluxes with_out_fluxes].
  assert (P : Permutation (tops ++ bottoms)
                (filter (has_target h) (out_fluxes (cl h c)))).
  { rewrite Pt, Pb. apply filter_partition. intros f Hin.
    unfold on_edge, loc_of, has_target. destruct (L1 f Hin) as [La Lb].
    destruct (target_cluster (fl h f)) as [t|] eqn:Et.
    - destruct (Ht f t Hin Et) as [Hm Ha].
      destruct (mid_height (cl h t)) as [mt|] eqn:Em; [|contradiction].
      destruct (in_ (cl h t)) as [a|] eqn:Ea; [|contradiction].
      destruct (La t ms mt a eq_refl Hs Em Ea) as [<- _].
      destruct (fst (decision_table _ _ _ _)); split; reflexivity.
    - destruct (Lb eq_refl) as [-> _]. split; reflexivity. }
  split; [exact P|].
  intros f Hin. apply (Permutation_in _ P) in Hin.
  apply filter_In in Hin. destruct Hin as [_ Hf].
  cbn [fl put_cluster]. rewrite Htg. unfold has_target in Hf.
  destruct (target_cluster (fl h f)); [discriminate|discriminate Hf].
Qed.

Lemma vanishing_fluxes_are_dropped_witness :
  exists h1 h2,
    set_loc_out_fluxes (heap sample_layout) 0%nat = Ok h1 /\
    sort_out_fluxes h1 0%nat = Ok h2 /\
    Permutation (out_fluxes (cl h2 0%nat))
      (filter (has_target (heap sample_layout))
         (out_fluxes (cl (heap sample_layout) 0%nat))) /\
    forall f, In f (out_fluxes (cl h2 0%nat)) ->
              target_cluster (fl h2 f) <> None.
Proof.
  eapply (vanishing_fluxes_are_dropped (heap sample_layout) 0%nat).
  - vm_compute. reflexivity.
  - intros f t Hin Et. vm_compute in Hin.
    destruct Hin as [<-|[<-|[<-|[]]]]; vm_compute in Et;
      try discriminate Et; injection Et as <-;
      split; vm_compute; discriminate.
Defined.

(** * Double precision *)

(** ** Rounding to nearest in [SpecFloat] *)

Section Rounding.

Local Open Scope Z_scope.

Lemma digits2_spec (m : positive) :
  2 ^ (Zpos (digits2_pos m) - 1) <= Zpos m < 2 ^ Zpos (digits2_pos m).
Proof.
  induction m as [m IH|m IH|]; cbn [digits2_pos].
  - rewrite Pos2Z.inj_succ.
    replace (Z.succ (Z.pos (digits2_pos m)) - 1)
      with (Z.succ (Z.pos (digits2_pos m) - 1)) by lia.
    rewrite !Z.pow_succ_r by lia. lia.
  - rewrite Pos2Z.inj_succ.
    replace (Z.succ (Z.pos (digits2_pos m)) - 1)
      with (Z.succ (Z.pos (digits2_pos m) - 1)) by lia.
    rewrite !Z.pow_succ_r by lia. lia.
  - cbn. lia.
Qed.

Lemma Rep_exact (m : Z) : 0 <= m -> Double.Rep (shr_record_of_loc m loc_Exact) m 0.
Proof.
  intros Hm. unfold Double.Rep. cbn. repeat split; try lia.
  exists 0. repeat split; try lia; try discriminate.
Qed.

Lemma Rep_shr_1 mrs N K : Double.Rep mrs N K -> Double.Rep (shr_1 mrs) N (K + 1).
Proof.
  intros (HK & Hm & rem & HN & Hrem & Hr & Hs).
  assert (P2 : 2 ^ (K + 1) = 2 * 2 ^ K) by (rewrite Z.pow_add_r by lia; lia).
  assert (Hor : orb (shr_r mrs) (shr_s mrs) = true <-> rem <> 0).
  { rewrite orb_true_iff, Hr, Hs. lia. }
  destruct mrs as [m r s]. cbn [shr_m shr_r shr_s] in *.
  unfold Double.Rep. rewrite P2.
  destruct m as [|[p|p|]|p]; cbn [shr_1 shr_m shr_r shr_s]; try lia.
  - split; [lia|]. split; [lia|]. exists rem.
    split; [lia|]. split; [lia|]. split; [split; [discriminate|lia]|].
    rewrite Hor. lia.
  - split; [lia|]. split; [lia|]. exists (rem + 2 ^ K).
    split; [lia|]. split; [lia|]. split; [split; [lia|reflexivity]|].
    rewrite Hor. lia.
  - split; [lia|]. split; [lia|]. exists rem.
    split; [lia|]. split; [lia|]. split; [split; [discriminate|lia]|].
    rewrite Hor. lia.
  - split; [lia|]. split; [lia|]. exists (rem + 2 ^ K).
    split; [lia|]. split; [lia|]. split; [split; [lia|reflexivity]|].
    rewrite Hor. lia.
Qed.

Lemma Rep_iter_pos (p : positive) : forall mrs N K,
  Double.Rep mrs N K -> Double.Rep (iter_pos shr_1 p mrs) N (K + Zpos p).
Proof.
  induction p as [p IH|p IH|]; intros mrs N K H; cbn [iter_pos].
  - replace (K + Z.pos p~1) with (K + 1 + Z.pos p + Z.pos p)
      by (rewrite (Pos2Z.inj_xI p); lia).
    apply IH, IH, Rep_shr_1, H.
  - replace (K + Z.pos p~0) with (K + Z.pos p + Z.pos p)
      by (rewrite (Pos2Z.inj_xO p); lia).
    apply IH, IH, H.
  - apply Rep_shr_1, H.
Qed.

Lemma Rep_shr mrs N K e n :
  Double.Rep mrs N K ->
  Double.Rep (fst (shr mrs e n)) N (K + Z.max 0 n) /\
  snd (shr mrs e n) = e + Z.max 0 n.
Proof.
  intros H. destruct n as [|p|p]; cbn [shr fst snd].
  - change (Z.max 0 0) with 0. rewrite !Z.add_0_r. now split.
  - change (Z.max 0 (Z.pos p)) with (Z.pos p).
    split; [now apply Rep_iter_pos|reflexivity].
  - change (Z.max 0 (Z.neg p)) with 0.
    rewrite !Z.add_0_r. now split.
Qed.

Lemma Rep_round mrs N K :
  Double.Rep mrs N K ->
  let q := round_nearest_even (shr_m mrs) (loc_of_shr_record mrs) in
  2 * Z.abs (q * 2 ^ K - N) <= 2 ^ K /\ shr_m mrs <= q <= shr_m mrs + 1.
Proof.
  intros (HK & Hm & rem & HN & Hrem & Hr & Hs).
  destruct mrs as [m r s]. cbn [shr_m shr_r shr_s] in *.
  destruct r, s; cbn [loc_of_shr_record round_nearest_even].
  - assert (2 ^ K <= 2 * rem) by now apply Hr.
    assert (rem <> 0 /\ 2 * rem <> 2 ^ K) by now apply Hs. nia.
  - assert (2 ^ K <= 2 * rem) by now apply Hr.
    assert (~ (rem <> 0 /\ 2 * rem <> 2 ^ K))
      by (intros C; apply Hs in C; discriminate).
    destruct (Z.even m); nia.
  - assert (~ 2 ^ K <= 2 * rem) by (intros C; apply Hr in C; discriminate).
    nia.
  - assert (~ 2 ^ K <= 2 * rem) by (intros C; apply Hr in C; discriminate).
    assert (~ (rem <> 0 /\ 2 * rem <> 2 ^ K))
      by (intros C; apply Hs in C; discriminate).
    nia.
Qed.

Lemma fexp_unfold (x : Z) : fexp Double.prec Double.emax x = Z.max (x - 53) (-1074).
Proof. reflexivity. Qed.

Lemma pow2_pos (k : Z) : 0 <= k -> 0 < 2 ^ k.
Proof. intros. apply Z.pow_pos_nonneg; lia. Qed.

Lemma pow2_le (a b : Z) : 0 <= a <= b -> 2 ^ a <= 2 ^ b.
Proof. intros. apply Z.pow_le_mono_r; lia. Qed.

Lemma pow2_lt_inv (a b : Z) : 0 <= b -> 2 ^ a < 2 ^ b -> a < b.
Proof. intros Hb H. apply (Z.pow_lt_mono_r_iff 2); lia. Qed.

Lemma binary_round_aux_spec (s : bool) (m : positive) (e : Z) :
  let n := Z.max 0 (fexp Double.prec Double.emax (Zpos (digits2_pos m) + e) - e) in
  let r := binary_round_aux Double.prec Double.emax s (Zpos m) e loc_Exact in
  r = S754_infinity s \/
  exists q, 0 <= q /\ 2 * Z.abs (q * 2 ^ n - Zpos m) <= 2 ^ n /\
    ((q = 0 /\ r = S754_zero s) \/
     exists m' e', r = S754_finite s m' e' /\
       -1074 <= e' /\ e + n <= e' /\
       Zpos m' * 2 ^ (e' - (e + n)) = q /\ Zpos m' < 2 ^ 53).
Proof.
  intros n r. subst r. unfold binary_round_aux.
  pose proof (digits2_spec m) as Hd.
  set (d := Zpos (digits2_pos m)) in *.
  assert (Hdp : 0 < d) by (subst d; lia).
  destruct (Rep_shr _ _ _ e (fexp Double.prec Double.emax (d + e) - e)
              (Rep_exact (Zpos m) ltac:(lia))) as [R1 E1].
  fold n in R1, E1. rewrite Z.add_0_l in R1.
  change (shr_fexp Double.prec Double.emax (Z.pos m) e loc_Exact)
    with (shr (shr_record_of_loc (Z.pos m) loc_Exact) e
            (fexp Double.prec Double.emax (d + e) - e)).
  destruct (shr (shr_record_of_loc (Z.pos m) loc_Exact) e
              (fexp Double.prec Double.emax (d + e) - e)) as [mrs1 e1].
  cbn [fst snd] in R1, E1.
  pose proof (Rep_round _ _ _ R1) as [Hq Hqq].
  set (q := round_nearest_even (shr_m mrs1) (loc_of_shr_record mrs1)) in *.
  assert (Hn : 0 <= n /\ d - 53 <= n /\ -1074 <= e + n)
    by (subst n; rewrite fexp_unfold; lia).
  destruct R1 as (_ & Hm1 & rem1 & HN1 & Hrem1 & _).
  assert (Hq53 : 0 <= q <= 2 ^ 53).
  { split; [lia|].
    assert (2 ^ d <= 2 ^ (53 + n)) by (apply pow2_le; lia).
    rewrite Z.pow_add_r in H by lia.
    pose proof (pow2_pos n ltac:(lia)).
    assert (shr_m mrs1 < 2 ^ 53) by nia. lia. }
  unfold shr_fexp.
  destruct (Rep_shr _ _ _ e1 (fexp Double.prec Double.emax (Zdigits2 q + e1) - e1)
              (Rep_exact q ltac:(lia))) as [R2 E2].
  destruct (shr (shr_record_of_loc q loc_Exact) e1
              (fexp Double.prec Double.emax (Zdigits2 q + e1) - e1)) as [mrs2 e2].
  cbn [fst snd] in R2, E2. rewrite Z.add_0_l in R2.
  set (n2 := Z.max 0 (fexp Double.prec Double.emax (Zdigits2 q + e1) - e1)) in *.
  destruct R2 as (_ & Hm2 & rem2 & HN2 & Hrem2 & _).
  assert (Hn2 : (n2 = 0 /\ q < 2 ^ 53) \/ (n2 = 1 /\ q = 2 ^ 53)).
  { destruct q as [|pq|pq] eqn:Eq; [left|..|lia].
    - subst n2. cbn [Zdigits2]. rewrite fexp_unfold.
      change (2 ^ 53) with 9007199254740992. lia.
    - cbn [Zdigits2] in n2. pose proof (digits2_spec pq) as Hd'.
      set (d' := Zpos (digits2_pos pq)) in *.
      assert (d' - 1 < 54).
      { apply pow2_lt_inv; [lia|].
        change (2 ^ 54) with (2 * 2 ^ 53). lia. }
      destruct (Z.eq_dec d' 54) as [E54|N54].
      + right. rewrite E54 in Hd'. change (2 ^ (54 - 1)) with (2 ^ 53) in Hd'.
        split; [|lia]. subst n2. rewrite fexp_unfold, E54. lia.
      + left. split; [subst n2; rewrite fexp_unfold; lia|].
        assert (2 ^ d' <= 2 ^ 53) by (apply pow2_le; lia). lia. }
  clearbody n2.
  assert (Hval : shr_m mrs2 * 2 ^ n2 = q /\ shr_m mrs2 < 2 ^ 53).
  { destruct Hn2 as [[-> Hlt] | [-> Eq]].
    - change (2 ^ 0) with 1 in *. lia.
    - change (2 ^ 1) with 2 in *. change (2 ^ 53) with 9007199254740992 in *.
      lia. }
  destruct Hval as [Hval Hlt].
  destruct (shr_m mrs2) as [|m'|m'] eqn:Em2; [| |lia].
  - right. exists q. split; [lia|]. split; [exact Hq|]. left.
    split; [lia|reflexivity].
  - destruct (e2 <=? Double.emax - Double.prec); [|now left].
    right. exists q. split; [lia|]. split; [exact Hq|]. right.
    exists m', e2. split; [reflexivity|].
    assert (0 <= n2) by lia.
    split; [lia|]. split; [lia|].
    split; [|exact Hlt].
    replace (e2 - (e + n)) with n2 by lia. exact Hval.
Qed.

Lemma valid_wf (x : Double.double) : valid_binary Double.prec Double.emax x = true -> Double.wf x.
Proof.
  destruct x as [s|s| |s m e]; cbn [valid_binary Double.wf]; auto.
  unfold bounded, canonical_mantissa. rewrite andb_true_iff, fexp_unfold.
  intros [H _]. apply Z.eqb_eq in H.
  pose proof (digits2_spec m) as Hd.
  split; [lia|].
  assert (2 ^ Zpos (digits2_pos m) <= 2 ^ 53) by (apply pow2_le; lia). lia.
Qed.

Lemma pos_iter_xO (m d : positive) :
  Zpos (Pos.iter xO m d) = Zpos m * 2 ^ Zpos d.
Proof.
  induction d as [|d IH] using Pos.peano_ind.
  - cbn. lia.
  - rewrite Pos.iter_succ, Pos2Z.inj_xO, IH, Pos2Z.inj_succ.
    rewrite Z.pow_succ_r by lia. lia.
Qed.

Lemma shl_align_spec (m : positive) (e e' : Z) :
  -1074 <= e -> -1074 <= e' ->
  snd (shl_align m e e') = Z.min e e' /\
  Zpos (fst (shl_align m e e')) * 2 ^ (snd (shl_align m e e') + 1074)
  = Zpos m * 2 ^ (e + 1074).
Proof.
  intros He He'. unfold shl_align.
  destruct (e' - e) as [|d|d] eqn:E; cbn [fst snd].
  - split; [lia|reflexivity].
  - split; [lia|reflexivity].
  - split; [lia|]. rewrite pos_iter_xO.
    replace (e + 1074) with (Zpos d + (e' + 1074)) by lia.
    rewrite (Z.pow_add_r 2 (Zpos d) (e' + 1074)) by lia. ring.
Qed.

Lemma round_aux_near (s : bool) (m : positive) (e : Z) :
  -1074 <= e ->
  let r := binary_round_aux Double.prec Double.emax s (Zpos m) e loc_Exact in
  Double.finite r = true ->
  Double.wf r /\ Double.near (Double.B2Z r) (cond_Zopp s (Zpos m * 2 ^ (e + 1074))).
Proof.
  intros He r Hfin.
  pose proof (digits2_spec m) as Hd.
  destruct (binary_round_aux_spec s m e) as [Hinf|(q & Hq0 & Hq & Hr)];
    fold r in Hinf || fold r in Hr.
  { rewrite Hinf in Hfin. discriminate. }
  set (d := Zpos (digits2_pos m)) in *.
  set (n := Z.max 0 (fexp Double.prec Double.emax (d + e) - e)) in *.
  assert (Hn : 0 <= n /\ (n = 0 \/ n = d - 53))
    by (subst n; rewrite fexp_unfold; lia).
  assert (Hp : 0 < 2 ^ (e + 1074)) by (apply pow2_pos; lia).
  assert (Hpn : 0 < 2 ^ n) by (apply pow2_pos; lia).
  assert (Herr : Z.abs (q * 2 ^ n - Zpos m) * 2 ^ 53 <= Zpos m).
  { destruct Hn as [_ [E|E]].
    - rewrite E in *. change (2 ^ 0) with 1 in *. lia.
    - destruct (Z.le_gt_cases n 0) as [Hle|Hgt].
      + assert (n = 0) by lia. rewrite H in *.
        change (2 ^ 0) with 1 in *. lia.
      + assert (2 ^ (d - 1) = 2 ^ (n - 1) * (2 * 2 ^ 52)).
        { replace (d - 1) with ((n - 1) + 53) by lia.
          rewrite Z.pow_add_r by lia. reflexivity. }
        assert (2 ^ n = 2 * 2 ^ (n - 1)).
        { replace n with (Z.succ (n - 1)) at 1 by lia.
          rewrite Z.pow_succ_r by lia. reflexivity. }
        assert (0 < 2 ^ (n - 1)) by (apply pow2_pos; lia).
        change (2 ^ 53) with (2 * 2 ^ 52).
        assert (0 < 2 ^ 52) by reflexivity.
        nia. }
  destruct Hr as [[Eq0 Er]|(m' & e' & Er & He' & Hee & Hv & Hm')].
  - rewrite Eq0 in Herr. change (2 ^ 53) with 9007199254740992 in Herr. lia.
  - rewrite Er. split; [now split|].
    unfold Double.near. cbn [Double.B2Z].
    replace (e' + 1074) with ((e' - (e + n)) + (n + (e + 1074))) by lia.
    rewrite !Z.pow_add_r by lia.
    set (a := 2 ^ (e' - (e + n))) in *. set (b := 2 ^ n) in *.
    set (c := 2 ^ (e + 1074)) in *.
    assert (cond_Zopp s (Z.pos m' * (a * (b * c))) -
            cond_Zopp s (Z.pos m * c)
            = cond_Zopp s ((q * b - Z.pos m) * c))
      by (destruct s; cbn [cond_Zopp]; nia).
    rewrite H.
    assert (forall z, Z.abs (cond_Zopp s z) = Z.abs z)
      by (intros; destruct s; cbn [cond_Zopp]; lia).
    rewrite !H0. rewrite Z.abs_mul, (Z.abs_mul (Z.pos m)).
    rewrite (Z.abs_eq c), (Z.abs_eq (Z.pos m)) by lia.
    nia.
Qed.

Lemma binary_normalize_near (M e : Z) :
  -1074 <= e ->
  let r := binary_normalize Double.prec Double.emax M e false in
  Double.finite r = true ->
  Double.wf r /\ Double.near (Double.B2Z r) (M * 2 ^ (e + 1074)).
Proof.
  intros He r Hfin. subst r. unfold binary_normalize in *.
  destruct M as [|m|m].
  - split; [exact I|]. unfold Double.near. cbn. lia.
  - unfold binary_round in *.
    pose proof (shl_align_spec m e
      (fexp Double.prec Double.emax (Zpos (digits2_pos m) + e)) He
      ltac:(rewrite fexp_unfold; lia)) as [E1 E2].
    destruct (shl_align m e (fexp Double.prec Double.emax (Z.pos (digits2_pos m) + e)))
      as [mz ez]. cbn [fst snd] in E1, E2.
    assert (-1074 <= ez) by (rewrite E1, fexp_unfold; lia).
    destruct (round_aux_near false mz ez H Hfin) as [W N].
    split; [exact W|]. cbn [cond_Zopp] in N. now rewrite E2 in N.
  - unfold binary_round in *.
    pose proof (shl_align_spec m e
      (fexp Double.prec Double.emax (Zpos (digits2_pos m) + e)) He
      ltac:(rewrite fexp_unfold; lia)) as [E1 E2].
    destruct (shl_align m e (fexp Double.prec Double.emax (Z.pos (digits2_pos m) + e)))
      as [mz ez]. cbn [fst snd] in E1, E2.
    assert (-1074 <= ez) by (rewrite E1, fexp_unfold; lia).
    destruct (round_aux_near true mz ez H Hfin) as [W N].
    split; [exact W|]. cbn [cond_Zopp] in N. rewrite E2 in N.
    replace (Z.neg m * 2 ^ (e + 1074)) with (- (Z.pos m * 2 ^ (e + 1074)))
      by lia. exact N.
Qed.

Lemma aligned_value (s : bool) (m : positive) (e ez : Z) :
  -1074 <= ez -> ez <= e ->
  cond_Zopp s (Zpos (fst (shl_align m e ez))) * 2 ^ (ez + 1074)
  = Double.B2Z (S754_finite s m e).
Proof.
  intros H1 H2.
  destruct (shl_align_spec m e ez ltac:(lia) H1) as [E1 E2].
  rewrite E1 in E2. replace (Z.min e ez) with ez in E2 by lia.
  cbn [Double.B2Z]. destruct s; cbn [cond_Zopp]; lia.
Qed.

Lemma fadd_near (x y : Double.double) :
  Double.wf x -> Double.wf y -> Double.finite (Double.add x y) = true ->
  Double.finite x = true /\ Double.finite y = true /\
  Double.wf (Double.add x y) /\ Double.near (Double.B2Z (Double.add x y)) (Double.B2Z x + Double.B2Z y).
Proof.
  unfold Double.add.
  destruct x as [sx|sx| |sx mx ex], y as [sy|sy| |sy my ey];
    cbn [SFadd Double.wf Double.finite]; intros Wx Wy Hf; try discriminate;
    try (destruct sx, sy; discriminate).
  - repeat split. destruct sx, sy; exact I.
    destruct sx, sy; unfold Double.near; cbn; lia.
  - repeat split; try tauto. unfold Double.near. cbn [Double.B2Z].
    rewrite Z.add_0_l, Z.sub_diag. cbn. lia.
  - repeat split; try tauto. unfold Double.near. cbn [Double.B2Z].
    rewrite Z.add_0_r, Z.sub_diag. cbn. lia.
  - destruct Wx as [Wx _], Wy as [Wy _].
    destruct (binary_normalize_near _ (Z.min ex ey) ltac:(lia) Hf) as [W N].
    repeat split; [exact W|].
    rewrite Z.mul_add_distr_r, !aligned_value in N by lia. exact N.
Qed.

Lemma fsub_near (x y : Double.double) :
  Double.wf x -> Double.wf y -> Double.finite (Double.sub x y) = true ->
  Double.finite x = true /\ Double.finite y = true /\
  Double.wf (Double.sub x y) /\ Double.near (Double.B2Z (Double.sub x y)) (Double.B2Z x - Double.B2Z y).
Proof.
  unfold Double.sub.
  destruct x as [sx|sx| |sx mx ex], y as [sy|sy| |sy my ey];
    cbn [SFsub Double.wf Double.finite]; intros Wx Wy Hf; try discriminate;
    try (destruct sx, sy; discriminate).
  - repeat split. destruct sx, sy; exact I.
    destruct sx, sy; unfold Double.near; cbn; lia.
  - repeat split; try tauto. unfold Double.near. cbn [Double.B2Z].
    replace (0 - cond_Zopp sy (Z.pos my * 2 ^ (ey + 1074)))
      with (cond_Zopp (negb sy) (Z.pos my * 2 ^ (ey + 1074)))
      by (destruct sy; cbn [negb cond_Zopp]; lia).
    rewrite Z.sub_diag. cbn. lia.
  - repeat split; try tauto. unfold Double.near. cbn [Double.B2Z].
    rewrite Z.sub_0_r, Z.sub_diag. cbn. lia.
  - destruct Wx as [Wx _], Wy as [Wy _].
    destruct (binary_normalize_near _ (Z.min ex ey) ltac:(lia) Hf) as [W N].
    repeat split; [exact W|].
    rewrite Z.mul_sub_distr_r, !aligned_value in N by lia. exact N.
Qed.

Lemma half_near (x : Double.double) :
  Double.wf x -> Double.finite (Double.mul Double.half x) = true ->
  Double.finite x = true /\ Double.wf (Double.mul Double.half x) /\
  Z.abs (2 * Double.B2Z (Double.mul Double.half x) - Double.B2Z x) <= 1.
Proof.
  unfold Double.mul, Double.half.
  destruct x as [sx|sx| |sx mx ex]; cbn [SFmul Double.wf Double.finite xorb];
    intros Wx Hf; try discriminate.
  - repeat split. cbn. lia.
  - destruct Wx as [We Wm].
    pose proof (digits2_spec (4503599627370496 * mx)) as Hd.
    destruct (binary_round_aux_spec sx (4503599627370496 * mx) (-53 + ex))
      as [Hinf|(q & Hq0 & Hq & Hr)].
    { rewrite Hinf in Hf. discriminate. }
    set (d := Zpos (digits2_pos (4503599627370496 * mx))) in *.
    set (n := Z.max 0 (fexp Double.prec Double.emax (d + (-53 + ex)) - (-53 + ex))) in *.
    rewrite Pos2Z.inj_mul in Hd, Hq.
    change (Z.pos 4503599627370496) with (2 ^ 52) in Hd, Hq.
    assert (Hd105 : d - 1 < 105).
    { apply pow2_lt_inv; [lia|]. change (2 ^ 105) with (2 ^ 52 * 2 ^ 53).
      assert (0 < 2 ^ 52) by reflexivity. nia. }
    assert (Hn : 0 <= n <= 52 \/ (n = 53 /\ ex = -1074))
      by (subst n; rewrite fexp_unfold; lia).
    assert (Hen : -1074 <= -53 + ex + n)
      by (subst n; rewrite fexp_unfold; lia).
    split; [reflexivity|].
    assert (Ht : 0 < 2 ^ (ex + 1074)) by (apply pow2_pos; lia).
    destruct Hr as [[Eq0 Er]|(m' & e' & Er & He' & Hee & Hv & Hm')].
    + rewrite Er. split; [exact I|]. cbn [Double.B2Z].
      rewrite Eq0 in Hq. destruct Hn as [Hn|[En Eex]].
      * assert (2 ^ n <= 2 ^ 52) by (apply pow2_le; lia).
        assert (0 < 2 ^ n) by (apply pow2_pos; lia). nia.
      * rewrite En, Eex in *. change (2 ^ (-1074 + 1074)) with 1.
        change (2 ^ 53) with (2 * 2 ^ 52) in Hq.
        assert (0 < 2 ^ 52) by reflexivity.
        destruct sx; cbn [cond_Zopp]; nia.
    + rewrite Er. split; [now split|]. cbn [Double.B2Z].
      assert (Hsgn : forall a b, Z.abs (2 * cond_Zopp sx a - cond_Zopp sx b)
                                 = Z.abs (2 * a - b))
        by (intros; destruct sx; cbn [cond_Zopp]; lia).
      rewrite Hsgn.
      destruct Hn as [Hn|[En Eex]].
      * (* the halving is exact *)
        assert (Hk : 2 ^ 52 = 2 ^ (52 - n) * 2 ^ n)
          by (rewrite <- Z.pow_add_r by lia; f_equal; lia).
        assert (0 < 2 ^ n) by (apply pow2_pos; lia).
        assert (0 < 2 ^ (52 - n)) by (apply pow2_pos; lia).
        assert (Eq : q = 2 ^ (52 - n) * Z.pos mx).
        { rewrite Hk in Hq.
          replace (q * 2 ^ n - 2 ^ (52 - n) * 2 ^ n * Z.pos mx)
            with ((q - 2 ^ (52 - n) * Z.pos mx) * 2 ^ n) in Hq by ring.
          rewrite Z.abs_mul, (Z.abs_eq (2 ^ n)) in Hq by lia. nia. }
        enough (E : 2 * (Z.pos m' * 2 ^ (e' + 1074))
                    = Z.pos mx * 2 ^ (ex + 1074))
          by (rewrite E, Z.sub_diag; cbn; lia).
        assert (P1 : 2 ^ (e' + 1074)
                     = 2 ^ (e' - (-53 + ex + n)) * 2 ^ (ex + 1074 - 53 + n))
          by (rewrite <- Z.pow_add_r by lia; f_equal; lia).
        assert (P2 : 2 ^ (ex + 1074)
                     = 2 * 2 ^ (52 - n) * 2 ^ (ex + 1074 - 53 + n))
          by (rewrite <- Z.pow_succ_r, <- Z.pow_add_r by lia; f_equal; lia).
        rewrite P1, P2.
        transitivity (2 * (Z.pos m' * 2 ^ (e' - (-53 + ex + n)))
                      * 2 ^ (ex + 1074 - 53 + n)); [ring|].
        rewrite Hv, Eq. ring.
      * rewrite En, Eex in *.
        assert (e' - (-53 + -1074 + 53) = e' + 1074) by lia.
        rewrite H in Hv. rewrite Hv.
        change (2 ^ (-1074 + 1074)) with 1.
        change (2 ^ 53) with (2 * 2 ^ 52) in Hq.
        assert (0 < 2 ^ 52) by reflexivity. nia.
Qed.

End Rounding.

(** ** The accuracy of the operations, over the rationals *)

Lemma eta_pos : 0 < Double.eta.
Proof. reflexivity. Qed.

Lemma eps_val : Double.eps == 1 # 9007199254740992.
Proof. reflexivity. Qed.

Lemma B2Q_B2Z (x : Double.double) :
  Double.wf x -> Double.B2Q x == inject_Z (Double.B2Z x) * Double.eta.
Proof.
  destruct x as [s|s| |s m e]; cbn [Double.B2Q Double.B2Z Double.wf];
    try (intros _; unfold inject_Z; ring).
  intros [He _].
  assert (E : (2 : Q) ^ e == inject_Z (2 ^ (e + 1074)) * Double.eta).
  { rewrite Zpower_Qpower by lia. unfold Double.eta.
    rewrite <- Qpower_plus by discriminate.
    replace (e + 1074 + -1074)%Z with e by lia. reflexivity. }
  rewrite E.
  destruct s; cbn [cond_Zopp].
  - rewrite !inject_Z_opp, inject_Z_mult. ring.
  - rewrite inject_Z_mult. ring.
Qed.

Lemma Qabs_inject_eta (z : Z) :
  Qabs (inject_Z z * Double.eta) == inject_Z (Z.abs z) * Double.eta.
Proof.
  rewrite Qabs_Qmult, (Qabs_pos Double.eta) by (apply Qlt_le_weak, eta_pos).
  reflexivity.
Qed.

Lemma add_wf (x y : Double.double) :
  Double.wf x -> Double.wf y -> Double.wf (Double.add x y).
Proof.
  intros Wx Wy. destruct (Double.finite (Double.add x y)) eqn:F.
  - now destruct (fadd_near x y Wx Wy F) as (_ & _ & W & _).
  - destruct (Double.add x y); try exact I; discriminate.
Qed.

Lemma sub_wf (x y : Double.double) :
  Double.wf x -> Double.wf y -> Double.wf (Double.sub x y).
Proof.
  intros Wx Wy. destruct (Double.finite (Double.sub x y)) eqn:F.
  - now destruct (fsub_near x y Wx Wy F) as (_ & _ & W & _).
  - destruct (Double.sub x y); try exact I; discriminate.
Qed.

Lemma half_wf (x : Double.double) :
  Double.wf x -> Double.wf (Double.mul Double.half x).
Proof.
  intros Wx. destruct (Double.finite (Double.mul Double.half x)) eqn:F.
  - now destruct (half_near x Wx F) as (_ & W & _).
  - destruct (Double.mul Double.half x); try exact I; discriminate.
Qed.

(** A finite sum of two doubles is the exact sum up to the relative
    error [2^-53]; a sum is finite only if both terms are. *)
Lemma add_accurate (x y : Double.double) :
  Double.wf x -> Double.wf y -> Double.finite (Double.add x y) = true ->
  Double.finite x = true /\ Double.finite y = true /\
  Qabs (Double.B2Q (Double.add x y) - (Double.B2Q x + Double.B2Q y))
  <= Double.eps * Qabs (Double.B2Q x + Double.B2Q y).
Proof.
  intros Wx Wy F. destruct (fadd_near x y Wx Wy F) as (Fx & Fy & W & N).
  split; [exact Fx|]. split; [exact Fy|].
  rewrite (B2Q_B2Z _ W), (B2Q_B2Z _ Wx), (B2Q_B2Z _ Wy).
  set (r := Double.B2Z (Double.add x y)) in *.
  set (a := Double.B2Z x) in *. set (b := Double.B2Z y) in *.
  assert (E1 : inject_Z r * Double.eta
               - (inject_Z a * Double.eta + inject_Z b * Double.eta)
               == inject_Z (r - (a + b)) * Double.eta).
  { unfold Z.sub. rewrite !inject_Z_plus, inject_Z_opp, inject_Z_plus. ring. }
  assert (E2 : inject_Z a * Double.eta + inject_Z b * Double.eta
               == inject_Z (a + b) * Double.eta)
    by (rewrite inject_Z_plus; ring).
  rewrite E1, E2, !Qabs_inject_eta, eps_val.
  unfold Double.near in N.
  rewrite Zle_Qle, inject_Z_mult in N.
  change (inject_Z (2 ^ 53)) with (9007199254740992 # 1) in N.
  pose proof eta_pos as Hp.
  set (u := inject_Z (Z.abs (r - (a + b)))) in *.
  set (v := inject_Z (Z.abs (a + b))) in *.
  assert (u <= (1 # 9007199254740992) * v) by lra.
  setoid_replace ((1 # 9007199254740992) * (v * Double.eta))
    with ((1 # 9007199254740992) * v * Double.eta) by ring.
  apply Qmult_le_compat_r; [exact H|]. now apply Qlt_le_weak.
Qed.

Lemma sub_accurate (x y : Double.double) :
  Double.wf x -> Double.wf y -> Double.finite (Double.sub x y) = true ->
  Double.finite x = true /\ Double.finite y = true /\
  Qabs (Double.B2Q (Double.sub x y) - (Double.B2Q x - Double.B2Q y))
  <= Double.eps * Qabs (Double.B2Q x - Double.B2Q y).
Proof.
  intros Wx Wy F. destruct (fsub_near x y Wx Wy F) as (Fx & Fy & W & N).
  split; [exact Fx|]. split; [exact Fy|].
  rewrite (B2Q_B2Z _ W), (B2Q_B2Z _ Wx), (B2Q_B2Z _ Wy).
  set (r := Double.B2Z (Double.sub x y)) in *.
  set (a := Double.B2Z x) in *. set (b := Double.B2Z y) in *.
  assert (E1 : inject_Z r * Double.eta
               - (inject_Z a * Double.eta - inject_Z b * Double.eta)
               == inject_Z (r - (a - b)) * Double.eta).
  { unfold Z.sub. rewrite !inject_Z_plus, !inject_Z_opp, inject_Z_plus,
      inject_Z_opp. ring. }
  assert (E2 : inject_Z a * Double.eta - inject_Z b * Double.eta
               == inject_Z (a - b) * Double.eta)
    by (unfold Z.sub; rewrite inject_Z_plus, inject_Z_opp; ring).
  rewrite E1, E2, !Qabs_inject_eta, eps_val.
  unfold Double.near in N.
  rewrite Zle_Qle, inject_Z_mult in N.
  change (inject_Z (2 ^ 53)) with (9007199254740992 # 1) in N.
  pose proof eta_pos as Hp.
  set (u := inject_Z (Z.abs (r - (a - b)))) in *.
  set (v := inject_Z (Z.abs (a - b))) in *.
  assert (u <= (1 # 9007199254740992) * v) by lra.
  setoid_replace ((1 # 9007199254740992) * (v * Double.eta))
    with ((1 # 9007199254740992) * v * Double.eta) by ring.
  apply Qmult_le_compat_r; [exact H|]. now apply Qlt_le_weak.
Qed.
(** ** Positions of clusters in the double-precision model *)

Ltac inv_okd :=
  repeat match goal with
  | H : Ok _ = Ok _ |- _ => inversion H; subst; clear H
  | H : Raise _ = Ok _ |- _ => discriminate H
  | H : bind ?m _ = Ok _ |- _ =>
      let a := fresh "a" in
      let E := fresh "E" in
      apply bind_ok in H; destruct H as (a & E & H)
  | H : Double.num ?o = Ok _ |- _ =>
      destruct o eqn:?; simpl in H; [|discriminate H]
  | H : get_attr ?o = Ok _ |- _ =>
      destruct o eqn:?; simpl in H; [|discriminate H]
  end.

Lemma same_shape_refl a : same_shape a a.
Proof. unfold same_shape; intuition. Qed.

Lemma same_shape_trans a b c :
  same_shape a b -> same_shape b c -> same_shape a c.
Proof. unfold same_shape; intuition congruence. Qed.

Lemma dset_y_pos_ok h c y h' :
  Double.set_y_pos h c (Some y) = Ok h' ->
  Double.fl h' = Double.fl h /\
  (forall c', c' <> c -> Double.cl h' c' = Double.cl h c') /\
  same_shape (Double.cl h c) (Double.cl h' c) /\
  Double.y_pos (Double.cl h' c) = Some y.
Proof.
  unfold Double.set_y_pos, Double.set_in_out_anchors. intros H.
  cbn in H. rewrite upd_same in H. cbn in H. inv_okd. cbn.
  rewrite upd_same. cbn. unfold same_shape. cbn.
  repeat split; auto.
  intros c' Hc. rewrite !upd_other by exact Hc. reflexivity.
Qed.

Lemma dset_y_pos_total h c y :
  Double.x_pos (Double.cl h c) <> None ->
  exists h', Double.set_y_pos h c (Some y) = Ok h'.
Proof.
  intros Hx. unfold Double.set_y_pos, Double.set_in_out_anchors. cbn.
  rewrite upd_same. cbn.
  destruct (Double.x_pos (Double.cl h c)); [|contradiction]. cbn. eauto.
Qed.

Lemma dstack_from_ok col : forall h s d h',
  NoDup col -> Double.stack_from h col s d = Ok h' ->
  stacked_from h' s d col /\
  Double.fl h' = Double.fl h /\
  (forall c, same_shape (Double.cl h c) (Double.cl h' c)) /\
  (forall c, ~ In c col -> Double.cl h' c = Double.cl h c).
Proof.
  induction col as [|c col IH]; cbn [Double.stack_from stacked_from];
    intros h s d h' Hnd H.
  - inv_okd. split; [exact I|]. split; [reflexivity|].
    split; [intros; apply same_shape_refl|auto].
  - inv_okd. inversion Hnd as [|? ? Hnin Hnd']; subst.
    destruct (dset_y_pos_ok _ _ _ _ E) as (F & O & M & Y).
    destruct (IH _ _ _ _ Hnd' H) as (C & F' & M' & O').
    assert (Hc : Double.cl h' c = Double.cl a c) by (apply O'; exact Hnin).
    split; [|split; [congruence|split]].
    + rewrite Hc. split; [exact Y|]. exact C.
    + intros c'. eapply same_shape_trans; [|apply M'].
      destruct (Nat.eq_dec c' c) as [->|Hne]; [exact M|].
      rewrite (O c' Hne). apply same_shape_refl.
    + intros c' Hn. rewrite O'; [apply O|]; intros ?; apply Hn; cbn; auto.
Qed.

Lemma dstack_from_total col : forall h s d,
  (forall c, In c col -> Double.x_pos (Double.cl h c) <> None) ->
  exists h', Double.stack_from h col s d = Ok h'.
Proof.
  induction col as [|c col IH]; cbn [Double.stack_from]; intros h s d Hx;
    [eauto|].
  destruct (dset_y_pos_total h c d (Hx c (or_introl eq_refl))) as [h1 E].
  rewrite E. cbn [bind]. apply IH. intros c' Hin.
  destruct (dset_y_pos_ok _ _ _ _ E) as (_ & O & M & _).
  destruct (Nat.eq_dec c' c) as [->|Hne].
  - destruct M as (_ & _ & _ & Mx & _). rewrite Mx. apply Hx. now left.
  - rewrite (O c' Hne). apply Hx. now right.
Qed.

Lemma dshift_ok d col : forall h h',
  NoDup col -> for_each col (Double.shift_by d) h = Ok h' ->
  Double.fl h' = Double.fl h /\
  (forall c, same_shape (Double.cl h c) (Double.cl h' c)) /\
  (forall c, ~ In c col -> Double.cl h' c = Double.cl h c) /\
  forall c, In c col ->
    exists yc, Double.y_pos (Double.cl h c) = Some yc /\
               Double.y_pos (Double.cl h' c) = Some (Double.sub yc d).
Proof.
  induction col as [|c col IH]; cbn [for_each]; intros h h' Hnd H.
  - inv_okd. split; [reflexivity|].
    split; [intros; apply same_shape_refl|]. split; [auto|easy].
  - inv_okd. unfold Double.shift_by in E.
    destruct (Double.y_pos (Double.cl h c)) as [y0|] eqn:Ey;
      [|discriminate E].
    cbn [Double.num bind] in E.
    inversion Hnd as [|? ? Hnin Hnd']; subst.
    destruct (dset_y_pos_ok _ _ _ _ E) as (F & O & M & Y).
    destruct (IH _ _ Hnd' H) as (F' & M' & O' & P).
    assert (Hc : Double.cl h' c = Double.cl a c) by (apply O'; exact Hnin).
    split; [congruence|]. split; [|split].
    + intros c'. eapply same_shape_trans; [|apply M'].
      destruct (Nat.eq_dec c' c) as [->|Hne]; [exact M|].
      rewrite (O c' Hne). apply same_shape_refl.
    + intros c' Hn. rewrite O'; [apply O|]; intros ?; apply Hn; cbn; auto.
    + intros c' [<-|Hin].
      * exists y0. rewrite Hc. auto.
      * destruct (P c' Hin) as (yc & Hy & Hy').
        exists yc. split; auto. rewrite <- Hy. symmetry.
        rewrite O; auto. intros ->. contradiction.
Qed.

Lemma dshift_total d col : forall h,
  (forall c, In c col ->
     Double.x_pos (Double.cl h c) <> None /\
     Double.y_pos (Double.cl h c) <> None) ->
  exists h', for_each col (Double.shift_by d) h = Ok h'.
Proof.
  induction col as [|c col IH]; cbn [for_each]; intros h Hx; [eauto|].
  destruct (Hx c (or_introl eq_refl)) as [X Y].
  unfold Double.shift_by at 1.
  destruct (Double.y_pos (Double.cl h c)) as [y|] eqn:Ey; [|contradiction].
  cbn [Double.num bind].
  destruct (dset_y_pos_total h c (Double.sub y d) X) as [h1 E].
  rewrite E. cbn [bind]. apply IH. intros c' Hin.
  destruct (dset_y_pos_ok _ _ _ _ E) as (F & O & M & Y1).
  destruct (Nat.eq_dec c' c) as [->|Hne].
  - destruct M as (_ & _ & _ & Mx & _). rewrite Mx, Y1. split; auto.
    discriminate.
  - rewrite O; auto. apply Hx. now right.
Qed.

Lemma stacked_from_positioned h s col : forall d,
  stacked_from h s d col ->
  Double.wf d -> Double.wf s ->
  (forall c, In c col -> Double.wf (Double.height (Double.cl h c))) ->
  forall c, In c col ->
    exists y, Double.y_pos (Double.cl h c) = Some y /\ Double.wf y.
Proof.
  induction col as [|c col IH]; cbn [stacked_from]; intros d H Wd Ws Wh c' Hin;
    [destruct Hin|].
  destruct H as [Hy Hc]. destruct Hin as [<-|Hin].
  - exists d. split; [exact Hy|exact Wd].
  - apply (IH _ Hc); [|exact Ws| |exact Hin].
    + apply add_wf; [exact Wd|]. apply add_wf; [|exact Ws]. apply Wh. now left.
    + intros c0 H0. apply Wh. now right.
Qed.

Lemma stacked_from_set h s col : forall d,
  stacked_from h s d col ->
  forall c, In c col -> Double.y_pos (Double.cl h c) <> None.
Proof.
  induction col as [|x col IH]; cbn [stacked_from]; intros d H c Hin;
    [destruct Hin|].
  destruct H as [Hy Hc]. destruct Hin as [<-|Hin].
  - rewrite Hy. discriminate.
  - eapply IH; eauto.
Qed.

(** What [_distribute_column] does to a non-empty column: the clusters
    are stacked from [0.0] on and then shifted by the offset computed
    from the first and the last one. *)
Lemma ddistribute_column_heap_ok h col s :
  col <> [] -> NoDup col ->
  (forall c, In c col -> Double.x_pos (Double.cl h c) <> None) ->
  exists h1 h' c0 cn a,
    Double.distribute_column_heap h col s = Ok h' /\
    first_item col = Ok c0 /\ last_item col = Ok cn /\
    stacked_from h1 s Double.zero col /\
    Double.y_pos (Double.cl h1 cn) = Some a /\
    (forall c, same_shape (Double.cl h c) (Double.cl h1 c)) /\
    (forall c, same_shape (Double.cl h c) (Double.cl h' c)) /\
    (forall c, ~ In c col -> Double.cl h' c = Double.cl h c) /\
    Double.fl h' = Double.fl h /\
    forall c, In c col ->
      exists yc, Double.y_pos (Double.cl h1 c) = Some yc /\
        Double.y_pos (Double.cl h' c)
        = Some (Double.sub yc
                  (Double.add Double.zero
                     (Double.mul Double.half
                        (Double.sub
                           (Double.add a (Double.height (Double.cl h cn)))
                           Double.zero)))).
Proof.
  intros Hne Hnd Hx. unfold Double.distribute_column_heap.
  destruct (dstack_from_total col h s Double.zero Hx) as [h1 E1]. rewrite E1.
  cbn [bind].
  destruct (dstack_from_ok _ _ _ _ _ Hnd E1) as (C1 & F1 & M1 & O1).
  destruct col as [|c0 col]; [contradiction|]. cbn [first_item bind].
  pose proof C1 as C1'. cbn [stacked_from] in C1'.
  destruct C1' as (Hy0 & _). rewrite Hy0. cbn [Double.num bind].
  destruct (last_item_total (c0 :: col) Hne) as [cn Ln]. rewrite Ln.
  cbn [bind].
  pose proof (stacked_from_set _ _ _ _ C1) as Hpos.
  destruct (Double.y_pos (Double.cl h1 cn)) as [a|] eqn:Hyn;
    [|exfalso; apply (Hpos cn (last_item_in _ _ Ln)); exact Hyn].
  cbn [Double.num bind].
  assert (Hh : Double.height (Double.cl h1 cn) = Double.height (Double.cl h cn))
    by apply M1.
  rewrite Hh.
  set (cent := Double.add Double.zero _).
  destruct (dshift_total cent (c0 :: col) h1) as [h2 E2].
  { intros c Hin. split; [|now apply Hpos].
    destruct (M1 c) as (_ & _ & _ & Mx & _). rewrite Mx. now apply Hx. }
  destruct (dshift_ok _ _ _ _ Hnd E2) as (F2 & M2 & O2 & P2).
  exists h1, h2, c0, cn, a.
  split; [exact E2|]. split; [reflexivity|]. split; [reflexivity|].
  split; [exact C1|]. split; [exact Hyn|]. split; [exact M1|].
  split; [intros c; eapply same_shape_trans; [apply M1|apply M2]|].
  split; [intros c Hn; rewrite O2, O1; auto|].
  split; [congruence|]. exact P2.
Qed.

(** ** Sums and differences with [0.0] *)

Lemma add_zero_l (y : Double.double) :
  Double.B2Z (Double.add Double.zero y) = Double.B2Z y /\
  Double.finite (Double.add Double.zero y) = Double.finite y.
Proof. destruct y as [[]|[]| |s m e]; split; reflexivity. Qed.

Lemma sub_zero_r (x : Double.double) :
  Double.B2Z (Double.sub x Double.zero) = Double.B2Z x /\
  Double.finite (Double.sub x Double.zero) = Double.finite x.
Proof. destruct x as [[]|[]| |s m e]; split; reflexivity. Qed.

Lemma sub_zero_l (y : Double.double) :
  Double.B2Z (Double.sub Double.zero y) = (- Double.B2Z y)%Z /\
  Double.finite (Double.sub Double.zero y) = Double.finite y.
Proof.
  destruct y as [[]|[]| |s m e]; split; try reflexivity.
  cbn [Double.sub SFsub Double.zero Double.B2Z].
  destruct s; cbn [negb cond_Zopp]; lia.
Qed.

(** ** The centring of a column, numerically *)

Section Centering.

Local Open Scope Z_scope.

Variables a hl : Double.double.
Hypothesis Wa : Double.wf a.
Hypothesis Wh : Double.wf hl.

Let high := Double.add a hl.
Let cent := Double.add Double.zero
              (Double.mul Double.half (Double.sub high Double.zero)).
Let lo := Double.sub Double.zero cent.
Let yn := Double.sub a cent.

Lemma cent_wf : Double.wf cent.
Proof.
  apply add_wf; [exact I|]. apply half_wf. apply sub_wf; [|exact I].
  apply add_wf; assumption.
Qed.

Lemma cent_half :
  Double.finite cent = true ->
  Double.finite high = true /\
  Z.abs (2 * Double.B2Z cent - Double.B2Z high) <= 1.
Proof.
  intros Fc. unfold cent in *.
  destruct (add_zero_l (Double.mul Double.half (Double.sub high Double.zero)))
    as [Ev Ef].
  rewrite Ef in Fc. rewrite Ev.
  destruct (half_near (Double.sub high Double.zero)) as (F1 & _ & N); auto.
  { apply sub_wf; [|exact I]. apply add_wf; assumption. }
  destruct (sub_zero_r high) as [Ev' Ef'].
  rewrite Ef' in F1. rewrite Ev' in N. now split.
Qed.

Lemma centering_Z :
  Double.finite yn = true ->
  Double.finite lo = true /\ Double.wf lo /\ Double.wf yn /\
  Z.abs (Double.B2Z lo + (Double.B2Z yn + Double.B2Z hl)) * (2 ^ 53 - 1)
  <= Z.abs (Double.B2Z yn) + 2 * Z.abs (Double.B2Z lo) + 2 ^ 53.
Proof.
  intros Fy. pose proof cent_wf as Wc.
  destruct (fsub_near a cent Wa Wc Fy) as (Fa & Fc & Wy & Ny).
  destruct (cent_half Fc) as [Fh Nc].
  destruct (fadd_near a hl Wa Wh Fh) as (_ & _ & _ & Nh).
  destruct (sub_zero_l cent) as [El Fl].
  split; [unfold lo; now rewrite Fl|].
  split; [apply sub_wf; [exact I|exact Wc]|]. split; [exact Wy|].
  fold lo in El. fold yn in Ny. fold high in Nh. rewrite El.
  unfold Double.near in *. change (2 ^ 53) with 9007199254740992 in *.
  lia.
Qed.

Lemma single_Z :
  a = Double.zero -> Double.finite lo = true ->
  Z.abs (2 * Double.B2Z lo + Double.B2Z hl) <= 1.
Proof.
  intros Ea Fl.
  destruct (sub_zero_l cent) as [El Fl']. fold lo in El, Fl'.
  rewrite Fl' in Fl. destruct (cent_half Fl) as [Fh Nc].
  assert (Eh : Double.B2Z high = Double.B2Z hl)
    by (unfold high; rewrite Ea; apply add_zero_l).
  rewrite El. lia.
Qed.

End Centering.

Lemma B2Z_even (x : Double.double) :
  Double.wf x -> (2 ^ 53 <= Z.abs (Double.B2Z x))%Z ->
  exists k, Double.B2Z x = (2 * k)%Z.
Proof.
  destruct x as [s|s| |s m e]; cbn [Double.wf Double.B2Z];
    try (intros _ H; change (2 ^ 53)%Z with 9007199254740992%Z in H;
         cbn in H; lia).
  intros [He Hm] H.
  assert (Hs : forall z, Z.abs (cond_Zopp s z) = Z.abs z)
    by (intros; destruct s; cbn [cond_Zopp]; lia).
  rewrite Hs in H.
  destruct (Z.eq_dec (e + 1074) 0) as [E0|N0].
  - rewrite E0 in H. change (2 ^ 0)%Z with 1%Z in H. lia.
  - assert (E : (2 ^ (e + 1074) = 2 * 2 ^ (e + 1074 - 1))%Z).
    { rewrite <- Z.pow_succ_r by lia. f_equal. lia. }
    rewrite E.
    exists (cond_Zopp s (Z.pos m * 2 ^ (e + 1074 - 1))%Z).
    destruct s; cbn [cond_Zopp]; lia.
Qed.

Lemma centering_Q (a hl : Double.double) :
  Double.wf a -> Double.wf hl ->
  let cent := Double.add Double.zero
                (Double.mul Double.half
                   (Double.sub (Double.add a hl) Double.zero)) in
  Double.finite (Double.sub a cent) = true ->
  Qabs ((Double.B2Q (Double.sub Double.zero cent)
         + (Double.B2Q (Double.sub a cent) + Double.B2Q hl)) / 2)
  <= Double.eps * (Qabs (Double.B2Q (Double.sub a cent))
                   + 2 * Qabs (Double.B2Q (Double.sub Double.zero cent)))
     + Double.eta.
Proof.
  intros Wa Wh cent Fy.
  destruct (centering_Z a hl Wa Wh Fy) as (Fl & Wl & Wy & N).
  fold cent in Fl, Wl, Wy, N.
  rewrite (B2Q_B2Z _ Wl), (B2Q_B2Z _ Wy), (B2Q_B2Z _ Wh).
  set (L := Double.B2Z (Double.sub Double.zero cent)) in *.
  set (Y := Double.B2Z (Double.sub a cent)) in *.
  set (H := Double.B2Z hl) in *.
  assert (E : (inject_Z L * Double.eta
               + (inject_Z Y * Double.eta + inject_Z H * Double.eta)) / 2
              == inject_Z (L + (Y + H)) * Double.eta * (1 # 2)).
  { rewrite !inject_Z_plus. field. }
  rewrite E, Qabs_Qmult, !Qabs_inject_eta, eps_val.
  change (Qabs (1 # 2)) with (1 # 2).
  rewrite Zle_Qle in N.
  rewrite inject_Z_mult, !inject_Z_plus, inject_Z_mult in N.
  change (inject_Z (2 ^ 53 - 1)) with (9007199254740991 # 1) in N.
  change (inject_Z (2 ^ 53)) with (9007199254740992 # 1) in N.
  change (inject_Z 2) with (2 # 1) in N.
  pose proof eta_pos as Hp.
  set (m := inject_Z (Z.abs (L + (Y + H)))) in *.
  set (y := inject_Z (Z.abs Y)) in *. set (l := inject_Z (Z.abs L)) in *.
  assert (Hm : 0 <= m)
    by (subst m; change 0 with (inject_Z 0); rewrite <- Zle_Qle; lia).
  assert (Hb : m * (1 # 2) <= (1 # 9007199254740992) * (y + 2 * l) + 1)
    by lra.
  setoid_replace ((1 # 9007199254740992) * (y * Double.eta + 2 * (l * Double.eta))
                  + Double.eta)
    with (((1 # 9007199254740992) * (y + 2 * l) + 1) * Double.eta) by ring.
  setoid_replace (m * Double.eta * (1 # 2)) with (m * (1 # 2) * Double.eta)
    by ring.
  apply Qmult_le_compat_r; [exact Hb|]. now apply Qlt_le_weak.
Qed.

Lemma single_Q (a hl : Double.double) :
  Double.wf a -> Double.wf hl -> a = Double.zero ->
  let cent := Double.add Double.zero
                (Double.mul Double.half
                   (Double.sub (Double.add a hl) Double.zero)) in
  Double.finite (Double.sub Double.zero cent) = true ->
  Qabs (Double.B2Q (Double.sub Double.zero cent) + Double.B2Q hl / 2)
  <= Double.eta / 2 /\
  (2 ^ (-1021) <= Qabs (Double.B2Q hl) ->
   Double.B2Q (Double.sub Double.zero cent) == - (Double.B2Q hl / 2)).
Proof.
  intros Wa Wh Ea cent Fl.
  pose proof (single_Z a hl Wa Wh Ea Fl) as N. fold cent in N.
  assert (Wl : Double.wf (Double.sub Double.zero cent)).
  { apply sub_wf; [exact I|]. apply cent_wf; assumption. }
  rewrite (B2Q_B2Z _ Wl), (B2Q_B2Z _ Wh).
  set (L := Double.B2Z (Double.sub Double.zero cent)) in *.
  set (H := Double.B2Z hl) in *.
  pose proof eta_pos as Hp.
  split.
  - assert (E : inject_Z L * Double.eta + inject_Z H * Double.eta / 2
                == inject_Z (2 * L + H) * Double.eta * (1 # 2)).
    { rewrite inject_Z_plus, inject_Z_mult. change (inject_Z 2) with 2.
      field. }
    rewrite E, Qabs_Qmult, Qabs_inject_eta.
    change (Qabs (1 # 2)) with (1 # 2).
    rewrite Zle_Qle in N. change (inject_Z 1) with 1 in N.
    set (m := inject_Z (Z.abs (2 * L + H))) in *.
    setoid_replace (Double.eta / 2) with (1 * Double.eta * (1 # 2))
      by field.
    apply Qmult_le_compat_r; [|discriminate].
    apply Qmult_le_compat_r; [exact N|]. now apply Qlt_le_weak.
  - rewrite Qabs_inject_eta. intros Hn.
    assert (Hb : (2 ^ 53 <= Z.abs H)%Z).
    { rewrite Zle_Qle.
      apply (Qmult_le_r _ _ Double.eta); [exact Hp|].
      assert (E : inject_Z (2 ^ 53) * Double.eta == 2 ^ (-1021))
        by reflexivity.
      rewrite E. exact Hn. }
    destruct (B2Z_even hl Wh Hb) as [k Ek]. fold H in Ek.
    assert (L = (- k)%Z) by lia.
    rewrite H0, Ek, inject_Z_opp, inject_Z_mult. change (inject_Z 2) with 2.
    field.
Qed.
(** ** Centering of a column in double precision *)

(** C9, as stated, fails in double precision. For the heights 0.1, 0.2
    and 0.3 and the spacing 0.1, [_distribute_column] puts the first
    cluster at [-0.4] and the last one at [0.09999999999999998]; the
    midpoint of the bottom of the first and the top of the last is
    [-2^-55], not 0. *)
Lemma column_midpoint_off_zero :
  exists p' low ylast,
    Double._distribute_column tenths_plot 0 d0_1 = Ok p' /\
    Double.y_pos (Double.cl (Double.heap p') 0%nat) = Some low /\
    Double.y_pos (Double.cl (Double.heap p') 2%nat) = Some ylast /\
    low = S754_finite true 7205759403792794 (-54) /\
    ylast = S754_finite false 7205759403792792 (-56) /\
    Double.height (Double.cl (Double.heap p') 2%nat) = d0_3 /\
    (Double.B2Q low + (Double.B2Q ylast + Double.B2Q d0_3)) / 2
    == - 2 ^ (-55) /\
    ~ (Double.B2Q low + (Double.B2Q ylast + Double.B2Q d0_3)) / 2 == 0.
Proof.
  destruct (Double._distribute_column tenths_plot 0 d0_1) as [p'|e] eqn:E;
    [|vm_compute in E; discriminate E].
  exists p'.
  assert (Hl : Double.y_pos (Double.cl (Double.heap p') 0%nat)
               = Some (S754_finite true 7205759403792794 (-54)))
    by (vm_compute in E; injection E as <-; reflexivity).
  assert (Hy : Double.y_pos (Double.cl (Double.heap p') 2%nat)
               = Some (S754_finite false 7205759403792792 (-56)))
    by (vm_compute in E; injection E as <-; reflexivity).
  assert (Hh : Double.height (Double.cl (Double.heap p') 2%nat) = d0_3)
    by (vm_compute in E; injection E as <-; reflexivity).
  eexists _, _. split; [reflexivity|].
  split; [exact Hl|]. split; [exact Hy|].
  split; [reflexivity|]. split; [reflexivity|]. split; [exact Hh|].
  split; [vm_compute; reflexivity|]. vm_compute. discriminate.
Qed.

(** C9, amended. For every non-empty column of distinct clusters that
    have a horizontal position and whose heights, like the spacing, are
    doubles, [_distribute_column] succeeds and centres the span of the
    column on zero up to the rounding of its sums: where the position of
    the last cluster is finite (no sum overflowed), the midpoint of the
    bottom [low] of the first cluster and the top [ylast + height] of the
    last one is within [2^-53 * (|ylast| + 2 |low|) + 2^-1074] of 0. A
    column of exactly one cluster of height [h] puts it at [-h/2] whatever
    the spacing: within [2^-1075], and exactly for [|h| >= 2^-1021]. *)
Theorem distribute_column_centered_double (p : Double.AlluvialPlot)
  (k : nat) (s : Double.double) :
  Double.column p k <> [] -> NoDup (Double.column p k) ->
  (forall c, In c (Double.column p k) ->
     Double.x_pos (Double.cl (Double.heap p) c) <> None) ->
  (forall c, In c (Double.column p k) ->
     Double.valid (Double.height (Double.cl (Double.heap p) c))) ->
  Double.valid s ->
  exists p' c0 cn low ylast,
    Double._distribute_column p k s = Ok p' /\
    Double.clusters p' = Double.clusters p /\
    first_item (Double.column p k) = Ok c0 /\
    last_item (Double.column p k) = Ok cn /\
    Double.y_pos (Double.cl (Double.heap p') c0) = Some low /\
    Double.y_pos (Double.cl (Double.heap p') cn) = Some ylast /\
    Double.height (Double.cl (Double.heap p') cn)
    = Double.height (Double.cl (Double.heap p) cn) /\
    (Double.finite ylast = true ->
     Qabs ((Double.B2Q low
            + (Double.B2Q ylast
               + Double.B2Q (Double.height (Double.cl (Double.heap p') cn))))
           / 2)
     <= Double.eps * (Qabs (Double.B2Q ylast) + 2 * Qabs (Double.B2Q low))
        + Double.eta) /\
    (forall c, Double.column p k = [c] ->
       c0 = c /\
       (Double.finite low = true ->
        Qabs (Double.B2Q low
              + Double.B2Q (Double.height (Double.cl (Double.heap p) c)) / 2)
        <= Double.eta / 2 /\
        (2 ^ (-1021)
         <= Qabs (Double.B2Q (Double.height (Double.cl (Double.heap p) c))) ->
         Double.B2Q low
         == - (Double.B2Q (Double.height (Double.cl (Double.heap p) c))
               / 2)))).
Proof.
  intros Hne Hnd Hx Hv Hs.
  destruct (ddistribute_column_heap_ok (Double.heap p) (Double.column p k) s
              Hne Hnd Hx)
    as (h1 & h' & c0 & cn & a & E & F & L & C1 & Ya & M1 & M & _ & _ & P).
  assert (Hc0 : In c0 (Double.column p k)).
  { destruct (Double.column p k); [discriminate F|].
    injection F as <-. now left. }
  assert (Hcn : In cn (Double.column p k)) by (apply last_item_in, L).
  assert (Y0 : Double.y_pos (Double.cl h1 c0) = Some Double.zero).
  { destruct (Double.column p k); [discriminate F|].
    injection F as <-. apply C1. }
  destruct (P c0 Hc0) as (y0 & Hy0 & Hy0').
  rewrite Y0 in Hy0. injection Hy0 as <-.
  destruct (P cn Hcn) as (yn & Hyn & Hyn').
  rewrite Ya in Hyn. injection Hyn as <-.
  assert (Wh : Double.wf (Double.height (Double.cl (Double.heap p) cn)))
    by (apply valid_wf, Hv, Hcn).
  assert (Wa : Double.wf a).
  { destruct (stacked_from_positioned h1 s (Double.column p k) Double.zero
                C1 I (valid_wf _ Hs)) with (c := cn) as (y & Hy & Wy).
    - intros c Hin. destruct (M1 c) as [Mh _]. rewrite Mh.
      apply valid_wf, Hv, Hin.
    - exact Hcn.
    - rewrite Ya in Hy. injection Hy as <-. exact Wy. }
  assert (Hh : Double.height (Double.cl h' cn)
               = Double.height (Double.cl (Double.heap p) cn)) by apply M.
  eexists (Double.with_heap p h'), c0, cn, _, _.
  unfold Double._distribute_column. rewrite E.
  cbn [bind Double.with_heap Double.heap Double.clusters].
  split; [reflexivity|]. split; [reflexivity|]. split; [exact F|].
  split; [exact L|]. split; [exact Hy0'|]. split; [exact Hyn'|].
  split; [exact Hh|]. split.
  - intros Fy. rewrite Hh. apply centering_Q; assumption.
  - intros c Hc. rewrite Hc in F, L.
    unfold last_item in L. cbn in F, L. injection F as <-. injection L as <-.
    split; [reflexivity|]. intros Fl.
    rewrite Y0 in Ya. injection Ya as <-.
    apply single_Q; auto.
Qed.

Lemma distribute_column_centered_double_witness :
  (exists p' c0 cn low ylast,
    Double._distribute_column units_plot 0 d0_5 = Ok p' /\
    Double.clusters p' = Double.clusters units_plot /\
    first_item (Double.column units_plot 0) = Ok c0 /\
    last_item (Double.column units_plot 0) = Ok cn /\
    Double.y_pos (Double.cl (Double.heap p') c0) = Some low /\
    Double.y_pos (Double.cl (Double.heap p') cn) = Some ylast /\
    Double.height (Double.cl (Double.heap p') cn)
    = Double.height (Double.cl (Double.heap units_plot) cn) /\
    (Double.finite ylast = true ->
     Qabs ((Double.B2Q low
            + (Double.B2Q ylast
               + Double.B2Q (Double.height (Double.cl (Double.heap p') cn))))
           / 2)
     <= Double.eps * (Qabs (Double.B2Q ylast) + 2 * Qabs (Double.B2Q low))
        + Double.eta) /\
    (forall c, Double.column units_plot 0 = [c] ->
       c0 = c /\
       (Double.finite low = true ->
        Qabs (Double.B2Q low
              + Double.B2Q
                  (Double.height (Double.cl (Double.heap units_plot) c)) / 2)
        <= Double.eta / 2 /\
        (2 ^ (-1021)
         <= Qabs (Double.B2Q
                    (Double.height (Double.cl (Double.heap units_plot) c))) ->
         Double.B2Q low
         == - (Double.B2Q
                 (Double.height (Double.cl (Double.heap units_plot) c))
               / 2))))) /\
  (exists p' c0 cn low ylast,
    Double._distribute_column one_plot 0 d0_1 = Ok p' /\
    Double.clusters p' = Double.clusters one_plot /\
    first_item (Double.column one_plot 0) = Ok c0 /\
    last_item (Double.column one_plot 0) = Ok cn /\
    Double.y_pos (Double.cl (Double.heap p') c0) = Some low /\
    Double.y_pos (Double.cl (Double.heap p') cn) = Some ylast /\
    Double.height (Double.cl (Double.heap p') cn)
    = Double.height (Double.cl (Double.heap one_plot) cn) /\
    (Double.finite ylast = true ->
     Qabs ((Double.B2Q low
            + (Double.B2Q ylast
               + Double.B2Q (Double.height (Double.cl (Double.heap p') cn))))
           / 2)
     <= Double.eps * (Qabs (Double.B2Q ylast) + 2 * Qabs (Double.B2Q low))
        + Double.eta) /\
    (forall c, Double.column one_plot 0 = [c] ->
       c0 = c /\
       (Double.finite low = true ->
        Qabs (Double.B2Q low
              + Double.B2Q
                  (Double.height (Double.cl (Double.heap one_plot) c)) / 2)
        <= Double.eta / 2 /\
        (2 ^ (-1021)
         <= Qabs (Double.B2Q
                    (Double.height (Double.cl (Double.heap one_plot) c))) ->
         Double.B2Q low
         == - (Double.B2Q
                 (Double.height (Double.cl (Double.heap one_plot) c))
               / 2))))).
Proof.
  split.
  - apply (distribute_column_centered_double units_plot 0 d0_5).
    + discriminate.
    + repeat constructor; simpl; intuition discriminate.
    + intros c [<-|[<-|[<-|[]]]]; vm_compute; discriminate.
    + intros c [<-|[<-|[<-|[]]]]; vm_compute; reflexivity.
    + vm_compute. reflexivity.
  - apply (distribute_column_centered_double one_plot 0 d0_1).
    + discriminate.
    + repeat constructor; simpl; intuition discriminate.
    + intros c [<-|[]]; vm_compute; discriminate.
    + intros c [<-|[]]; vm_compute; reflexivity.
    + vm_compute. reflexivity.
Defined.

(** ** Bands of fluxes along an edge in double precision *)

Lemma B2Q_opp (w : Double.double) :
  Double.B2Q (Double.opp w) == - Double.B2Q w.
Proof.
  destruct w as [s|s| |s m e]; cbn [Double.opp SFopp Double.B2Q];
    try reflexivity.
  destruct s; cbn [negb cond_Zopp];
    rewrite <- ?Pos2Z.opp_pos, ?inject_Z_opp; ring.
Qed.

Lemma opp_wf (w : Double.double) : Double.wf w -> Double.wf (Double.opp w).
Proof. destruct w; cbn; auto. Qed.

Lemma dsigned_wf l w : Double.wf w -> Double.wf (dsigned l w).
Proof. destruct l; cbn [dsigned]; [apply opp_wf|auto]. Qed.

Lemma add_zero_r_same (s : Double.double) :
  same_number (Double.add s Double.zero) s.
Proof.
  destruct s as [[]|[]| |s m e]; cbn; try (now left); right; eauto.
Qed.

Lemma band_accurate_holds (l : Loc) (e m w : Double.double) :
  Double.wf e -> Double.wf m -> Double.wf w -> band_accurate l e m w.
Proof.
  intros We Wm Ww. unfold band_accurate. intros Ft Fs.
  pose proof (dsigned_wf l w Ww) as Wd.
  set (d := dsigned l w) in *.
  pose proof (add_wf e m We Wm) as Ws.
  pose proof (add_wf m d Wm Wd) as Wm'.
  destruct (add_accurate _ _ Ws Wd Ft) as (Fs0 & _ & T2).
  destruct (add_accurate _ _ We Wm Fs0) as (_ & _ & T1).
  destruct (add_accurate _ _ We Wm' Fs) as (_ & Fm' & T1').
  destruct (add_accurate _ _ Wm Wd Fm') as (_ & _ & T3).
  split; [exact T1|]. split; [exact T2|]. split; [exact T3|].
  rewrite eps_val in *.
  set (S := Double.B2Q (Double.add e m)) in *.
  set (T := Double.B2Q (Double.add (Double.add e m) d)) in *.
  set (M' := Double.B2Q (Double.add m d)) in *.
  set (S' := Double.B2Q (Double.add e (Double.add m d))) in *.
  set (E := Double.B2Q e) in *. set (M := Double.B2Q m) in *.
  set (D := Double.B2Q d) in *.
  set (A1 := Qabs (E + M)) in *. set (A2 := Qabs (S + D)) in *.
  set (A3 := Qabs (M + D)) in *. set (A4 := Qabs (E + M')) in *.
  apply Qabs_Qle_condition in T1, T2, T3, T1'.
  apply Qabs_Qle_condition. split; lra.
Qed.

Lemma danchor_out_flux_ok c h f an lo li w :
  Double.out_ (Double.cl h c) = Some an ->
  Double.out_loc (Double.fl h f) = Some (Some lo) ->
  Double.in_loc (Double.fl h f) = Some (Some li) ->
  Double.flux_width (Double.fl h f) = Some w ->
  exists h1 a t,
    Double.anchor_out_flux c h f = Ok h1 /\
    (forall c', c' <> c -> Double.cl h1 c' = Double.cl h c') /\
    Double.cl h1 c
    = Double.with_out_margin (Double.cl h c)
        (set_loc (Double.out_margin (Double.cl h c)) lo
           (Double.add (get_loc (Double.out_margin (Double.cl h c)) lo)
              (dsigned lo w))) /\
    (forall f', f' <> f -> Double.fl h1 f' = Double.fl h f') /\
    Double.fl h1 f = Double.with_out_anchor (Double.fl h f) a t /\
    dbetween (snd a) (snd t)
      (Double.add (snd (get_loc an lo))
         (get_loc (Double.out_margin (Double.cl h c)) lo))
      (Double.add
         (Double.add (snd (get_loc an lo))
            (get_loc (Double.out_margin (Double.cl h c)) lo))
         (dsigned lo w)).
Proof.
  intros Ha Ho Hi Hw. unfold Double.anchor_out_flux, Double.get_loc_out_flux.
  rewrite Ho, Hw, Hi, Ha. cbn [get_attr bind Double.anchors lookup_loc].
  eexists _, _, _. split; [reflexivity|].
  cbn [Double.cl Double.fl Double.put_flux Double.put_cluster].
  rewrite !upd_same.
  split; [intros c' Hc; now rewrite upd_other|].
  split; [destruct lo; reflexivity|].
  split; [intros f' Hf; now rewrite upd_other|].
  split; [reflexivity|].
  unfold dbetween. cbn [snd].
  destruct lo, li; cbn [is_loc Loc_eqb dsigned];
    [left|right|left|right]; split;
    first [reflexivity | apply add_zero_r_same].
Qed.

Lemma danchor_in_flux_ok c h f an lo li w :
  Double.in_ (Double.cl h c) = Some an ->
  Double.out_loc (Double.fl h f) = Some (Some lo) ->
  Double.in_loc (Double.fl h f) = Some (Some li) ->
  Double.flux_width (Double.fl h f) = Some w ->
  exists h1 a t,
    Double.anchor_in_flux c h f = Ok h1 /\
    (forall c', c' <> c -> Double.cl h1 c' = Double.cl h c') /\
    Double.cl h1 c
    = Double.with_in_margin (Double.cl h c)
        (set_loc (Double.in_margin (Double.cl h c)) li
           (Double.add (get_loc (Double.in_margin (Double.cl h c)) li)
              (dsigned li w))) /\
    (forall f', f' <> f -> Double.fl h1 f' = Double.fl h f') /\
    Double.fl h1 f = Double.with_in_anchor (Double.fl h f) a t /\
    dbetween (snd a) (snd t)
      (Double.add (snd (get_loc an li))
         (get_loc (Double.in_margin (Double.cl h c)) li))
      (Double.add
         (Double.add (snd (get_loc an li))
            (get_loc (Double.in_margin (Double.cl h c)) li))
         (dsigned li w)).
Proof.
  intros Ha Ho Hi Hw. unfold Double.anchor_in_flux, Double.get_loc_in_flux.
  rewrite Ho, Hw, Hi, Ha. cbn [get_attr bind Double.anchors lookup_loc].
  eexists _, _, _. split; [reflexivity|].
  cbn [Double.cl Double.fl Double.put_flux Double.put_cluster].
  rewrite !upd_same.
  split; [intros c' Hc; now rewrite upd_other|].
  split; [destruct li; reflexivity|].
  split; [intros f' Hf; now rewrite upd_other|].
  split; [reflexivity|].
  unfold dbetween. cbn [snd].
  destruct lo, li; cbn [is_loc Loc_eqb dsigned];
    [left|left|right|right]; split;
    first [reflexivity | apply add_zero_r_same].
Qed.
Lemma danchor_out_loop c an (LO LI : fid -> Loc) (W : fid -> Double.double)
  fs :
  forall h,
  NoDup fs -> Double.out_ (Double.cl h c) = Some an ->
  (forall l, Double.wf (snd (get_loc an l))) ->
  (forall l, Double.wf (get_loc (Double.out_margin (Double.cl h c)) l)) ->
  (forall f, In f fs ->
     Double.out_loc (Double.fl h f) = Some (Some (LO f)) /\
     Double.in_loc (Double.fl h f) = Some (Some (LI f)) /\
     Double.flux_width (Double.fl h f) = Some (W f) /\ Double.wf (W f)) ->
  exists h',
    for_each fs (Double.anchor_out_flux c) h = Ok h' /\
    (forall f, ~ In f fs -> Double.fl h' f = Double.fl h f) /\
    (forall f, Double.out_loc (Double.fl h' f) = Double.out_loc (Double.fl h f) /\
               Double.in_loc (Double.fl h' f) = Double.in_loc (Double.fl h f) /\
               Double.flux_width (Double.fl h' f)
               = Double.flux_width (Double.fl h f)) /\
    (forall c', c' <> c -> Double.cl h' c' = Double.cl h c') /\
    Double.out_ (Double.cl h' c) = Double.out_ (Double.cl h c) /\
    forall l,
      dtiled h' dout_ends l (snd (get_loc an l))
        (get_loc (Double.out_margin (Double.cl h c)) l)
        (filter (fun f => Loc_eqb (LO f) l) fs) /\
      get_loc (Double.out_margin (Double.cl h' c)) l
      = dmargin l (get_loc (Double.out_margin (Double.cl h c)) l)
          (map W (filter (fun f => Loc_eqb (LO f) l) fs)).
Proof.
  induction fs as [|f fs IH]; intros h Hnd Ha Wa Wm Hf.
  - exists h. cbn [for_each filter map dmargin fold_left dtiled].
    split; [reflexivity|]. split; [easy|]. split; [easy|].
    split; [easy|]. split; [reflexivity|]. intros l. now split.
  - inversion Hnd as [|? ? Hnin Hnd']; subst.
    destruct (Hf f (or_introl eq_refl)) as (Ho & Hi & Hw & Ww).
    destruct (danchor_out_flux_ok c h f an _ _ _ Ha Ho Hi Hw)
      as (h1 & a & t & E & C1 & Cc & F1 & Ff & Hb).
    assert (Hattr : forall g,
               Double.out_loc (Double.fl h1 g) = Double.out_loc (Double.fl h g) /\
               Double.in_loc (Double.fl h1 g) = Double.in_loc (Double.fl h g) /\
               Double.flux_width (Double.fl h1 g)
               = Double.flux_width (Double.fl h g)).
    { intros g. destruct (Nat.eq_dec g f) as [->|Hne].
      - rewrite Ff. cbn. auto.
      - rewrite F1; auto. }
    destruct (IH h1 Hnd') as (h' & E' & Fr & At & C' & A' & T).
    { rewrite Cc. cbn. exact Ha. }
    { exact Wa. }
    { intros l. rewrite Cc. cbn [Double.out_margin Double.with_out_margin].
      rewrite get_set_loc. destruct (Loc_eqb l (LO f)); [|apply Wm].
      apply add_wf; [apply Wm|]. now apply dsigned_wf. }
    { intros g Hg. destruct (Hattr g) as (-> & -> & ->).
      apply Hf. now right. }
    exists h'. cbn [for_each]. rewrite E. cbn [bind].
    split; [exact E'|].
    split.
    { intros g Hg. rewrite Fr, F1; auto.
      - intros ->. apply Hg. now left.
      - intros Hin. apply Hg. now right. }
    split.
    { intros g. destruct (At g) as (-> & -> & ->). apply Hattr. }
    split; [intros c' Hc; rewrite C', C1; auto|].
    split; [rewrite A', Cc; reflexivity|].
    intros l. destruct (T l) as [Tl Ml].
    rewrite Cc in Tl, Ml.
    cbn [Double.out_margin Double.with_out_margin] in Tl, Ml.
    rewrite get_set_loc in Tl, Ml.
    cbn [filter]. destruct (Loc_eqb (LO f) l) eqn:El.
    + assert (LO f = l) as <- by (destruct (LO f), l; easy).
      rewrite (match LO f as x return Loc_eqb x x = true with
               | top | bottom => eq_refl end) in Tl, Ml.
      split.
      * cbn [dtiled]. exists (W f), (snd a), (snd t).
        rewrite (Fr f Hnin), Ff.
        split; [exact Hw|]. split; [reflexivity|]. split; [exact Hb|].
        split; [|exact Tl].
        apply band_accurate_holds; [apply Wa|apply Wm|exact Ww].
      * cbn [map dmargin fold_left]. exact Ml.
    + assert (Loc_eqb l (LO f) = false) as El'
          by (destruct (LO f), l; easy).
      rewrite El' in Tl, Ml. split; assumption.
Qed.

Lemma danchor_in_loop c an (LO LI : fid -> Loc) (W : fid -> Double.double)
  fs :
  forall h,
  NoDup fs -> Double.in_ (Double.cl h c) = Some an ->
  (forall l, Double.wf (snd (get_loc an l))) ->
  (forall l, Double.wf (get_loc (Double.in_margin (Double.cl h c)) l)) ->
  (forall f, In f fs ->
     Double.out_loc (Double.fl h f) = Some (Some (LO f)) /\
     Double.in_loc (Double.fl h f) = Some (Some (LI f)) /\
     Double.flux_width (Double.fl h f) = Some (W f) /\ Double.wf (W f)) ->
  exists h',
    for_each fs (Double.anchor_in_flux c) h = Ok h' /\
    (forall f, ~ In f fs -> Double.fl h' f = Double.fl h f) /\
    (forall f, Double.out_loc (Double.fl h' f) = Double.out_loc (Double.fl h f) /\
               Double.in_loc (Double.fl h' f) = Double.in_loc (Double.fl h f) /\
               Double.flux_width (Double.fl h' f)
               = Double.flux_width (Double.fl h f)) /\
    (forall c', c' <> c -> Double.cl h' c' = Double.cl h c') /\
    Double.in_ (Double.cl h' c) = Double.in_ (Double.cl h c) /\
    forall l,
      dtiled h' din_ends l (snd (get_loc an l))
        (get_loc (Double.in_margin (Double.cl h c)) l)
        (filter (fun f => Loc_eqb (LI f) l) fs) /\
      get_loc (Double.in_margin (Double.cl h' c)) l
      = dmargin l (get_loc (Double.in_margin (Double.cl h c)) l)
          (map W (filter (fun f => Loc_eqb (LI f) l) fs)).
Proof.
  induction fs as [|f fs IH]; intros h Hnd Ha Wa Wm Hf.
  - exists h. cbn [for_each filter map dmargin fold_left dtiled].
    split; [reflexivity|]. split; [easy|]. split; [easy|].
    split; [easy|]. split; [reflexivity|]. intros l. now split.
  - inversion Hnd as [|? ? Hnin Hnd']; subst.
    destruct (Hf f (or_introl eq_refl)) as (Ho & Hi & Hw & Ww).
    destruct (danchor_in_flux_ok c h f an _ _ _ Ha Ho Hi Hw)
      as (h1 & a & t & E & C1 & Cc & F1 & Ff & Hb).
    assert (Hattr : forall g,
               Double.out_loc (Double.fl h1 g) = Double.out_loc (Double.fl h g) /\
               Double.in_loc (Double.fl h1 g) = Double.in_loc (Double.fl h g) /\
               Double.flux_width (Double.fl h1 g)
               = Double.flux_width (Double.fl h g)).
    { intros g. destruct (Nat.eq_dec g f) as [->|Hne].
      - rewrite Ff. cbn. auto.
      - rewrite F1; auto. }
    destruct (IH h1 Hnd') as (h' & E' & Fr & At & C' & A' & T).
    { rewrite Cc. cbn. exact Ha. }
    { exact Wa. }
    { intros l. rewrite Cc. cbn [Double.in_margin Double.with_in_margin].
      rewrite get_set_loc. destruct (Loc_eqb l (LI f)); [|apply Wm].
      apply add_wf; [apply Wm|]. now apply dsigned_wf. }
    { intros g Hg. destruct (Hattr g) as (-> & -> & ->).
      apply Hf. now right. }
    exists h'. cbn [for_each]. rewrite E. cbn [bind].
    split; [exact E'|].
    split.
    { intros g Hg. rewrite Fr, F1; auto.
      - intros ->. apply Hg. now left.
      - intros Hin. apply Hg. now right. }
    split.
    { intros g. destruct (At g) as (-> & -> & ->). apply Hattr. }
    split; [intros c' Hc; rewrite C', C1; auto|].
    split; [rewrite A', Cc; reflexivity|].
    intros l. destruct (T l) as [Tl Ml].
    rewrite Cc in Tl, Ml.
    cbn [Double.in_margin Double.with_in_margin] in Tl, Ml.
    rewrite get_set_loc in Tl, Ml.
    cbn [filter]. destruct (Loc_eqb (LI f) l) eqn:El.
    + assert (LI f = l) as <- by (destruct (LI f), l; easy).
      rewrite (match LI f as x return Loc_eqb x x = true with
               | top | bottom => eq_refl end) in Tl, Ml.
      split.
      * cbn [dtiled]. exists (W f), (snd a), (snd t).
        rewrite (Fr f Hnin), Ff.
        split; [exact Hw|]. split; [reflexivity|]. split; [exact Hb|].
        split; [|exact Tl].
        apply band_accurate_holds; [apply Wa|apply Wm|exact Ww].
      * cbn [map dmargin fold_left]. exact Ml.
    + assert (Loc_eqb l (LI f) = false) as El'
          by (destruct (LI f), l; easy).
      rewrite El' in Tl, Ml. split; assumption.
Qed.

(** C3, as stated, fails. On the sample diagram the cluster 0 has its
    ['bottom'] exit anchored at the height 0.1 and sends there the fluxes
    1, 2 and 3, of the widths 0.2, 0.3 and 0.4, in this order. The band
    of flux 2 ends at 0.6000000000000001 and that of flux 3 starts at
    0.6: the two overlap, by the rounding of the sums. The flux 0 leaves
    by the ['top'] exit: its margin goes from 0 to -1, so it is
    decremented, and by the width 1.0 of the flux, which is relative and
    has the magnitude 0.5. *)
Lemma edge_bands_overlap_and_descend :
  exists h',
    Double.set_anchor_out_fluxes ports_heap 0%nat = Ok h' /\
    Double.out_fluxes (Double.cl ports_heap 0%nat) = [0; 1; 2; 3]%nat /\
    filter (don_edge ports_heap Double.out_loc bottom)
      (Double.out_fluxes (Double.cl ports_heap 0%nat)) = [1; 2; 3]%nat /\
    dout_ends (Double.fl h' 2%nat)
    = Some (S754_finite false 5404319552844596 (-54), d0_6_up) /\
    dout_ends (Double.fl h' 3%nat) = Some (d0_6, d1_0) /\
    Double.B2Q d0_6 < Double.B2Q d0_6_up /\
    don_edge ports_heap Double.out_loc top 0%nat = true /\
    Double.flux (Double.fl ports_heap 0%nat) = d0_5 /\
    Double.flux_width (Double.fl ports_heap 0%nat) = Some d1_0 /\
    get_loc (Double.out_margin (Double.cl ports_heap 0%nat)) top
    = Double.zero /\
    get_loc (Double.out_margin (Double.cl h' 0%nat)) top = Double.opp d1_0.
Proof.
  destruct (Double.set_anchor_out_fluxes ports_heap 0%nat) as [h'|e] eqn:E;
    [|vm_compute in E; discriminate E].
  exists h'. split; [reflexivity|].
  split; [vm_compute; reflexivity|]. split; [vm_compute; reflexivity|].
  split; [vm_compute in E; injection E as <-; vm_compute; reflexivity|].
  split; [vm_compute in E; injection E as <-; vm_compute; reflexivity|].
  split; [vm_compute; reflexivity|].
  split; [vm_compute; reflexivity|]. split; [vm_compute; reflexivity|].
  split; [vm_compute; reflexivity|]. split; [vm_compute; reflexivity|].
  vm_compute in E. injection E as <-. vm_compute. reflexivity.
Qed.

(** C3, amended. For a cluster with anchors, whose outgoing (resp.
    incoming) fluxes are distinct and have both edges decided and a
    width, [set_anchor_out_fluxes] (resp. [set_anchor_in_fluxes])
    succeeds and, on each of the two edges of that side, gives the fluxes
    of the edge bands in the order of the list: the two anchors of a flux
    are the ends of its band, which starts at the anchor of the edge plus
    the current margin and extends by [flux_width], upwards on a
    ['bottom'] edge and downwards on a ['top'] edge; the margin of a
    ['bottom'] edge is then incremented, and that of a ['top'] edge
    decremented, by that width. The sums are double-precision sums:
    where they are finite each is exact up to the relative error
    [2^-53], and the next band starts where the band ends up to four
    such errors ([band_accurate]). The margin ends at the rounded
    running sum of the signed widths. *)
Theorem set_anchor_fluxes_tiled_double (h : Double.Heap) (c : cid)
  (ao ai : by_loc Double.point) :
  Double.out_ (Double.cl h c) = Some ao ->
  Double.in_ (Double.cl h c) = Some ai ->
  NoDup (Double.out_fluxes (Double.cl h c)) ->
  NoDup (Double.in_fluxes (Double.cl h c)) ->
  (forall l, Double.valid (snd (get_loc ao l)) /\
             Double.valid (snd (get_loc ai l)) /\
             Double.valid (get_loc (Double.out_margin (Double.cl h c)) l) /\
             Double.valid (get_loc (Double.in_margin (Double.cl h c)) l)) ->
  (forall f, In f (Double.out_fluxes (Double.cl h c)
                   ++ Double.in_fluxes (Double.cl h c)) ->
     exists lo li w,
       Double.out_loc (Double.fl h f) = Some (Some lo) /\
       Double.in_loc (Double.fl h f) = Some (Some li) /\
       Double.flux_width (Double.fl h f) = Some w /\ Double.valid w) ->
  (exists h',
     Double.set_anchor_out_fluxes h c = Ok h' /\
     forall l,
       dtiled h' dout_ends l (snd (get_loc ao l))
         (get_loc (Double.out_margin (Double.cl h c)) l)
         (filter (don_edge h Double.out_loc l)
            (Double.out_fluxes (Double.cl h c))) /\
       get_loc (Double.out_margin (Double.cl h' c)) l
       = dmargin l (get_loc (Double.out_margin (Double.cl h c)) l)
           (map (dwidth h)
              (filter (don_edge h Double.out_loc l)
                 (Double.out_fluxes (Double.cl h c))))) /\
  (exists h',
     Double.set_anchor_in_fluxes h c = Ok h' /\
     forall l,
       dtiled h' din_ends l (snd (get_loc ai l))
         (get_loc (Double.in_margin (Double.cl h c)) l)
         (filter (don_edge h Double.in_loc l)
            (Double.in_fluxes (Double.cl h c))) /\
       get_loc (Double.in_margin (Double.cl h' c)) l
       = dmargin l (get_loc (Double.in_margin (Double.cl h c)) l)
           (map (dwidth h)
              (filter (don_edge h Double.in_loc l)
                 (Double.in_fluxes (Double.cl h c))))).
Proof.
  intros Ho Hi Ndo Ndi Hv Hf.
  set (LO := fun f => match Double.out_loc (Double.fl h f) with
                      | Some (Some l) => l
                      | _ => top
                      end).
  set (LI := fun f => match Double.in_loc (Double.fl h f) with
                      | Some (Some l) => l
                      | _ => top
                      end).
  assert (Hall : forall f,
             In f (Double.out_fluxes (Double.cl h c)
                   ++ Double.in_fluxes (Double.cl h c)) ->
             Double.out_loc (Double.fl h f) = Some (Some (LO f)) /\
             Double.in_loc (Double.fl h f) = Some (Some (LI f)) /\
             Double.flux_width (Double.fl h f) = Some (dwidth h f) /\
             Double.wf (dwidth h f)).
  { intros f Hin. destruct (Hf f Hin) as (lo & li & w & E1 & E2 & E3 & Vw).
    unfold LO, LI, dwidth. rewrite E1, E2, E3.
    repeat split. now apply valid_wf. }
  split.
  - destruct (danchor_out_loop c ao LO LI (dwidth h)
                (Double.out_fluxes (Double.cl h c)) h Ndo Ho)
      as (h' & E & _ & _ & _ & _ & T).
    { intros l. apply valid_wf, Hv. }
    { intros l. apply valid_wf, Hv. }
    { intros f Hin. apply Hall, in_or_app. now left. }
    exists h'. split; [exact E|]. intros l.
    assert (Ef : filter (don_edge h Double.out_loc l)
                   (Double.out_fluxes (Double.cl h c))
                 = filter (fun f => Loc_eqb (LO f) l)
                     (Double.out_fluxes (Double.cl h c))).
    { apply filter_ext_in. intros f Hin.
      destruct (Hall f (in_or_app _ _ _ (or_introl Hin))) as (E1 & _).
      unfold don_edge, dloc_of. rewrite E1. reflexivity. }
    rewrite Ef. apply T.
  - destruct (danchor_in_loop c ai LO LI (dwidth h)
                (Double.in_fluxes (Double.cl h c)) h Ndi Hi)
      as (h' & E & _ & _ & _ & _ & T).
    { intros l. apply valid_wf, Hv. }
    { intros l. apply valid_wf, Hv. }
    { intros f Hin. apply Hall, in_or_app. now right. }
    exists h'. split; [exact E|]. intros l.
    assert (Ef : filter (don_edge h Double.in_loc l)
                   (Double.in_fluxes (Double.cl h c))
                 = filter (fun f => Loc_eqb (LI f) l)
                     (Double.in_fluxes (Double.cl h c))).
    { apply filter_ext_in. intros f Hin.
      destruct (Hall f (in_or_app _ _ _ (or_intror Hin))) as (_ & E2 & _).
      unfold don_edge, dloc_of. rewrite E2. reflexivity. }
    rewrite Ef. apply T.
Qed.

Lemma set_anchor_fluxes_tiled_double_witness :
  exists ao ai,
  Double.out_ (Double.cl ports_heap 0%nat) = Some ao /\
  Double.in_ (Double.cl ports_heap 0%nat) = Some ai /\
  (exists h',
     Double.set_anchor_out_fluxes ports_heap 0%nat = Ok h' /\
     forall l,
       dtiled h' dout_ends l (snd (get_loc ao l))
         (get_loc (Double.out_margin (Double.cl ports_heap 0%nat)) l)
         (filter (don_edge ports_heap Double.out_loc l)
            (Double.out_fluxes (Double.cl ports_heap 0%nat))) /\
       get_loc (Double.out_margin (Double.cl h' 0%nat)) l
       = dmargin l
           (get_loc (Double.out_margin (Double.cl ports_heap 0%nat)) l)
           (map (dwidth ports_heap)
              (filter (don_edge ports_heap Double.out_loc l)
                 (Double.out_fluxes (Double.cl ports_heap 0%nat))))) /\
  (exists h',
     Double.set_anchor_in_fluxes ports_heap 0%nat = Ok h' /\
     forall l,
       dtiled h' din_ends l (snd (get_loc ai l))
         (get_loc (Double.in_margin (Double.cl ports_heap 0%nat)) l)
         (filter (don_edge ports_heap Double.in_loc l)
            (Double.in_fluxes (Double.cl ports_heap 0%nat))) /\
       get_loc (Double.in_margin (Double.cl h' 0%nat)) l
       = dmargin l
           (get_loc (Double.in_margin (Double.cl ports_heap 0%nat)) l)
           (map (dwidth ports_heap)
              (filter (don_edge ports_heap Double.in_loc l)
                 (Double.in_fluxes (Double.cl ports_heap 0%nat))))).
Proof.
  eexists _, _. split; [vm_compute; reflexivity|].
  split; [vm_compute; reflexivity|].
  apply set_anchor_fluxes_tiled_double.
  - vm_compute. reflexivity.
  - vm_compute. reflexivity.
  - vm_compute. repeat constructor; cbn; intuition discriminate.
  - vm_compute. constructor.
  - intros [|]; repeat split; vm_compute; reflexivity.
  - intros f Hin. vm_compute in Hin.
    destruct Hin as [<-|[<-|[<-|[<-|[]]]]];
      eexists _, _, _;
      (split; [vm_compute; reflexivity|]);
      (split; [vm_compute; reflexivity|]);
      (split; [vm_compute; reflexivity|]);
      vm_compute; reflexivity.
Defined.

(** ** Fluxes that enter from outside *)

Lemma map_result_raise {A B} (f : A -> result B) (e : exn) l :
  (forall x, In x l -> (exists y, f x = Ok y) \/ f x = Raise e) ->
  (exists x, In x l /\ f x = Raise e) ->
  map_result f l = Raise e.
Proof.
  induction l as [|x l IH]; intros Hall (z & Hz & Ez); [destruct Hz|].
  cbn [map_result].
  destruct (Hall x (or_introl eq_refl)) as [[y Ey]|Ex];
    [|now rewrite Ex].
  rewrite Ey. cbn [bind].
  rewrite IH; [reflexivity| |].
  - intros u Hu. apply Hall. now right.
  - destruct Hz as [<-|Hz]; [congruence|]. eauto.
Qed.

(** X7. [sort_in_fluxes] raises [AttributeError] as soon as one
    incoming flux of the cluster has no attribute [in_loc]. That is the
    state of a flux built without a source: the constructor does not
    assign [in_loc], and [set_loc_out_fluxes] assigns it only to the
    outgoing fluxes of a cluster, among which a flux without a source
    does not stand. *)
Theorem entering_flux_breaks_sorting (h : Heap) (c : cid) (f : fid) :
  In f (in_fluxes (cl h c)) -> in_loc (fl h f) = None ->
  sort_in_fluxes h c = Raise AttributeError /\
  forall c' h',
    ~ In f (out_fluxes (cl h c')) ->
    set_loc_out_fluxes h c' = Ok h' ->
    sort_in_fluxes h' c = Raise AttributeError.
Proof.
  assert (Hgen : forall h0,
             In f (in_fluxes (cl h0 c)) -> in_loc (fl h0 f) = None ->
             sort_in_fluxes h0 c = Raise AttributeError).
  { intros h0 Hin Hn. unfold sort_in_fluxes, sort_fluxes, select_loc.
    rewrite (map_result_raise _ AttributeError); [reflexivity| |].
    - intros g _. destruct (in_loc (fl h0 g)); cbn; eauto.
    - exists f. split; [exact Hin|]. now rewrite Hn. }
  intros Hin Hn. split; [now apply Hgen|].
  intros c' h' Hout E. unfold set_loc_out_fluxes in E.
  destruct (set_loc_loop_ok _ _ _ _ E) as (C & _ & O & _).
  apply Hgen; [now rewrite C|]. now rewrite (O f Hout).
Qed.

Lemma entering_flux_breaks_sorting_witness :
  sort_in_fluxes
    (fst (match Flux_init sample_heap (Number 1) None (Some 1%nat) false top
          with
          | Ok hf => hf
          | Raise _ => (empty_heap, 0%nat)
          end)) 1%nat
  = Raise AttributeError /\
  forall c' h',
    ~ In 3%nat
        (out_fluxes
           (cl (fst (match Flux_init sample_heap (Number 1) None
                             (Some 1%nat) false top with
                     | Ok hf => hf
                     | Raise _ => (empty_heap, 0%nat)
                     end)) c')) ->
    set_loc_out_fluxes
      (fst (match Flux_init sample_heap (Number 1) None (Some 1%nat)
                    false top with
            | Ok hf => hf
            | Raise _ => (empty_heap, 0%nat)
            end)) c' = Ok h' ->
    sort_in_fluxes h' 1%nat = Raise AttributeError.
Proof.
  apply (entering_flux_breaks_sorting _ 1%nat 3%nat).
  - vm_compute. tauto.
  - vm_compute. reflexivity.
Defined.

(** ** The contour of a flux *)

(** X8. When [get_patch] returns, it returns thirteen vertices of which
    the first and the last are the anchor [anchor_out] of the flux, so
    that the contour is closed; and the flux then has a source and a
    target and an exit edge: for a flux with one end only [get_patch]
    raises. *)
Theorem get_patch_closed_contour (h : Heap) (f : fid) (vs : list point) :
  get_patch h f = Ok vs ->
  length vs = 13%nat /\
  (exists a, anchor_out (fl h f) = Some a /\
             nth_error vs 0 = Some a /\ nth_error vs 12 = Some a) /\
  source_cluster (fl h f) <> None /\ target_cluster (fl h f) <> None /\
  (exists o, out_loc (fl h f) = Some (Some o)).
Proof.
  unfold get_patch. intros H.
  apply bind_ok in H. destruct H as (dist & Ed & H).
  apply bind_ok in H. destruct H as (ao & Eao & H).
  apply bind_ok in H. destruct H as (s & Es & H).
  apply bind_ok in H. destruct H as (aox & _ & H).
  apply bind_ok in H. destruct H as (d & Edn & H).
  apply bind_ok in H. destruct H as (to & _ & H).
  apply bind_ok in H. destruct H as (tox & _ & H).
  apply bind_ok in H. destruct H as (ai & _ & H).
  apply bind_ok in H. destruct H as (t & Et & H).
  apply bind_ok in H. destruct H as (aix & _ & H).
  apply bind_ok in H. destruct H as (ti & _ & H).
  apply bind_ok in H. destruct H as (tix & _ & H).
  injection H as <-.
  split; [reflexivity|]. split.
  - exists ao. destruct (anchor_out (fl h f)); [|discriminate].
    injection Eao as ->. repeat split.
  - split; [destruct (source_cluster (fl h f)); discriminate|].
    split; [destruct (target_cluster (fl h f)); discriminate|].
    unfold patch_dist in Ed.
    destruct (out_loc (fl h f)) as [[o|]|]; [eauto| |discriminate].
    cbn [get_attr bind] in Ed.
    destruct (in_loc (fl h f)) as [[i|]|]; cbn [get_attr bind] in Ed;
      try discriminate.
    injection Ed as <-. discriminate Edn.
Qed.

Lemma get_patch_closed_contour_witness :
  exists vs,
    get_patch sample_allocated 0%nat = Ok vs /\
    length vs = 13%nat /\
    (exists a, anchor_out (fl sample_allocated 0%nat) = Some a /\
               nth_error vs 0 = Some a /\ nth_error vs 12 = Some a) /\
    source_cluster (fl sample_allocated 0%nat) <> None /\
    target_cluster (fl sample_allocated 0%nat) <> None /\
    (exists o, out_loc (fl sample_allocated 0%nat) = Some (Some o)).
Proof.
  destruct (get_patch sample_allocated 0%nat) as [vs|e] eqn:E;
    [|vm_compute in E; discriminate E].
  exists vs. split; [reflexivity|].
  apply (get_patch_closed_contour sample_allocated 0%nat vs E).
Defined.

(** ** Adjacent clusters of a column in double precision *)

Section Adjacency.

Local Open Scope Z_scope.

Variables d h s : Double.double.
Hypothesis Wd : Double.wf d.
Hypothesis Wh : Double.wf h.
Hypothesis Ws : Double.wf s.
Variable cent : Double.double.
Hypothesis Wc : Double.wf cent.

Let t := Double.add h s.
Let d' := Double.add d t.
Let yi := Double.sub d cent.
Let yn := Double.sub d' cent.
Let lo := Double.sub Double.zero cent.

Lemma adjacent_Z :
  Double.finite yi = true -> Double.finite yn = true ->
  Double.wf yi /\ Double.wf yn /\ Double.wf lo /\
  Z.abs (Double.B2Z yi + (Double.B2Z h + Double.B2Z s) - Double.B2Z yn)
  * 2 ^ 53
  <= 2 * Z.abs (Double.B2Z yi) + 6 * Z.abs (Double.B2Z yn)
     + 2 * Z.abs (Double.B2Z lo) + Z.abs (Double.B2Z h + Double.B2Z s).
Proof.
  intros Fi Fn.
  pose proof (add_wf h s Wh Ws) as Wt. fold t in Wt.
  pose proof (add_wf d t Wd Wt) as Wd'. fold d' in Wd'.
  destruct (fsub_near d cent Wd Wc Fi) as (_ & _ & Wyi & Ni).
  destruct (fsub_near d' cent Wd' Wc Fn) as (Fd' & _ & Wyn & Nn).
  destruct (fadd_near d t Wd Wt Fd') as (_ & Ft & _ & Nd).
  destruct (fadd_near h s Wh Ws Ft) as (_ & _ & _ & Nt).
  destruct (sub_zero_l cent) as [El _].
  split; [exact Wyi|]. split; [exact Wyn|].
  split; [apply sub_wf; [exact I|exact Wc]|].
  fold yi in Ni. fold yn in Nn. fold d' in Nd. fold t in Nt. fold lo in El.
  unfold Double.near in *. change (2 ^ 53) with 9007199254740992 in *.
  rewrite El. lia.
Qed.

End Adjacency.
Lemma scaled_le (a b : Z) :
  (a * 2 ^ 53 <= b)%Z ->
  inject_Z a * Double.eta <= Double.eps * (inject_Z b * Double.eta).
Proof.
  intros H. rewrite Zle_Qle, inject_Z_mult in H.
  change (inject_Z (2 ^ 53)) with (9007199254740992 # 1) in H.
  rewrite eps_val. pose proof eta_pos as Hp.
  setoid_replace ((1 # 9007199254740992) * (inject_Z b * Double.eta))
    with ((1 # 9007199254740992) * inject_Z b * Double.eta) by ring.
  apply Qmult_le_compat_r; [lra|]. now apply Qlt_le_weak.
Qed.

Lemma adjacent_Q (d h s cent : Double.double) :
  Double.wf d -> Double.wf h -> Double.wf s -> Double.wf cent ->
  let yi := Double.sub d cent in
  let yn := Double.sub (Double.add d (Double.add h s)) cent in
  let lo := Double.sub Double.zero cent in
  Double.finite yi = true -> Double.finite yn = true ->
  Qabs (Double.B2Q yi + (Double.B2Q h + Double.B2Q s) - Double.B2Q yn)
  <= Double.eps * (2 * Qabs (Double.B2Q yi) + 6 * Qabs (Double.B2Q yn)
                   + 2 * Qabs (Double.B2Q lo)
                   + Qabs (Double.B2Q h + Double.B2Q s)).
Proof.
  intros Wd Wh Ws Wc yi yn lo Fi Fn.
  destruct (adjacent_Z d h s Wd Wh Ws cent Wc Fi Fn) as (Wi & Wn & Wl & N).
  fold yi in Wi, N. fold yn in Wn, N. fold lo in Wl, N.
  rewrite (B2Q_B2Z _ Wi), (B2Q_B2Z _ Wn), (B2Q_B2Z _ Wl), (B2Q_B2Z _ Wh),
    (B2Q_B2Z _ Ws).
  set (Yi := Double.B2Z yi) in *. set (Yn := Double.B2Z yn) in *.
  set (L := Double.B2Z lo) in *. set (H := Double.B2Z h) in *.
  set (S := Double.B2Z s) in *.
  assert (E1 : inject_Z Yi * Double.eta
               + (inject_Z H * Double.eta + inject_Z S * Double.eta)
               - inject_Z Yn * Double.eta
               == inject_Z (Yi + (H + S) - Yn) * Double.eta).
  { unfold Z.sub. rewrite !inject_Z_plus, inject_Z_opp. ring. }
  assert (E2 : inject_Z H * Double.eta + inject_Z S * Double.eta
               == inject_Z (H + S) * Double.eta)
    by (rewrite inject_Z_plus; ring).
  rewrite E1, E2, !Qabs_inject_eta.
  assert (E3 : 2 * (inject_Z (Z.abs Yi) * Double.eta)
               + 6 * (inject_Z (Z.abs Yn) * Double.eta)
               + 2 * (inject_Z (Z.abs L) * Double.eta)
               + inject_Z (Z.abs (H + S)) * Double.eta
               == inject_Z (2 * Z.abs Yi + 6 * Z.abs Yn + 2 * Z.abs L
                            + Z.abs (H + S)) * Double.eta).
  { rewrite !inject_Z_plus, !inject_Z_mult.
    change (inject_Z 2) with 2. change (inject_Z 6) with 6. ring. }
  rewrite E3. apply scaled_le. exact N.
Qed.

Lemma stacked_from_adjacent h s col : forall d i c c',
  stacked_from h s d col ->
  nth_error col i = Some c -> nth_error col (S i) = Some c' ->
  exists di,
    Double.y_pos (Double.cl h c) = Some di /\
    Double.y_pos (Double.cl h c')
    = Some (Double.add di (Double.add (Double.height (Double.cl h c)) s)).
Proof.
  induction col as [|x col IH]; intros d i c c' H Hi Hi';
    [destruct i; discriminate|].
  cbn [stacked_from] in H. destruct H as [Hy Hc].
  destruct i as [|i].
  - cbn in Hi. injection Hi as <-. exists d. split; [exact Hy|].
    destruct col as [|x' col]; [discriminate|].
    cbn in Hi'. injection Hi' as <-. apply Hc.
  - cbn in Hi, Hi'. eapply IH; eauto.
Qed.

(** X9. In double precision, [_distribute_column] leaves two clusters
    that follow each other in the column one spacing apart up to
    rounding: where the two positions are finite,
    [y_pos + height + spacing] of the lower one differs from [y_pos]
    of the upper one by at most
    [2^-53 * (2 |y| + 6 |y'| + 2 |low| + |height + spacing|)], [low]
    being the position of the first cluster of the column. *)
Theorem distribute_column_adjacent_double (p : Double.AlluvialPlot)
  (k : nat) (s : Double.double) (i : nat) (c c' : cid) :
  NoDup (Double.column p k) ->
  (forall c, In c (Double.column p k) ->
     Double.x_pos (Double.cl (Double.heap p) c) <> None) ->
  (forall c, In c (Double.column p k) ->
     Double.valid (Double.height (Double.cl (Double.heap p) c))) ->
  Double.valid s ->
  nth_error (Double.column p k) i = Some c ->
  nth_error (Double.column p k) (S i) = Some c' ->
  exists p' c0 low y y',
    Double._distribute_column p k s = Ok p' /\
    first_item (Double.column p k) = Ok c0 /\
    Double.y_pos (Double.cl (Double.heap p') c0) = Some low /\
    Double.y_pos (Double.cl (Double.heap p') c) = Some y /\
    Double.y_pos (Double.cl (Double.heap p') c') = Some y' /\
    (Double.finite y = true -> Double.finite y' = true ->
     Qabs (Double.B2Q y
           + (Double.B2Q (Double.height (Double.cl (Double.heap p) c))
              + Double.B2Q s)
           - Double.B2Q y')
     <= Double.eps
        * (2 * Qabs (Double.B2Q y) + 6 * Qabs (Double.B2Q y')
           + 2 * Qabs (Double.B2Q low)
           + Qabs (Double.B2Q (Double.height (Double.cl (Double.heap p) c))
                   + Double.B2Q s))).
Proof.
  intros Hnd Hx Hv Hs Hi Hi'.
  assert (Hne : Double.column p k <> [])
    by (intros E; rewrite E in Hi; destruct i; discriminate).
  destruct (ddistribute_column_heap_ok (Double.heap p) (Double.column p k) s
              Hne Hnd Hx)
    as (h1 & h' & c0 & cn & a & E & F & L & C1 & Ya & M1 & M & _ & _ & P).
  assert (Hc0 : In c0 (Double.column p k)).
  { destruct (Double.column p k); [discriminate F|].
    injection F as <-. now left. }
  assert (Y0 : Double.y_pos (Double.cl h1 c0) = Some Double.zero).
  { destruct (Double.column p k); [discriminate F|].
    injection F as <-. apply C1. }
  destruct (P c0 Hc0) as (y0 & Hy0 & Hy0').
  rewrite Y0 in Hy0. injection Hy0 as <-.
  destruct (stacked_from_adjacent _ _ _ _ _ _ _ C1 Hi Hi')
    as (di & Hdi & Hdi').
  pose proof (nth_error_In _ _ Hi) as Hc.
  pose proof (nth_error_In _ _ Hi') as Hc'.
  destruct (P c Hc) as (yc & Hyc & Hyc').
  rewrite Hdi in Hyc. injection Hyc as <-.
  destruct (P c' Hc') as (yc' & Hyc1 & Hyc1').
  rewrite Hdi' in Hyc1. injection Hyc1 as <-.
  assert (Hh : Double.height (Double.cl h1 c)
               = Double.height (Double.cl (Double.heap p) c)) by apply M1.
  rewrite Hh in *.
  assert (Wh1 : forall x, In x (Double.column p k) ->
                  Double.wf (Double.height (Double.cl h1 x))).
  { intros x Hin. destruct (M1 x) as [Mh _]. rewrite Mh.
    apply valid_wf, Hv, Hin. }
  assert (Wdi : Double.wf di).
  { destruct (stacked_from_positioned h1 s (Double.column p k) Double.zero
                C1 I (valid_wf _ Hs) Wh1 c Hc) as (y & Hy & Wy).
    rewrite Hdi in Hy. injection Hy as <-. exact Wy. }
  assert (Wa : Double.wf a).
  { destruct (stacked_from_positioned h1 s (Double.column p k) Double.zero
                C1 I (valid_wf _ Hs) Wh1 cn (last_item_in _ _ L))
      as (y & Hy & Wy).
    rewrite Ya in Hy. injection Hy as <-. exact Wy. }
  eexists (Double.with_heap p h'), c0, _, _, _.
  unfold Double._distribute_column. rewrite E.
  cbn [bind Double.with_heap Double.heap].
  split; [reflexivity|]. split; [exact F|]. split; [exact Hy0'|].
  split; [exact Hyc'|]. split; [exact Hyc1'|].
  intros Fy Fy'. apply adjacent_Q; auto.
  - apply valid_wf, Hv, Hc.
  - now apply valid_wf.
  - apply cent_wf; [exact Wa|]. apply valid_wf, Hv, last_item_in, L.
Qed.

Lemma distribute_column_adjacent_double_witness :
  exists p' c0 low y y',
    Double._distribute_column tenths_plot 0 d0_1 = Ok p' /\
    first_item (Double.column tenths_plot 0) = Ok c0 /\
    Double.y_pos (Double.cl (Double.heap p') c0) = Some low /\
    Double.y_pos (Double.cl (Double.heap p') 1%nat) = Some y /\
    Double.y_pos (Double.cl (Double.heap p') 2%nat) = Some y' /\
    (Double.finite y = true -> Double.finite y' = true ->
     Qabs (Double.B2Q y
           + (Double.B2Q
                (Double.height (Double.cl (Double.heap tenths_plot) 1%nat))
              + Double.B2Q d0_1)
           - Double.B2Q y')
     <= Double.eps
        * (2 * Qabs (Double.B2Q y) + 6 * Qabs (Double.B2Q y')
           + 2 * Qabs (Double.B2Q low)
           + Qabs (Double.B2Q
                     (Double.height
                        (Double.cl (Double.heap tenths_plot) 1%nat))
                   + Double.B2Q d0_1))).
Proof.
  apply (distribute_column_adjacent_double tenths_plot 0 d0_1 1 1%nat 2%nat).
  - repeat constructor; simpl; intuition discriminate.
  - intros c [<-|[<-|[<-|[]]]]; vm_compute; discriminate.
  - intros c [<-|[<-|[<-|[]]]]; vm_compute; reflexivity.
  - vm_compute. reflexivity.
  - reflexivity.
  - reflexivity.
Defined.

(** ** The moves of an accepted swap in double precision *)

Lemma exchange_Z (y1 h2 s : Double.double) :
  Double.wf y1 -> Double.wf h2 -> Double.wf s ->
  let y := Double.add (Double.add y1 h2) s in
  Double.finite y = true ->
  Double.wf y /\
  (Z.abs (Double.B2Z y - (Double.B2Z y1 + Double.B2Z h2 + Double.B2Z s))
   * 2 ^ 53
   <= Z.abs (Double.B2Z y1 + Double.B2Z h2) + 2 * Z.abs (Double.B2Z y))%Z.
Proof.
  intros W1 W2 Ws y Fy.
  pose proof (add_wf y1 h2 W1 W2) as Wu.
  destruct (fadd_near _ _ Wu Ws Fy) as (Fu & _ & Wy & Ny).
  destruct (fadd_near _ _ W1 W2 Fu) as (_ & _ & _ & Nu).
  split; [exact Wy|]. fold y in Ny.
  unfold Double.near in *. change (2 ^ 53)%Z with 9007199254740992%Z in *.
  lia.
Qed.

(** X10. In double precision, the two moves of an accepted swap put the
    upper cluster [n2] exactly where the lower cluster [n1] was, and
    [n1] one spacing above the top of [n2] up to the rounding of the
    two sums: where its new position [y] is finite, it differs from
    [y1 + height n2 + spacing] by at most
    [2^-53 * (|y1 + height n2| + 2 |y|)]. No other cluster is touched. *)
Theorem exchange_positions_double (h : Double.Heap) (s : Double.double)
  (n1 n2 : cid) (y1 : Double.double) :
  n1 <> n2 ->
  Double.y_pos (Double.cl h n1) = Some y1 ->
  Double.x_pos (Double.cl h n1) <> None ->
  Double.x_pos (Double.cl h n2) <> None ->
  Double.valid y1 -> Double.valid (Double.height (Double.cl h n2)) ->
  Double.valid s ->
  exists h' y,
    dexchange_positions h s n1 n2 = Ok h' /\
    Double.y_pos (Double.cl h' n2) = Some y1 /\
    Double.y_pos (Double.cl h' n1) = Some y /\
    (forall c, c <> n1 -> c <> n2 -> Double.cl h' c = Double.cl h c) /\
    (forall c, Double.height (Double.cl h' c) = Double.height (Double.cl h c)) /\
    (Double.finite y = true ->
     Qabs (Double.B2Q y
           - (Double.B2Q y1 + Double.B2Q (Double.height (Double.cl h n2))
              + Double.B2Q s))
     <= Double.eps
        * (Qabs (Double.B2Q y1
                 + Double.B2Q (Double.height (Double.cl h n2)))
           + 2 * Qabs (Double.B2Q y))).
Proof.
  intros Hne Hy1 Hx1 Hx2 V1 V2 Vs. unfold dexchange_positions. rewrite Hy1.
  destruct (dset_y_pos_total h n2 y1 Hx2) as [ha Ea]. rewrite Ea.
  cbn [bind].
  destruct (dset_y_pos_ok _ _ _ _ Ea) as (Fa & Oa & Ma & Ya).
  rewrite Ya. cbn [Double.num bind].
  assert (Hha : Double.height (Double.cl ha n2)
                = Double.height (Double.cl h n2)) by apply Ma.
  rewrite Hha.
  set (y := Double.add (Double.add y1 (Double.height (Double.cl h n2))) s).
  destruct (dset_y_pos_total ha n1 y) as [hb Eb].
  { rewrite Oa by exact Hne. exact Hx1. }
  rewrite Eb.
  destruct (dset_y_pos_ok _ _ _ _ Eb) as (Fb & Ob & Mb & Yb).
  exists hb, y. split; [reflexivity|].
  split; [rewrite Ob by (intros ->; now apply Hne); exact Ya|].
  split; [exact Yb|].
  split; [intros c H1 H2; rewrite Ob, Oa; auto|].
  split.
  { intros c. destruct (Nat.eq_dec c n1) as [->|N1].
    - destruct Mb as [Mb _]. rewrite Mb. now rewrite Oa.
    - rewrite Ob by exact N1. destruct (Nat.eq_dec c n2) as [->|N2].
      + apply Ma.
      + now rewrite Oa. }
  intros Fy.
  pose proof (valid_wf _ V1) as W1. pose proof (valid_wf _ V2) as W2.
  pose proof (valid_wf _ Vs) as Ws.
  destruct (exchange_Z y1 _ s W1 W2 Ws Fy) as [Wy N]. fold y in Wy, N.
  rewrite (B2Q_B2Z _ Wy), (B2Q_B2Z _ W1), (B2Q_B2Z _ W2), (B2Q_B2Z _ Ws).
  set (Y := Double.B2Z y) in *. set (Y1 := Double.B2Z y1) in *.
  set (H2 := Double.B2Z (Double.height (Double.cl h n2))) in *.
  set (S := Double.B2Z s) in *.
  assert (E1 : inject_Z Y * Double.eta
               - (inject_Z Y1 * Double.eta + inject_Z H2 * Double.eta
                  + inject_Z S * Double.eta)
               == inject_Z (Y - (Y1 + H2 + S)) * Double.eta).
  { unfold Z.sub. rewrite !inject_Z_plus, inject_Z_opp, !inject_Z_plus.
    ring. }
  assert (E2 : inject_Z Y1 * Double.eta + inject_Z H2 * Double.eta
               == inject_Z (Y1 + H2) * Double.eta)
    by (rewrite inject_Z_plus; ring).
  rewrite E1, E2, !Qabs_inject_eta.
  assert (E3 : inject_Z (Z.abs (Y1 + H2)) * Double.eta
               + 2 * (inject_Z (Z.abs Y) * Double.eta)
               == inject_Z (Z.abs (Y1 + H2) + 2 * Z.abs Y) * Double.eta).
  { rewrite inject_Z_plus, inject_Z_mult. change (inject_Z 2) with 2.
    ring. }
  rewrite E3. apply scaled_le. exact N.
Qed.

Lemma exchange_positions_double_witness :
  exists y1 h' y,
    Double.y_pos (Double.cl units_stacked 0%nat) = Some y1 /\
    dexchange_positions units_stacked d0_5 0%nat 1%nat = Ok h' /\
    Double.y_pos (Double.cl h' 1%nat) = Some y1 /\
    Double.y_pos (Double.cl h' 0%nat) = Some y /\
    (forall c, c <> 0%nat -> c <> 1%nat ->
               Double.cl h' c = Double.cl units_stacked c) /\
    (forall c, Double.height (Double.cl h' c)
               = Double.height (Double.cl units_stacked c)) /\
    (Double.finite y = true ->
     Qabs (Double.B2Q y
           - (Double.B2Q y1
              + Double.B2Q (Double.height (Double.cl units_stacked 1%nat))
              + Double.B2Q d0_5))
     <= Double.eps
        * (Qabs (Double.B2Q y1
                 + Double.B2Q
                     (Double.height (Double.cl units_stacked 1%nat)))
           + 2 * Qabs (Double.B2Q y))).
Proof.
  eexists. 
  assert (Hy : Double.y_pos (Double.cl units_stacked 0%nat)
               = Some (S754_finite true 7881299347898368 (-51)))
    by (vm_compute; reflexivity).
  destruct (exchange_positions_double units_stacked d0_5 0%nat 1%nat _
              ltac:(discriminate) Hy) as (h' & y & H);
    try (vm_compute; congruence).
  exists h', y. split; [exact Hy|]. exact H.
Defined.
